(** * Spider-Tracker: the match-detection and deduplication engine

    A shallow embedding of the monitor of the Spider-Tracker repository
    (keyword matching, film-info resolution, release-date normalisation,
    theatre correlation, match keys and the phone-call deduplication) and the
    properties of it that the specification states.

    Modelling conventions.
    - A JavaScript string is a [string]; the model covers ASCII text:
      [toLowerCase] maps [A-Z] to [a-z] and leaves every other character
      alone, and the order on strings is the order of their character codes.
    - A scalar of a JSON payload is a [jsval]; [null], [undefined] and an
      absent property are all [JNull], and numbers are integers.
    - A property that the code tests with [Array.isArray] is an [option] of a
      list: [None] when it is absent or not an array.
    - HTTP, Telegram, Twilio, the clock and the engine's date parser are
      outside the program: their answers are inputs of the model, and the
      calls made to them are recorded in a trace of events.
    - The entries of the arrays of a payload (movies, films, sessions) are
      records whose fields are scalars.  A [null] entry, and a field that
      holds an object, are outside the model, and so are the exceptions that
      the source raises on them (reading a property of [null], converting an
      object that has no usable [toString]).
    - [makePhoneCall] and [monitor] are asynchronous.  [makePhoneCall],
      [callAll] and [monitorAll] describe calls and cycles that run one after
      the other, each finished before the next starts; calls of
      [makePhoneCall] that overlap are described by [step] and [runTicks].
    - Console logging and the text of the Telegram messages are left out. *)

From Stdlib Require Import ZArith List String Ascii Bool Lia Arith.
From Stdlib Require Import DecimalString Permutation Sorted.
Import ListNotations.
Open Scope string_scope.
Open Scope list_scope.

(** ** JavaScript values and strings *)

Inductive jsval : Type :=
| JNull
| JBool (b : bool)
| JNum (z : Z)
| JStr (s : string).

(** ToBoolean. *)
Definition truthy (v : jsval) : bool :=
  match v with
  | JNull => false
  | JBool b => b
  | JNum z => negb (Z.eqb z 0)
  | JStr s => negb (String.eqb s "")
  end.

(** [String(v)]. *)
Definition toStr (v : jsval) : string :=
  match v with
  | JNull => "null"
  | JBool true => "true"
  | JBool false => "false"
  | JNum z => NilZero.string_of_int (Z.to_int z)
  | JStr s => s
  end.

(** Strict equality [===] (also the SameValueZero of [Set] and [Map] keys). *)
Definition jsval_eqb (a b : jsval) : bool :=
  match a, b with
  | JNull, JNull => true
  | JBool x, JBool y => Bool.eqb x y
  | JNum x, JNum y => Z.eqb x y
  | JStr x, JStr y => String.eqb x y
  | _, _ => false
  end.

(** [a || b]. *)
Definition jsor (a b : jsval) : jsval := if truthy a then a else b.

Definition is_upper (c : ascii) : bool :=
  let n := nat_of_ascii c in (65 <=? n)%nat && (n <=? 90)%nat.

Definition lower_ascii (c : ascii) : ascii :=
  if is_upper c then ascii_of_nat (nat_of_ascii c + 32) else c.

Fixpoint toLowerCase (s : string) : string :=
  match s with
  | EmptyString => EmptyString
  | String c t => String (lower_ascii c) (toLowerCase t)
  end.

(** [s.includes(sub)]. *)
Fixpoint includes (s sub : string) : bool :=
  String.prefix sub s ||
  match s with
  | EmptyString => false
  | String _ t => includes t sub
  end.

(** [s.padStart(2, '0')]. *)
Definition padStart2 (s : string) : string :=
  match String.length s with
  | O => "00" ++ s
  | S O => "0" ++ s
  | _ => s
  end.

(** [l.join(sep)] on an array of non-null scalars. *)
Fixpoint join (sep : string) (l : list jsval) : string :=
  match l with
  | [] => ""
  | [x] => toStr x
  | x :: t => toStr x ++ sep ++ join sep t
  end.

(** The default comparison of [Array.prototype.sort]: by [String(x)], in the
    order of the character codes.  The sort is stable. *)
Definition sort_le (a b : jsval) : bool := String.leb (toStr a) (toStr b).

Fixpoint sort_insert (x : jsval) (l : list jsval) : list jsval :=
  match l with
  | [] => [x]
  | y :: t => if sort_le y x then y :: sort_insert x t else x :: y :: t
  end.

Definition sort (l : list jsval) : list jsval :=
  fold_left (fun acc x => sort_insert x acc) l [].

(** ** Payloads *)

Record film : Type := {
  fm_filmName : jsval;
  fm_filmCommonCode : jsval;
  fm_releaseDate : jsval
}.

Record movie : Type := {
  mv_filmName : jsval;
  mv_releaseDate : jsval;
  mv_year : jsval;
  mv_month : jsval;
  mv_day : jsval;
  mv_films : option (list film)
}.

(** The body of the primary response: [output.mv] when it is an array. *)
Record responseData : Type := {
  output_mv : option (list movie)
}.

Definition getMovies (responseData : responseData) : list movie :=
  match output_mv responseData with
  | Some mv => mv
  | None => []
  end.

(** [Set.prototype.add], on the list of the elements in insertion order. *)
Definition set_add (v : jsval) (s : list jsval) : list jsval :=
  if existsb (jsval_eqb v) s then s else s ++ [v].

Definition getAllFilmNames (movies : list movie) : list jsval :=
  fold_left
    (fun filmNames movie =>
       let filmNames :=
         if truthy (mv_filmName movie)
         then set_add (mv_filmName movie) filmNames else filmNames in
       match mv_films movie with
       | Some films =>
           fold_left
             (fun filmNames film =>
                if truthy (fm_filmName film)
                then set_add (fm_filmName film) filmNames else filmNames)
             films filmNames
       | None => filmNames
       end)
    movies [].

(** ** Keyword matcher *)

(** A keyword set of the configuration: [None] when the entry is not an
    array. *)
Definition keywordSet : Type := option (list jsval).

(** [keywordSet.every(keyword => nameLower.includes(String(keyword).toLowerCase()))] *)
Definition allKeywordsFound (keywords : list jsval) (name : jsval) : bool :=
  let nameLower := toLowerCase (toStr name) in
  forallb (fun keyword => includes nameLower (toLowerCase (toStr keyword)))
          keywords.

Definition checkKeywordSet (keywordSet : keywordSet) (filmNames : list jsval)
  : list jsval :=
  match keywordSet with
  | None => []
  | Some [] => []
  | Some keywords =>
      fold_left
        (fun matchingFilms filmName =>
           if allKeywordsFound keywords filmName
           then matchingFilms ++ [filmName] else matchingFilms)
        filmNames []
  end.

Record filmMatch : Type := {
  fmKeywordSet : keywordSet;
  matchingFilms : list jsval;
  fmSetIndex : nat
}.

(** The [forEach] of [checkKeywordSets], from index [index] on. *)
Fixpoint checkKeywordSets_from (index : nat) (keywordSets : list keywordSet)
         (filmNames : list jsval) (matches : list filmMatch) : list filmMatch :=
  match keywordSets with
  | [] => matches
  | keywordSet :: rest =>
      let found := checkKeywordSet keywordSet filmNames in
      checkKeywordSets_from (S index) rest filmNames
        (if (0 <? List.length found)%nat
         then matches ++ [{| fmKeywordSet := keywordSet;
                             matchingFilms := found;
                             fmSetIndex := index |}]
         else matches)
  end.

Definition checkKeywordSets (keywordSets : option (list keywordSet))
           (filmNames : list jsval) : list filmMatch :=
  match keywordSets with
  | None => []
  | Some [] => []
  | Some sets => checkKeywordSets_from 0 sets filmNames []
  end.

(** ** Film info resolver *)

(** A [Map] keyed by scalars: the entries in insertion order, keys unique. *)
Definition jsmap : Type := list (jsval * jsval).

Fixpoint map_has (m : jsmap) (k : jsval) : bool :=
  match m with
  | [] => false
  | (k', _) :: rest => jsval_eqb k k' || map_has rest k
  end.

(** [Map.prototype.get]: [undefined] for a key that is not there. *)
Fixpoint map_get (m : jsmap) (k : jsval) : jsval :=
  match m with
  | [] => JNull
  | (k', v) :: rest => if jsval_eqb k k' then v else map_get rest k
  end.

(** [Map.prototype.set]: an existing key keeps its place. *)
Fixpoint map_set (m : jsmap) (k v : jsval) : jsmap :=
  match m with
  | [] => [(k, v)]
  | (k', v') :: rest =>
      if jsval_eqb k k' then (k', v) :: rest else (k', v') :: map_set rest k v
  end.

Definition formatDateFromParts (year month day : jsval) : string :=
  let monthStr := padStart2 (toStr month) in
  let dayStr := padStart2 (toStr day) in
  toStr year ++ "-" ++ monthStr ++ "-" ++ dayStr.

(** [movie.year && movie.month && movie.day
       ? formatDateFromParts(movie.year, movie.month, movie.day) : null] *)
Definition dateFromParts (movie : movie) : jsval :=
  if truthy (mv_year movie) && truthy (mv_month movie) && truthy (mv_day movie)
  then JStr (formatDateFromParts (mv_year movie) (mv_month movie) (mv_day movie))
  else JNull.

(** The guarded write that both loops of [extractFilmInfo] perform:
    [if (!filmInfoMap.has(code) || !filmInfoMap.get(code))
       filmInfoMap.set(code, filmReleaseDate)]. *)
Definition recordFilm (filmInfoMap : jsmap) (code filmReleaseDate : jsval)
  : jsmap :=
  if negb (map_has filmInfoMap code) || negb (truthy (map_get filmInfoMap code))
  then map_set filmInfoMap code filmReleaseDate
  else filmInfoMap.

Record filmInfo : Type := {
  code : jsval;
  releaseDate : jsval
}.

(** The body of [movies.forEach] in [extractFilmInfo]. *)
Definition extractFilmInfo_movie (matchingFilms : list jsval)
           (filmInfoMap : jsmap) (movie : movie) : jsmap :=
  let filmInfoMap :=
    if existsb (fun mf => truthy (mv_filmName movie)
                          && jsval_eqb (mv_filmName movie) mf) matchingFilms
    then
      let releaseDate := jsor (mv_releaseDate movie) (dateFromParts movie) in
      match mv_films movie with
      | Some films =>
          fold_left
            (fun filmInfoMap film =>
               if truthy (fm_filmCommonCode film)
               then recordFilm filmInfoMap (fm_filmCommonCode film)
                               (jsor (fm_releaseDate film) releaseDate)
               else filmInfoMap)
            films filmInfoMap
      | None => filmInfoMap
      end
    else filmInfoMap in
  match mv_films movie with
  | Some films =>
      fold_left
        (fun filmInfoMap film =>
           if truthy (fm_filmName film)
              && existsb (jsval_eqb (fm_filmName film)) matchingFilms
              && truthy (fm_filmCommonCode film)
           then recordFilm filmInfoMap (fm_filmCommonCode film)
                  (jsor (jsor (fm_releaseDate film) (mv_releaseDate movie))
                        (dateFromParts movie))
           else filmInfoMap)
        films filmInfoMap
  | None => filmInfoMap
  end.

Definition extractFilmInfo_map (movies : list movie)
           (matchingFilms : list jsval) : jsmap :=
  fold_left (extractFilmInfo_movie matchingFilms) movies [].

Definition extractFilmInfo (movies : list movie) (matchingFilms : list jsval)
  : list filmInfo :=
  map (fun entry => {| code := fst entry; releaseDate := snd entry |})
      (extractFilmInfo_map movies matchingFilms).

(** ** Release-date normaliser *)

(** What the code reads off a valid [Date]: [getFullYear()], [getMonth()]
    (0 to 11) and [getDate()]. *)
Record jsdate : Type := {
  getFullYear : Z;
  getMonth : Z;
  getDate : Z
}.

(** The result of a block of statements: a value, or an exception. *)
Inductive completion (A : Type) : Type :=
| Normal (a : A)
| Throw.
Arguments Normal {A} a.
Arguments Throw {A}.

Definition is_digit (c : ascii) : bool :=
  let n := nat_of_ascii c in (48 <=? n)%nat && (n <=? 57)%nat.

(** [\w] *)
Definition is_word (c : ascii) : bool :=
  let n := nat_of_ascii c in
  is_digit c || is_upper c || ((97 <=? n)%nat && (n <=? 122)%nat)
  || (n =? 95)%nat.

(** [\s], on ASCII. *)
Definition is_space (c : ascii) : bool :=
  let n := nat_of_ascii c in
  ((9 <=? n)%nat && (n <=? 13)%nat) || (n =? 32)%nat.

Definition is_dash (c : ascii) : bool := (nat_of_ascii c =? 45)%nat.

(** [/^\d{4}-\d{2}-\d{2}$/.test(s)] *)
Definition isCanonical (s : string) : bool :=
  match s with
  | String y1 (String y2 (String y3 (String y4 (String h1
      (String m1 (String m2 (String h2 (String d1 (String d2 EmptyString))))))))) =>
      is_digit y1 && is_digit y2 && is_digit y3 && is_digit y4 && is_dash h1
      && is_digit m1 && is_digit m2 && is_dash h2 && is_digit d1 && is_digit d2
  | _ => false
  end.

(** [`${year}-${month}-${day}`] with the month and the day padded, as the
    code formats a [Date]. *)
Definition formatDate (date : jsdate) : string :=
  let year := getFullYear date in
  let month := padStart2 (toStr (JNum (getMonth date + 1))) in
  let day := padStart2 (toStr (JNum (getDate date))) in
  toStr (JNum year) ++ "-" ++ month ++ "-" ++ day.

(** The longest prefix of [s] whose characters satisfy [p], and the rest. *)
Fixpoint span (p : ascii -> bool) (s : string) : string * string :=
  match s with
  | EmptyString => (EmptyString, EmptyString)
  | String c t =>
      if p c then let (a, b) := span p t in (String c a, b)
      else (EmptyString, s)
  end.

(** A match of [(\w+)\s+(\d+),\s+(\d+)] that starts at the head of [s]: the
    three groups.  Neighbouring classes are disjoint, so the greedy runs are
    the only way to match. *)
Definition match_here (s : string) : option (string * string * string) :=
  let (monthName, r1) := span is_word s in
  let (sp1, r2) := span is_space r1 in
  let (day, r3) := span is_digit r2 in
  match r3 with
  | String c r4 =>
      let (sp2, r5) := span is_space r4 in
      let (year, _) := span is_digit r5 in
      if negb (String.eqb monthName "") && negb (String.eqb sp1 "")
         && negb (String.eqb day "") && (nat_of_ascii c =? 44)%nat
         && negb (String.eqb sp2 "") && negb (String.eqb year "")
      then Some (monthName, day, year) else None
  | EmptyString => None
  end.

(** [s.match(/(\w+)\s+(\d+),\s+(\d+)/)]: the leftmost match. *)
Fixpoint regex_match (s : string) : option (string * string * string) :=
  match match_here s with
  | Some groups => Some groups
  | None =>
      match s with
      | EmptyString => None
      | String _ t => regex_match t
      end
  end.

Definition months : list (string * string) :=
  [("Jan", "01"); ("Feb", "02"); ("Mar", "03"); ("Apr", "04");
   ("May", "05"); ("Jun", "06"); ("Jul", "07"); ("Aug", "08");
   ("Sep", "09"); ("Oct", "10"); ("Nov", "11"); ("Dec", "12")].

Fixpoint months_lookup (table : list (string * string)) (key : string)
  : option string :=
  match table with
  | [] => None
  | (k, v) :: rest => if String.eqb key k then Some v else months_lookup rest key
  end.

(** The [catch] block of [convertReleaseDateToAPIFormat]; falling out of it
    leads to the final [return null].  [releaseDateStr.match] is a method of
    strings only. *)
Definition manualParse (releaseDateStr : jsval) : completion jsval :=
  match releaseDateStr with
  | JStr s =>
      match regex_match s with
      | Some (monthName, day, year) =>
          match months_lookup months (String.substring 0 3 monthName) with
          | Some month =>
              Normal (JStr (year ++ "-" ++ month ++ "-" ++ padStart2 day))
          | None => Normal JNull
          end
      | None => Normal JNull
      end
  | _ => Throw
  end.

(** ** Theatre listings *)

Record cinema : Type := {
  cn_name : jsval;
  cn_theatreId : jsval;
  cn_cityName : jsval;
  cn_address1 : jsval
}.

Record session : Type := {
  ss_cinema : option cinema;
  ss_showCount : jsval
}.

(** The body of a listings response: [output.movieCinemaSessions] when it is
    an array. *)
Record listingsData : Type := {
  movieCinemaSessions : option (list session)
}.

Record theater : Type := {
  name : jsval;
  theatreId : jsval;
  showCount : jsval;
  cityName : jsval;
  address1 : jsval
}.

Definition getTheaterNames (listingsData : listingsData) : list theater :=
  match movieCinemaSessions listingsData with
  | Some sessions =>
      fold_left
        (fun theaterNames session =>
           match ss_cinema session with
           | Some cinema =>
               if truthy (cn_name cinema)
               then theaterNames ++
                    [{| name := cn_name cinema;
                        theatreId := cn_theatreId cinema;
                        showCount := jsor (ss_showCount session) (JNum 0);
                        cityName := cn_cityName cinema;
                        address1 := cn_address1 cinema |}]
               else theaterNames
           | None => theaterNames
           end)
        sessions []
  | None => []
  end.

(** [Map.prototype.set(t.name, t)] on the theatres in insertion order. *)
Fixpoint theaters_set (m : list theater) (t : theater) : list theater :=
  match m with
  | [] => [t]
  | t' :: rest =>
      if jsval_eqb (name t) (name t') then t :: rest
      else t' :: theaters_set rest t
  end.

(** [Array.from(new Map(allTheaterNames.map(t => [t.name, t])).values())] *)
Definition uniqueTheatersOf (allTheaterNames : list theater) : list theater :=
  fold_left theaters_set allTheaterNames [].

(** ** Configuration, collaborators and events *)

(** The value of a body setting ([API_BODY], [THEATER_LISTINGS_API_BODY]) as
    [JSON.parse] leaves it, as far as the program looks into it: [null] (also
    when the setting is absent), a boolean, a number, a string [s] together
    with what [JSON.parse(s).city] gives ([Throw] when [s] is not JSON or
    parses to [null]), or an object or array with its [city] property. *)
Inductive bodySetting : Type :=
| BodyNull
| BodyBool (b : bool)
| BodyNum (z : Z)
| BodyString (s : string) (parsedCity : completion jsval)
| BodyObject (city : jsval).

(** ToBoolean of a body setting. *)
Definition bodyTruthy (body : bodySetting) : bool :=
  match body with
  | BodyNull => false
  | BodyBool b => b
  | BodyNum z => negb (Z.eqb z 0)
  | BodyString s _ => negb (String.eqb s "")
  | BodyObject _ => true
  end.

(** [body?.city] *)
Definition bodyCity (body : bodySetting) : jsval :=
  match body with
  | BodyObject city => city
  | _ => JNull
  end.

Module config.
Record t : Type := {
  apiUrl : string;
  apiBody : bodySetting;
  theaterListingsApiBody : bodySetting;
  targetMovie : jsval;
  movieKeywords : option (list keywordSet);
  cinemaKeywords : option (list keywordSet);
  checkCondition : jsval;
  twilioAccountSid : jsval;
  twilioAuthToken : jsval;
  twilioPhoneNumber : jsval;
  phoneNumberToCall : jsval;
  enablePhoneCall : bool
}.
End config.

(** What [pingAPI] and [fetchTheaterListings] return. *)
Inductive pingResult : Type :=
| PingSuccess (status : Z) (data : responseData)
| PingFailure (status : jsval) (error : string).

Inductive listingsResult : Type :=
| ListingsSuccess (data : listingsData)
| ListingsFailure.

(** Whether [twilio(...)] and [client.calls.create(...)] go through or one of
    them throws. *)
Inductive twilioOutcome : Type :=
| CallCreated
| CallThrows.

(** The answers of the outside world during one run of [monitor]. *)
Record world : Type := {
  ping : pingResult;
  today : jsdate;
  listings : jsval -> jsval -> listingsResult;
  twilio : twilioOutcome
}.

Record setMatch : Type := {
  smKeywordSet : list jsval;
  smSetIndex : nat
}.

Record cinemaMatchResult : Type := {
  matched : bool;
  matchingTheaters : list theater;
  matchedSets : list setMatch
}.

(** The data a Telegram message is built from. *)
Inductive message : Type :=
| ApiError (url : string) (status : jsval) (error : string)
| CinemaUpdate (keywordMatches : list filmMatch) (targetMovieFound : bool)
               (allMatchingFilms : list jsval)
               (cinemaMatchResult : option cinemaMatchResult).

(** The calls that leave the program, and the calls of [makePhoneCall] with
    the key they are given. *)
Inductive event : Type :=
| EvPing
| EvTelegram (m : message)
| EvListings (mid dated : jsval)
| EvMakePhoneCall (matchKey : jsval)
| EvTwilio (o : twilioOutcome).

Section Engine.

(** [new Date(v)] for a scalar [v], as the JavaScript engine parses it:
    [None] is the Invalid Date.  The constructor returns the Invalid Date for
    what it cannot read; it does not throw. *)
Variable newDate : jsval -> option jsdate.

(** The truth value of a user-supplied condition on a response, as
    [new Function] evaluates it; [None] when compiling or running it throws. *)
Variable evalCondition : string -> responseData -> option bool.

Variable cfg : config.t.

(** The [try] block of [convertReleaseDateToAPIFormat]: [Normal (Some r)] when
    it returns [r], [Normal None] when it runs to its end. *)
Definition tryDateParse (releaseDateStr : jsval) : completion (option string) :=
  match newDate releaseDateStr with
  | Some date => Normal (Some (formatDate date))
  | None => Normal None
  end.

Definition convertReleaseDateToAPIFormat (releaseDateStr : jsval)
  : completion jsval :=
  if negb (truthy releaseDateStr) then Normal JNull
  else if isCanonical (toStr releaseDateStr) then Normal releaseDateStr
  else
    match tryDateParse releaseDateStr with
    | Normal (Some formatted) => Normal (JStr formatted)
    | Normal None => Normal JNull
    | Throw => manualParse releaseDateStr
    end.

(** [todayFormatted > v]: the order of the character codes between strings;
    against anything else the comparison is numeric, and a formatted date is
    not a numeral. *)
Definition string_gt (todayFormatted : string) (v : jsval) : bool :=
  match v with
  | JStr s => String.ltb s todayFormatted
  | _ => false
  end.

(** Lines 337-366 of [fetchTheaterListings]: the value of [dated]. *)
Definition datedOf (today : jsdate) (releaseDate : jsval) : completion jsval :=
  match (if truthy releaseDate
         then convertReleaseDateToAPIFormat releaseDate
         else Normal JNull) with
  | Throw => Throw
  | Normal releaseDateFormatted =>
      let todayFormatted := formatDate today in
      Normal (if truthy releaseDateFormatted
              then if string_gt todayFormatted releaseDateFormatted
                   then JStr todayFormatted
                   else releaseDateFormatted
              else JStr todayFormatted)
  end.

(** Lines 368-390 of [fetchTheaterListings]: the [city] of the default body,
    which is built when no body template is configured; [None] when the
    template is used.  [JSON.parse] of a string [API_BODY] may throw. *)
Definition listingsCity : completion (option jsval) :=
  if bodyTruthy (config.theaterListingsApiBody cfg) then Normal None
  else if truthy (bodyCity (config.apiBody cfg))
  then Normal (Some (bodyCity (config.apiBody cfg)))
  else
    match config.apiBody cfg with
    | BodyString _ parsedCity =>
        match parsedCity with
        | Normal city => Normal (Some city)
        | Throw => Throw
        end
    | _ => Normal (Some (JStr "Bengaluru"))
    end.

(** The request carries [mid] and [dated] in a body that otherwise does not
    depend on the film.  An exception before the request (here: while the
    body is built) is caught and gives a failure result with no request
    sent. *)
Definition fetchTheaterListings (w : world) (filmCommonCode releaseDate : jsval)
  : list event * listingsResult :=
  match datedOf (today w) releaseDate with
  | Normal dated =>
      match listingsCity with
      | Normal _ => ([EvListings filmCommonCode dated],
                     listings w filmCommonCode dated)
      | Throw => ([], ListingsFailure)
      end
  | Throw => ([], ListingsFailure)
  end.

Definition keywordsSet (keywordSets : option (list keywordSet)) : bool :=
  match keywordSets with
  | Some (_ :: _) => true
  | _ => false
  end.

(** The inner [forEach] of [checkCinemaKeywords] for one theatre, from index
    [index] on; [keywordSet.every] is a method of arrays only. *)
Fixpoint checkCinemaKeywords_sets (th : theater) (index : nat)
         (keywordSets : list keywordSet)
         (acc : list setMatch * list theater)
  : completion (list setMatch * list theater) :=
  match keywordSets with
  | [] => Normal acc
  | None :: _ => Throw
  | Some keywords :: rest =>
      let (matches, matchingTheaters) := acc in
      checkCinemaKeywords_sets th (S index) rest
        (if allKeywordsFound keywords (name th)
         then
           ((if existsb (fun m => (smSetIndex m =? index)%nat) matches
             then matches
             else matches ++ [{| smKeywordSet := keywords;
                                 smSetIndex := index |}]),
            (if existsb (fun t => jsval_eqb (name t) (name th))
                        matchingTheaters
             then matchingTheaters
             else matchingTheaters ++ [th]))
         else acc)
  end.

Fixpoint checkCinemaKeywords_theaters (keywordSets : list keywordSet)
         (theaterNames : list theater) (acc : list setMatch * list theater)
  : completion (list setMatch * list theater) :=
  match theaterNames with
  | [] => Normal acc
  | th :: rest =>
      match checkCinemaKeywords_sets th 0 keywordSets acc with
      | Normal acc' => checkCinemaKeywords_theaters keywordSets rest acc'
      | Throw => Throw
      end
  end.

Definition checkCinemaKeywords (theaterNames : list theater)
  : completion cinemaMatchResult :=
  match config.cinemaKeywords cfg with
  | Some (set :: sets) =>
      match checkCinemaKeywords_theaters (set :: sets) theaterNames ([], []) with
      | Normal (matches, matchingTheaters) =>
          Normal {| matched := (0 <? List.length matches)%nat;
                    matchingTheaters := matchingTheaters;
                    matchedSets := matches |}
      | Throw => Throw
      end
  | _ => Normal {| matched := true;
                   matchingTheaters := theaterNames;
                   matchedSets := [] |}
  end.

(** The helper [hasFilm] of the evaluation context. *)
Definition hasFilm (filmNames : list jsval) (search : jsval) : bool :=
  existsb (fun name =>
             includes (toLowerCase (toStr name)) (toLowerCase (toStr search)))
          filmNames.

(** A condition of the configuration goes to the engine; the two built-in
    conditions, ['hasFilm(targetMovie)'] and ['movies.length > 0'], are given
    their meaning.  Any exception makes the condition false: here, that of
    the user-supplied condition (on the payloads of the model
    [getAllFilmNames] does not throw). *)
Definition checkCondition (responseData : responseData) : bool :=
  let movies := getMovies responseData in
  let filmNames := getAllFilmNames movies in
  if truthy (config.checkCondition cfg)
  then
    match evalCondition (toStr (config.checkCondition cfg)) responseData with
    | Some b => b
    | None => false
    end
  else if keywordsSet (config.movieKeywords cfg)
  then (0 <? List.length (checkKeywordSets (config.movieKeywords cfg) filmNames))%nat
  else if truthy (config.targetMovie cfg)
  then hasFilm filmNames (config.targetMovie cfg)
  else (0 <? List.length movies)%nat.

Definition getMatchingKeywordSets (responseData : responseData)
  : list filmMatch :=
  let movies := getMovies responseData in
  let filmNames := getAllFilmNames movies in
  if keywordsSet (config.movieKeywords cfg)
  then checkKeywordSets (config.movieKeywords cfg) filmNames
  else [].

(** ** Phone-call deduplication *)

(** [phoneCallMade.has(matchKey)] *)
Definition set_has (s : list jsval) (v : jsval) : bool :=
  existsb (jsval_eqb v) s.

Definition twilioConfigured : bool :=
  truthy (config.twilioAccountSid cfg) && truthy (config.twilioAuthToken cfg)
  && truthy (config.twilioPhoneNumber cfg)
  && truthy (config.phoneNumberToCall cfg).

(** [makePhoneCall(matchKey)] on the set [phoneCallMade], run from its start
    to its end with no other call in between: the value it returns, the
    events, and the set afterwards. *)
Definition makePhoneCall (o : twilioOutcome) (matchKey : jsval)
           (phoneCallMade : list jsval) : bool * list event * list jsval :=
  if negb (config.enablePhoneCall cfg) then (false, [], phoneCallMade)
  else if negb twilioConfigured then (false, [], phoneCallMade)
  else if truthy matchKey && set_has phoneCallMade matchKey
  then (false, [], phoneCallMade)
  else
    match o with
    | CallCreated =>
        (true, [EvTwilio CallCreated],
         if truthy matchKey then set_add matchKey phoneCallMade
         else phoneCallMade)
    | CallThrows => (false, [EvTwilio CallThrows], phoneCallMade)
    end.

(** [makePhoneCall] is asynchronous.  A call runs without interruption from
    its start to [await client.calls.create(...)] (lines 526-548), or to an
    earlier [return]; when Twilio has answered it runs from there to its end
    (lines 549-564), on the set [phoneCallMade] as it is by then.  Other calls
    may run in between.  [makePhoneCall] above is a call with nothing in
    between. *)
Inductive callEntry : Type :=
| Returned (callMade : bool)
| AwaitsTwilio.

Definition makePhoneCall_enter (matchKey : jsval) (phoneCallMade : list jsval)
  : callEntry :=
  if negb (config.enablePhoneCall cfg) then Returned false
  else if negb twilioConfigured then Returned false
  else if truthy matchKey && set_has phoneCallMade matchKey
  then Returned false
  else AwaitsTwilio.

Definition makePhoneCall_resume (o : twilioOutcome) (matchKey : jsval)
           (phoneCallMade : list jsval) : bool * list jsval :=
  match o with
  | CallCreated =>
      (true,
       if truthy matchKey then set_add matchKey phoneCallMade
       else phoneCallMade)
  | CallThrows => (false, phoneCallMade)
  end.

(** ** The monitor cycle *)

(** The [for] loop of [monitor] over the film codes. *)
Definition fetchAllListings (w : world) (filmInfo : list filmInfo)
  : list event * list theater :=
  fold_left
    (fun (acc : list event * list theater) filmInfoItem =>
       let (events, allTheaterNames) := acc in
       let (sent, listingsResult) :=
         fetchTheaterListings w (code filmInfoItem) (releaseDate filmInfoItem) in
       (events ++ sent,
        match listingsResult with
        | ListingsSuccess data => allTheaterNames ++ getTheaterNames data
        | ListingsFailure => allTheaterNames
        end))
    filmInfo ([], []).

(** The variables that lines 598-666 of [monitor] leave behind. *)
Record decision : Type := {
  shouldNotify : bool;
  cinemaMatch : option cinemaMatchResult;
  allMatchingFilms : list jsval;
  filmCommonCodes : list jsval
}.

(** Lines 598-666 of [monitor]. *)
Definition correlate (w : world) (movies : list movie) (filmNames : list jsval)
           (keywordMatches : list filmMatch) (targetMovieFound : bool)
  : list event * completion decision :=
  if (0 <? List.length keywordMatches)%nat then
    let allMatchingFilms := flat_map matchingFilms keywordMatches in
    let filmInfo := extractFilmInfo movies allMatchingFilms in
    let filmCommonCodes := map code filmInfo in
    let (events, allTheaterNames) := fetchAllListings w filmInfo in
    let uniqueTheaters := uniqueTheatersOf allTheaterNames in
    match checkCinemaKeywords uniqueTheaters with
    | Throw => (events, Throw)
    | Normal cinemaMatchResult =>
        (events,
         Normal
           (if keywordsSet (config.cinemaKeywords cfg)
            then {| shouldNotify := matched cinemaMatchResult;
                    cinemaMatch := Some cinemaMatchResult;
                    allMatchingFilms := allMatchingFilms;
                    filmCommonCodes := filmCommonCodes |}
            else {| shouldNotify := true;
                    cinemaMatch := Some {| matched := true;
                                           matchingTheaters := uniqueTheaters;
                                           matchedSets := [] |};
                    allMatchingFilms := allMatchingFilms;
                    filmCommonCodes := filmCommonCodes |}))
    end
  else if targetMovieFound then
    ([], Normal {| shouldNotify := true;
                   cinemaMatch := None;
                   allMatchingFilms :=
                     filter (fun name =>
                               includes (toLowerCase (toStr name))
                                 (toLowerCase (toStr (config.targetMovie cfg))))
                            filmNames;
                   filmCommonCodes := [] |})
  else
    ([], Normal {| shouldNotify := true;
                   cinemaMatch := None;
                   allMatchingFilms := [];
                   filmCommonCodes := [] |}).

(** Lines 721-732 of [monitor]: the key given to [makePhoneCall]. *)
Definition matchKeyOf (keywordMatches : list filmMatch)
           (filmCommonCodes : list jsval)
           (cinemaMatchResult : option cinemaMatchResult)
           (targetMovieFound : bool) : jsval :=
  if (0 <? List.length keywordMatches)%nat
     && (0 <? List.length filmCommonCodes)%nat
  then
    let theaterNames :=
      match cinemaMatchResult with
      | Some result =>
          if (0 <? List.length (matchingTheaters result))%nat
          then join "," (sort (map name (matchingTheaters result)))
          else "all"
      | None => "all"
      end in
    JStr (join "," (sort filmCommonCodes) ++ "|" ++ theaterNames)
  else if targetMovieFound
  then JStr ("legacy|" ++ toStr (config.targetMovie cfg))
  else JNull.

(** How a run of [monitor] ends: the events in order, the set
    [phoneCallMade] afterwards, and whether the exception of
    [checkCinemaKeywords], which is called outside any [try], escaped. *)
Record run : Type := {
  trace : list event;
  phoneCallMade' : list jsval;
  crashed : bool
}.

Definition monitor (w : world) (phoneCallMade : list jsval) : run :=
  match ping w with
  | PingFailure status error =>
      {| trace := [EvPing;
                   EvTelegram (ApiError (config.apiUrl cfg) status error)];
         phoneCallMade' := phoneCallMade;
         crashed := false |}
  | PingSuccess status data =>
      if checkCondition data then
        let movies := getMovies data in
        let filmNames := getAllFilmNames movies in
        let keywordMatches := getMatchingKeywordSets data in
        let targetMovieFound :=
          truthy (config.targetMovie cfg)
          && hasFilm filmNames (config.targetMovie cfg) in
        match correlate w movies filmNames keywordMatches targetMovieFound with
        | (events, Throw) =>
            {| trace := EvPing :: events;
               phoneCallMade' := phoneCallMade;
               crashed := true |}
        | (events, Normal d) =>
            if shouldNotify d then
              let matchKey :=
                matchKeyOf keywordMatches (filmCommonCodes d) (cinemaMatch d)
                           targetMovieFound in
              let '(callMade, called, phoneCallMade) :=
                makePhoneCall (twilio w) matchKey phoneCallMade in
              {| trace :=
                   EvPing :: events
                   ++ [EvTelegram (CinemaUpdate keywordMatches targetMovieFound
                                     (allMatchingFilms d) (cinemaMatch d));
                       EvMakePhoneCall matchKey]
                   ++ called;
                 phoneCallMade' := phoneCallMade;
                 crashed := false |}
            else
              {| trace := EvPing :: events;
                 phoneCallMade' := phoneCallMade;
                 crashed := false |}
        end
      else
        {| trace := [EvPing];
           phoneCallMade' := phoneCallMade;
           crashed := false |}
  end.

(** Successive runs of [monitor] on the shared set, each finished before the
    next starts.  (The timer of lines 819-820 does not wait for a run to
    finish: runs that overlap are not described here.) *)
Fixpoint monitorAll (ws : list world) (phoneCallMade : list jsval)
  : list run :=
  match ws with
  | [] => []
  | w :: rest =>
      let r := monitor w phoneCallMade in
      r :: monitorAll rest (phoneCallMade' r)
  end.

End Engine.

(** The guarded write, on a pair. *)
Definition recordPair (m : jsmap) (p : jsval * jsval) : jsmap :=
  recordFilm m (fst p) (snd p).

(** A date is clean when it is [null] or truthy; every date that
    [extractFilmInfo] records is. *)
Definition clean (d : jsval) : Prop := d = JNull \/ truthy d = true.

(** ** Calendar dates *)

Definition digit_val (c : ascii) : Z := (Z.of_nat (nat_of_ascii c) - 48)%Z.

(** The number that two, or four, decimal digits write. *)
Definition num2 (a b : ascii) : Z := (10 * digit_val a + digit_val b)%Z.

Definition num4 (a b c d : ascii) : Z :=
  (1000 * digit_val a + 100 * digit_val b + 10 * digit_val c + digit_val d)%Z.

(** The calendar date (year, month, day) that a string of the form
    YYYY-MM-DD denotes. *)
Definition calendarDate (s : string) : option (Z * Z * Z) :=
  match s with
  | String y1 (String y2 (String y3 (String y4 (String h1
      (String m1 (String m2 (String h2 (String d1 (String d2 EmptyString))))))))) =>
      if isCanonical s
      then Some (num4 y1 y2 y3 y4, num2 m1 m2, num2 d1 d2)
      else None
  | _ => None
  end.

(** [a] is a day before [b]. *)
Definition date_ltb (a b : Z * Z * Z) : bool :=
  let '(y1, m1, d1) := a in
  let '(y2, m2, d2) := b in
  ((y1 <? y2) || ((y1 =? y2) && ((m1 <? m2) || ((m1 =? m2) && (d1 <? d2)))))%Z.

(** The calendar date of the clock. *)
Definition dateOfClock (today : jsdate) : Z * Z * Z :=
  (getFullYear today, (getMonth today + 1)%Z, getDate today).

(** Whether the decimal rendering of [y] has four digits that write [y], and
    whether the padded rendering of [k] has two digits that write [k]. *)
Definition four_digits (y : Z) : bool :=
  match toStr (JNum y) with
  | String a (String b (String c (String d EmptyString))) =>
      is_digit a && is_digit b && is_digit c && is_digit d
      && (num4 a b c d =? y)%Z
  | _ => false
  end.

Definition two_digits (k : Z) : bool :=
  match padStart2 (toStr (JNum k)) with
  | String a (String b EmptyString) =>
      is_digit a && is_digit b && (num2 a b =? k)%Z
  | _ => false
  end.

(** Whether the decimal rendering of [y] begins with a digit from [lo] to
    [hi]. *)
Definition leadsWith (lo hi : Z) (y : Z) : bool :=
  match toStr (JNum y) with
  | String c _ => ((lo <=? digit_val c) && (digit_val c <=? hi))%Z
  | EmptyString => false
  end.

(** [f] holds of the [n] integers from [lo] on. *)
Fixpoint all_from (f : Z -> bool) (n : nat) (lo : Z) : bool :=
  match n with
  | O => true
  | S n => f lo && all_from f n (lo + 1)
  end.

(** A date parser for the examples: it reads the strings listed and rejects
    every other value. *)
Definition sampleNewDate (v : jsval) : option jsdate :=
  match v with
  | JStr "Nov 14, 2025" =>
      Some {| getFullYear := 2025; getMonth := 10; getDate := 14 |}
  | JStr "Dec 25, 2027" =>
      Some {| getFullYear := 2027; getMonth := 11; getDate := 25 |}
  | JStr "+012025-01-01" =>
      Some {| getFullYear := 12025; getMonth := 0; getDate := 1 |}
  | JStr "0999-06-01T00:00:00" =>
      Some {| getFullYear := 999; getMonth := 5; getDate := 1 |}
  | _ => None
  end.

Definition sampleToday : jsdate :=
  {| getFullYear := 2026; getMonth := 10; getDate := 1 |}.

(** ** The occurrences of film codes *)

(** The writes that [extractFilmInfo] attempts for one movie, in order: first
    the films of a movie whose own name matched, then the films whose name
    matched; each with the code and the date it would record. *)
Definition occurrences_movie (matchingFilms : list jsval) (movie : movie)
  : list (jsval * jsval) :=
  let films := match mv_films movie with Some films => films | None => [] end in
  (if existsb (fun mf => truthy (mv_filmName movie)
                         && jsval_eqb (mv_filmName movie) mf) matchingFilms
   then
     flat_map
       (fun film =>
          if truthy (fm_filmCommonCode film)
          then [(fm_filmCommonCode film,
                 jsor (fm_releaseDate film)
                      (jsor (mv_releaseDate movie) (dateFromParts movie)))]
          else [])
       films
   else [])
  ++ flat_map
       (fun film =>
          if truthy (fm_filmName film)
             && existsb (jsval_eqb (fm_filmName film)) matchingFilms
             && truthy (fm_filmCommonCode film)
          then [(fm_filmCommonCode film,
                 jsor (jsor (fm_releaseDate film) (mv_releaseDate movie))
                      (dateFromParts movie))]
          else [])
       films.

Definition occurrences (movies : list movie) (matchingFilms : list jsval)
  : list (jsval * jsval) :=
  flat_map (occurrences_movie matchingFilms) movies.

(** The first date that is not [null] among the occurrences of [code];
    [null] when there is none. *)
Fixpoint firstNonNull (code : jsval) (occ : list (jsval * jsval)) : jsval :=
  match occ with
  | [] => JNull
  | (c, d) :: rest =>
      if jsval_eqb code c
      then match d with
           | JNull => firstNonNull code rest
           | _ => d
           end
      else firstNonNull code rest
  end.

(** ** Sequences of calls and sample inputs *)

(** Calls of [makePhoneCall] on the shared set, made one after the other,
    each finished before the next starts: the values returned, in order. *)
Fixpoint callAll (cfg : config.t) (calls : list (twilioOutcome * jsval))
         (phoneCallMade : list jsval) : list bool :=
  match calls with
  | [] => []
  | (o, matchKey) :: rest =>
      let '(callMade, _, phoneCallMade) :=
        makePhoneCall cfg o matchKey phoneCallMade in
      callMade :: callAll cfg rest phoneCallMade
  end.

(** How many of the calls with the key [k] returned [true]. *)
Fixpoint firedCount (cfg : config.t) (k : jsval)
         (calls : list (twilioOutcome * jsval)) (phoneCallMade : list jsval)
  : nat :=
  match calls with
  | [] => 0
  | (o, matchKey) :: rest =>
      let '(callMade, _, phoneCallMade) :=
        makePhoneCall cfg o matchKey phoneCallMade in
      (if callMade && jsval_eqb matchKey k then 1 else 0)
      + firedCount cfg k rest phoneCallMade
  end.

(** *** Calls that overlap *)

(** The calls of [makePhoneCall] in progress: the shared set, the keys of the
    calls that wait for Twilio (oldest first), and the calls that have
    returned, each with its key and the value it returned. *)
Record callsState : Type := {
  held : list jsval;
  waiting : list jsval;
  returned : list (jsval * bool)
}.

(** What the event loop runs next: a new call, from its start to its [await]
    or its [return]; or the rest of the [n]-th waiting call, once Twilio has
    answered it. *)
Inductive tick : Type :=
| Enter (matchKey : jsval)
| Resume (n : nat) (o : twilioOutcome).

Fixpoint remove_nth (n : nat) (l : list jsval) : list jsval :=
  match l, n with
  | [], _ => []
  | _ :: rest, O => rest
  | x :: rest, S n => x :: remove_nth n rest
  end.

Definition step (cfg : config.t) (st : callsState) (t : tick) : callsState :=
  match t with
  | Enter matchKey =>
      match makePhoneCall_enter cfg matchKey (held st) with
      | Returned callMade =>
          {| held := held st;
             waiting := waiting st;
             returned := returned st ++ [(matchKey, callMade)] |}
      | AwaitsTwilio =>
          {| held := held st;
             waiting := waiting st ++ [matchKey];
             returned := returned st |}
      end
  | Resume n o =>
      match nth_error (waiting st) n with
      | Some matchKey =>
          let (callMade, phoneCallMade) :=
            makePhoneCall_resume o matchKey (held st) in
          {| held := phoneCallMade;
             waiting := remove_nth n (waiting st);
             returned := returned st ++ [(matchKey, callMade)] |}
      | None => st
      end
  end.

Definition runTicks (cfg : config.t) (ticks : list tick) (st : callsState)
  : callsState :=
  fold_left (step cfg) ticks st.

(** No call in progress. *)
Definition idle (phoneCallMade : list jsval) : callsState :=
  {| held := phoneCallMade; waiting := []; returned := [] |}.

(** Calls made one after the other: each has returned before the next
    starts. *)
Definition sequential (calls : list (twilioOutcome * jsval)) : list tick :=
  flat_map (fun c => [Enter (snd c); Resume 0 (fst c)]) calls.

(** How many of the calls with the key [k] have returned [true], and how many
    wait for Twilio. *)
Definition firedFor (k : jsval) (st : callsState) : nat :=
  List.length (filter (fun r => snd r && jsval_eqb (fst r) k) (returned st)).

Definition waitingFor (k : jsval) (st : callsState) : nat :=
  List.length (filter (jsval_eqb k) (waiting st)).

(** No call with the key [k] starts while another call with the key [k] waits
    for Twilio. *)
Definition admissible (k : jsval) (st : callsState) (t : tick) : bool :=
  match t with
  | Enter matchKey => negb (jsval_eqb matchKey k && set_has (waiting st) k)
  | Resume _ _ => true
  end.

Fixpoint noOverlap (cfg : config.t) (k : jsval) (ticks : list tick)
         (st : callsState) : bool :=
  match ticks with
  | [] => true
  | t :: rest => admissible k st t && noOverlap cfg k rest (step cfg st t)
  end.

Definition isCreated (o : twilioOutcome) : bool :=
  match o with
  | CallCreated => true
  | CallThrows => false
  end.

Definition isTelegram (e : event) : bool :=
  match e with
  | EvTelegram _ => true
  | _ => false
  end.

Definition isListings (e : event) : bool :=
  match e with
  | EvListings _ _ => true
  | _ => false
  end.

Definition isEscalation (e : event) : bool :=
  match e with
  | EvMakePhoneCall _ => true
  | EvTwilio _ => true
  | _ => false
  end.

(** A configuration that tracks one film keyword set, with phone calls
    enabled and Twilio configured, and no cinema keywords. *)
Definition sampleConfig : config.t :=
  {| config.apiUrl := "https://example.test/movies";
     config.apiBody := BodyNull;
     config.theaterListingsApiBody := BodyNull;
     config.targetMovie := JNull;
     config.movieKeywords := Some [Some [JStr "Spider"; JStr "No Way Home"]];
     config.cinemaKeywords := None;
     config.checkCondition := JNull;
     config.twilioAccountSid := JStr "AC0";
     config.twilioAuthToken := JStr "token";
     config.twilioPhoneNumber := JStr "+10000000000";
     config.phoneNumberToCall := JStr "+10000000001";
     config.enablePhoneCall := true |}.

(** The same, with [API_BODY] set to the JSON string ["hello"], which
    [JSON.parse] does not read, and no body template. *)
Definition sampleConfigBody : config.t :=
  {| config.apiUrl := config.apiUrl sampleConfig;
     config.apiBody := BodyString "hello" Throw;
     config.theaterListingsApiBody := BodyNull;
     config.targetMovie := JNull;
     config.movieKeywords := config.movieKeywords sampleConfig;
     config.cinemaKeywords := None;
     config.checkCondition := JNull;
     config.twilioAccountSid := config.twilioAccountSid sampleConfig;
     config.twilioAuthToken := config.twilioAuthToken sampleConfig;
     config.twilioPhoneNumber := config.twilioPhoneNumber sampleConfig;
     config.phoneNumberToCall := config.phoneNumberToCall sampleConfig;
     config.enablePhoneCall := true |}.

(** The same, with one cinema keyword set. *)
Definition sampleConfigCinema (cinemaKeywords : list keywordSet) : config.t :=
  {| config.apiUrl := config.apiUrl sampleConfig;
     config.apiBody := BodyNull;
     config.theaterListingsApiBody := BodyNull;
     config.targetMovie := JNull;
     config.movieKeywords := config.movieKeywords sampleConfig;
     config.cinemaKeywords := Some cinemaKeywords;
     config.checkCondition := JNull;
     config.twilioAccountSid := config.twilioAccountSid sampleConfig;
     config.twilioAuthToken := config.twilioAuthToken sampleConfig;
     config.twilioPhoneNumber := config.twilioPhoneNumber sampleConfig;
     config.phoneNumberToCall := config.phoneNumberToCall sampleConfig;
     config.enablePhoneCall := true |}.

Definition sampleMovies : list movie :=
  [{| mv_filmName := JStr "Spider-Man: No Way Home";
      mv_releaseDate := JStr "Dec 25, 2027";
      mv_year := JNull; mv_month := JNull; mv_day := JNull;
      mv_films := Some [{| fm_filmName := JStr "Spider-Man: No Way Home";
                           fm_filmCommonCode := JStr "F1";
                           fm_releaseDate := JNull |}] |}].

Definition sampleTheater (n : string) : session :=
  {| ss_cinema := Some {| cn_name := JStr n; cn_theatreId := JNum 1;
                          cn_cityName := JStr "Bengaluru";
                          cn_address1 := JNull |};
     ss_showCount := JNum 3 |}.

(** A world in which the primary fetch succeeds, every lookup returns the
    theatres named, and the call is created. *)
Definition sampleWorld (theaters : list string) : world :=
  {| ping := PingSuccess 200 {| output_mv := Some sampleMovies |};
     today := sampleToday;
     listings := fun _ _ =>
       ListingsSuccess
         {| movieCinemaSessions := Some (map sampleTheater theaters) |};
     twilio := CallCreated |}.

(** A world in which the primary fetch fails. *)
Definition sampleWorldDown : world :=
  {| ping := PingFailure (JNum 503) "Request failed with status code 503";
     today := sampleToday;
     listings := fun _ _ => ListingsFailure;
     twilio := CallCreated |}.

(** No user-supplied condition is evaluated in the examples. *)
Definition sampleEval (_ : string) (_ : responseData) : option bool := None.

(** ** Cinema matching, stated with the film matcher *)

(** Whether some keyword set of [keywordSets] matches the name [n] for
    [checkKeywordSet], the matcher of film names. *)
Definition someSetMatches (keywordSets : list keywordSet) (n : jsval) : bool :=
  existsb (fun keywordSet =>
             (0 <? List.length (checkKeywordSet keywordSet [n]))%nat)
          keywordSets.

(** Whether some keyword set has all its keywords in the name of the
    theatre, as the loop of [checkCinemaKeywords] tests it. *)
Definition satisfiesSome (keywordSets : list keywordSet) (th : theater) : bool :=
  existsb (fun keywordSet =>
             match keywordSet with
             | Some keywords => allKeywordsFound keywords (name th)
             | None => false
             end)
          keywordSets.

(** A keyword set as the configuration documents it: a non-empty array. *)
Definition wellFormedSet (keywordSet : keywordSet) : bool :=
  match keywordSet with
  | Some (_ :: _) => true
  | _ => false
  end.

Definition isMakePhoneCall (e : event) : bool :=
  match e with
  | EvMakePhoneCall _ => true
  | _ => false
  end.

Definition samplePVR : theater :=
  {| name := JStr "PVR Orion Mall"; theatreId := JNum 1; showCount := JNum 3;
     cityName := JStr "Bengaluru"; address1 := JNull |}.

(** * Further definitions *)

(** Whether [n] is the name of the movie or of one of its films. *)
Definition namedIn (n : jsval) (movie : movie) : Prop :=
  mv_filmName movie = n
  \/ exists films film,
       mv_films movie = Some films /\ In film films /\ fm_filmName film = n.

(** The last theatre of [l] that has the name [n]. *)
Fixpoint lastWithName (n : jsval) (l : list theater) : option theater :=
  match l with
  | [] => None
  | t :: rest =>
      match lastWithName n rest with
      | Some t' => Some t'
      | None => if jsval_eqb (name t) n then Some t else None
      end
  end.

(** The first theatre of [l] that has the name [n]. *)
Definition findByName (n : jsval) (l : list theater) : option theater :=
  find (fun t => jsval_eqb (name t) n) l.

Definition sampleIMAX : theater :=
  {| name := JStr "City Mall - IMAX"; theatreId := JNum 2; showCount := JNum 0;
     cityName := JNull; address1 := JNull |}.

(** The film code that a lookup event asks for. *)
Definition lookupCode (e : event) : option jsval :=
  match e with
  | EvListings mid _ => Some mid
  | _ => None
  end.

(** The theatres that a lookup contributes to the cycle. *)
Definition theatersOf (result : listingsResult) : list theater :=
  match result with
  | ListingsSuccess data => getTheaterNames data
  | ListingsFailure => []
  end.

(** Whether [code] is the code of a film that matched by its own name or by
    the name of its movie. *)
Definition codeOfMatch (movies : list movie) (matchingFilms : list jsval)
           (code : jsval) : Prop :=
  exists movie films film,
    In movie movies /\ mv_films movie = Some films /\ In film films
    /\ fm_filmCommonCode film = code
    /\ (In (mv_filmName movie) matchingFilms
        \/ In (fm_filmName film) matchingFilms).

Definition isTwilio (e : event) : bool :=
  match e with
  | EvTwilio _ => true
  | _ => false
  end.

Definition isMakePhoneCallWith (k : jsval) (e : event) : bool :=
  match e with
  | EvMakePhoneCall matchKey => jsval_eqb matchKey k
  | _ => false
  end.

Definition isCallCreated (e : event) : bool :=
  match e with
  | EvTwilio CallCreated => true
  | _ => false
  end.

(** Whether the run called [makePhoneCall] with the key [k] and a Twilio
    call was created. *)
Definition callPlacedFor (k : jsval) (r : run) : bool :=
  existsb (isMakePhoneCallWith k) (trace r) && existsb isCallCreated (trace r).

(** A configuration whose only setting is a user-supplied condition that
    does not compile. *)
Definition sampleConfigCondition : config.t :=
  {| config.apiUrl := "https://example.test/movies";
     config.apiBody := BodyNull;
     config.theaterListingsApiBody := BodyNull;
     config.targetMovie := JNull;
     config.movieKeywords := None;
     config.cinemaKeywords := None;
     config.checkCondition := JStr "movies.length( > 3";
     config.twilioAccountSid := JNull;
     config.twilioAuthToken := JNull;
     config.twilioPhoneNumber := JNull;
     config.phoneNumberToCall := JNull;
     config.enablePhoneCall := false |}.

(** ** Startup *)

(** An element of an array under [Array.prototype.join]: [null] and
    [undefined] are rendered empty. *)
Definition joinElem (v : jsval) : string :=
  match v with
  | JNull => ""
  | _ => toStr v
  end.

(** [keywordSets.map((set, index) =>
       `Set ${index + 1}: (${set.join(' AND ')})`)], from index [index] on;
    [set.join] is a method of arrays only.  The keywords are scalars. *)
Fixpoint describeSets_from (index : nat) (keywordSets : list keywordSet)
  : completion (list string) :=
  match keywordSets with
  | [] => Normal []
  | None :: _ => Throw
  | Some keywords :: rest =>
      match describeSets_from (S index) rest with
      | Normal described =>
          Normal (("Set " ++ toStr (JNum (Z.of_nat index + 1)) ++ ": ("
                   ++ String.concat " AND " (map joinElem keywords) ++ ")")%string
                  :: described)
      | Throw => Throw
      end
  end.

(** The text that the startup log and [sendStartupMessage] build from a
    keyword-set configuration: the sets joined by [' OR ']. *)
Definition describeSets (keywordSets : list keywordSet) : completion string :=
  match describeSets_from 0 keywordSets with
  | Normal described => Normal (String.concat " OR " described)
  | Throw => Throw
  end.

(** How the start of the program ends: it exits on a missing setting, an
    exception escapes the startup log, or the startup message is built, with
    its tracking text and its cinema text (none: all theatres), and the
    monitoring begins. *)
Inductive startupOutcome : Type :=
| ConfigError
| StartupThrows
| Started (trackingInfo : string) (cinemaInfo : option string).

(** The start of the program: its settings are read (lines 15-38), where
    [JSON.parse] may throw; they are validated (lines 63-72); the keyword sets
    are logged (lines 797-805); and the texts of the startup message are built
    ([sendStartupMessage]) before the monitoring begins (lines 815-821).
    [settings] is the configuration as read, or [Throw] when reading it
    throws. *)
Definition startup (settings : completion config.t)
           (telegramToken telegramChatId : jsval) : startupOutcome :=
  match settings with
  | Throw => StartupThrows
  | Normal cfg =>
  if String.eqb (config.apiUrl cfg) "" then ConfigError
  else if negb (truthy telegramToken) || negb (truthy telegramChatId)
  then ConfigError
  else
    match (match config.movieKeywords cfg with
           | Some (set :: sets) =>
               match describeSets (set :: sets) with
               | Normal described => Normal (Some described)
               | Throw => Throw
               end
           | _ => Normal None
           end) with
    | Throw => StartupThrows
    | Normal movieText =>
        match (match config.cinemaKeywords cfg with
               | Some (set :: sets) =>
                   match describeSets (set :: sets) with
                   | Normal described => Normal (Some described)
                   | Throw => Throw
                   end
               | _ => Normal None
               end) with
        | Throw => StartupThrows
        | Normal cinemaText =>
            Started
              (match movieText with
               | Some described => described
               | None =>
                   if truthy (config.targetMovie cfg)
                   then toStr (config.targetMovie cfg) else "None"
               end)
              cinemaText
        end
    end
  end.

(** ** Basic facts *)

Lemma jsval_eqb_eq (a b : jsval) : jsval_eqb a b = true <-> a = b.
Proof.
  destruct a, b; simpl; split; intro H; try discriminate; try reflexivity.
  - apply Bool.eqb_prop in H. now subst.
  - injection H as ->. apply Bool.eqb_reflx.
  - apply Z.eqb_eq in H. now subst.
  - injection H as ->. apply Z.eqb_refl.
  - apply String.eqb_eq in H. now subst.
  - injection H as ->. apply String.eqb_refl.
Qed.

Lemma jsval_eqb_refl (a : jsval) : jsval_eqb a a = true.
Proof. now apply jsval_eqb_eq. Qed.

Lemma jsval_eqb_neq (a b : jsval) : jsval_eqb a b = false <-> a <> b.
Proof.
  split.
  - intros H E. apply jsval_eqb_eq in E. congruence.
  - intro H. destruct (jsval_eqb a b) eqn:E; [|reflexivity].
    apply jsval_eqb_eq in E. contradiction.
Qed.

Lemma jsval_eqb_sym (a b : jsval) : jsval_eqb a b = jsval_eqb b a.
Proof.
  destruct (jsval_eqb a b) eqn:E.
  - apply jsval_eqb_eq in E. subst. symmetry. apply jsval_eqb_refl.
  - apply jsval_eqb_neq in E. symmetry. apply jsval_eqb_neq. congruence.
Qed.

(** ** Keyword matcher: no empty match is reported *)

Lemma checkKeywordSets_from_matches (P : filmMatch -> Prop) filmNames :
  (forall keywordSet index,
      checkKeywordSet keywordSet filmNames <> [] ->
      P {| fmKeywordSet := keywordSet;
           matchingFilms := checkKeywordSet keywordSet filmNames;
           fmSetIndex := index |}) ->
  forall keywordSets index matches,
    Forall P matches ->
    Forall P (checkKeywordSets_from index keywordSets filmNames matches).
Proof.
  intros HP keywordSets.
  induction keywordSets as [|keywordSet rest IH]; intros index matches Hm; simpl.
  - exact Hm.
  - apply IH.
    destruct (checkKeywordSet keywordSet filmNames) as [|x found] eqn:E; simpl.
    + exact Hm.
    + apply Forall_app. split; [exact Hm|].
      constructor; [|constructor].
      rewrite <- E. apply HP. rewrite E. discriminate.
Qed.

Lemma checkKeywordSet_nonempty_set keywordSet filmNames :
  checkKeywordSet keywordSet filmNames <> [] ->
  exists keyword keywords, keywordSet = Some (keyword :: keywords).
Proof.
  destruct keywordSet as [[|keyword keywords]|]; simpl; intro H;
    try (now elim H).
  now exists keyword, keywords.
Qed.

(** C8. Every entry that [checkKeywordSets] returns has a non-empty list of
    matching films (and comes from a non-empty keyword list), and a keyword
    set that is empty or is not a list matches no name. *)
Theorem checkKeywordSets_no_empty_match :
  forall (keywordSets : option (list keywordSet)) (filmNames : list jsval),
    Forall (fun m => matchingFilms m <> []
                     /\ exists keyword keywords,
                          fmKeywordSet m = Some (keyword :: keywords))
           (checkKeywordSets keywordSets filmNames)
    /\ checkKeywordSet (Some []) filmNames = []
    /\ checkKeywordSet None filmNames = [].
Proof.
  intros keywordSets filmNames. split; [|split; reflexivity].
  destruct keywordSets as [[|set sets]|]; try constructor.
  unfold checkKeywordSets.
  match goal with
  | |- Forall ?P _ => apply (checkKeywordSets_from_matches P filmNames)
  end; [|constructor].
  intros keywordSet index Hne. simpl. split; [exact Hne|].
  exact (checkKeywordSet_nonempty_set _ filmNames Hne).
Qed.

(** ** Release-date normaliser *)

Lemma isCanonical_truthy (s : string) :
  isCanonical s = true -> truthy (JStr s) = true.
Proof. destruct s; simpl; [discriminate | reflexivity]. Qed.

Lemma convert_canonical newDate (s : string) :
  isCanonical s = true ->
  convertReleaseDateToAPIFormat newDate (JStr s) = Normal (JStr s).
Proof.
  intro H. unfold convertReleaseDateToAPIFormat.
  rewrite (isCanonical_truthy s H). simpl. now rewrite H.
Qed.

(** The [catch] block is never entered: the [try] block cannot throw. *)
Lemma tryDateParse_normal newDate (v : jsval) :
  tryDateParse newDate v <> Throw.
Proof. unfold tryDateParse. destruct (newDate v); discriminate. Qed.

Lemma convert_never_throws newDate (v : jsval) :
  convertReleaseDateToAPIFormat newDate v <> Throw.
Proof.
  unfold convertReleaseDateToAPIFormat, tryDateParse.
  destruct (truthy v); simpl; [|discriminate].
  destruct (isCanonical (toStr v)); [discriminate|].
  destruct (newDate v); discriminate.
Qed.

(** What the normaliser computes, case by case. *)
Lemma convert_cases newDate (v : jsval) :
  convertReleaseDateToAPIFormat newDate v =
  Normal (if negb (truthy v) then JNull
          else if isCanonical (toStr v) then v
          else match newDate v with
               | Some date => JStr (formatDate date)
               | None => JNull
               end).
Proof.
  unfold convertReleaseDateToAPIFormat, tryDateParse.
  destruct (truthy v); simpl; [|reflexivity].
  destruct (isCanonical (toStr v)); [reflexivity|].
  destruct (newDate v); reflexivity.
Qed.

(** C6. A string already in the form YYYY-MM-DD is returned unchanged by
    [convertReleaseDateToAPIFormat], whatever the date parser of the engine
    does, so normalising it twice is the same as normalising it once. *)
Theorem convert_canonical_idempotent :
  forall (newDate : jsval -> option jsdate) (s : string),
    isCanonical s = true ->
    convertReleaseDateToAPIFormat newDate (JStr s) = Normal (JStr s)
    /\ match convertReleaseDateToAPIFormat newDate (JStr s) with
       | Normal once => convertReleaseDateToAPIFormat newDate once
       | Throw => Throw
       end = convertReleaseDateToAPIFormat newDate (JStr s).
Proof.
  intros newDate s H.
  rewrite (convert_canonical newDate s H). split; [reflexivity|].
  apply convert_canonical, H.
Qed.

Lemma convert_canonical_idempotent_witness :
  isCanonical "2025-11-14" = true
  /\ convertReleaseDateToAPIFormat (fun _ => None) (JStr "2025-11-14")
     = Normal (JStr "2025-11-14").
Proof.
  split; [reflexivity|].
  apply (convert_canonical_idempotent (fun _ => None) "2025-11-14").
  reflexivity.
Defined.

(** C5. The manual parsing of "Nov 14, 2025"-like strings sits in the [catch]
    block of [convertReleaseDateToAPIFormat], and the [try] block cannot
    throw: for a string that is not canonical and that the engine's parser
    rejects, the result is [null], whatever the manual parsing would give. *)
Theorem convert_rejected_is_null :
  forall (newDate : jsval -> option jsdate) (s : string),
    s <> "" ->
    isCanonical s = false ->
    newDate (JStr s) = None ->
    convertReleaseDateToAPIFormat newDate (JStr s) = Normal JNull.
Proof.
  intros newDate s Hs Hc Hd. rewrite convert_cases. simpl.
  apply String.eqb_neq in Hs. now rewrite Hs, Hc, Hd.
Qed.

Lemma convert_rejected_is_null_witness :
  manualParse (JStr "Nov 45, 2025") = Normal (JStr "2025-11-45")
  /\ sampleNewDate (JStr "Nov 45, 2025") = None
  /\ convertReleaseDateToAPIFormat sampleNewDate (JStr "Nov 45, 2025")
     = Normal JNull.
Proof.
  split; [reflexivity|]. split; [reflexivity|].
  apply (convert_rejected_is_null sampleNewDate "Nov 45, 2025");
    [discriminate | reflexivity | reflexivity].
Defined.

(** ** The order of canonical dates *)

Lemma ascii_compare_digit_val (a b : ascii) :
  Ascii.compare a b = (digit_val a ?= digit_val b)%Z.
Proof.
  unfold Ascii.compare, digit_val, nat_of_ascii.
  rewrite !N_nat_Z, <- (N2Z.inj_compare (N_of_ascii a) (N_of_ascii b)).
  destruct (Z.compare_spec (Z.of_N (N_of_ascii a)) (Z.of_N (N_of_ascii b)));
    destruct (Z.compare_spec (Z.of_N (N_of_ascii a) - 48)
                             (Z.of_N (N_of_ascii b) - 48));
    try reflexivity; lia.
Qed.

Lemma is_digit_val (c : ascii) :
  is_digit c = true -> (0 <= digit_val c <= 9)%Z.
Proof.
  unfold is_digit, digit_val. intro H.
  apply andb_true_iff in H. destruct H as [H1 H2].
  apply Nat.leb_le in H1, H2. lia.
Qed.

Lemma is_dash_val (c : ascii) : is_dash c = true -> digit_val c = (-3)%Z.
Proof.
  unfold is_dash, digit_val. intro H. apply Nat.eqb_eq in H. lia.
Qed.

Ltac split_andb H :=
  repeat match type of H with
         | (_ && _) = true =>
             let H1 := fresh "Hc" in
             apply andb_true_iff in H; destruct H as [H H1]
         end.

Ltac digit_facts :=
  repeat match goal with
         | H : is_digit _ = true |- _ => apply is_digit_val in H
         | H : is_dash _ = true |- _ => apply is_dash_val in H
         end.

(** On strings of the form YYYY-MM-DD the order of the character codes is the
    order of the calendar. *)
Lemma canonical_ltb (r t : string) (dr dt : Z * Z * Z) :
  calendarDate r = Some dr -> calendarDate t = Some dt ->
  String.ltb r t = date_ltb dr dt.
Proof.
  intros Hr Ht.
  do 10 (destruct r as [|? r]; [discriminate Hr|]).
  destruct r; [|discriminate Hr].
  do 10 (destruct t as [|? t]; [discriminate Ht|]).
  destruct t; [|discriminate Ht].
  unfold calendarDate in Hr, Ht.
  match type of Hr with (if ?c then _ else _) = _ => destruct c eqn:Cr end;
    [|discriminate Hr].
  match type of Ht with (if ?c then _ else _) = _ => destruct c eqn:Ct end;
    [|discriminate Ht].
  injection Hr as <-. injection Ht as <-.
  simpl in Cr, Ct. split_andb Cr. split_andb Ct. digit_facts.
  unfold String.ltb, date_ltb. simpl String.compare.
  rewrite !ascii_compare_digit_val.
  repeat match goal with
         | |- context [(?x ?= ?y)%Z] =>
             destruct (Z.compare_spec x y); cbn [orb andb]
         end;
    repeat match goal with
           | |- context [(?x <? ?y)%Z] =>
               destruct (Z.ltb_spec x y); cbn [orb andb]
           | |- context [(?x =? ?y)%Z] =>
               destruct (Z.eqb_spec x y); cbn [orb andb]
           end; try reflexivity; exfalso; unfold num4, num2 in *; lia.
Qed.

(** The decimal rendering of a year from 1000 to 9999 has four digits, and
    the padded rendering of a number below 100 has two. *)
Lemma all_from_spec (f : Z -> bool) (n : nat) (lo : Z) :
  all_from f n lo = true ->
  forall z, (lo <= z < lo + Z.of_nat n)%Z -> f z = true.
Proof.
  revert lo. induction n as [|n IH]; intros lo H z Hz; [lia|].
  simpl in H. apply andb_true_iff in H. destruct H as [Hlo Hrest].
  destruct (Z.eq_dec z lo) as [->|Hne]; [exact Hlo|].
  apply (IH (lo + 1)%Z Hrest). lia.
Qed.

Lemma four_digits_year (y : Z) :
  (1000 <= y <= 9999)%Z -> four_digits y = true.
Proof.
  intro H.
  apply (all_from_spec four_digits (Z.to_nat 9000) 1000);
    [vm_compute; reflexivity | lia].
Qed.

Lemma two_digits_below_100 (k : Z) :
  (0 <= k <= 99)%Z -> two_digits k = true.
Proof.
  intro H.
  apply (all_from_spec two_digits (Z.to_nat 100) 0);
    [vm_compute; reflexivity | lia].
Qed.

(** The clock's date, formatted, is canonical and denotes the clock's date. *)
Lemma formatDate_calendarDate (date : jsdate) :
  (1000 <= getFullYear date <= 9999)%Z ->
  (0 <= getMonth date <= 11)%Z ->
  (1 <= getDate date <= 31)%Z ->
  calendarDate (formatDate date) = Some (dateOfClock date).
Proof.
  intros Hy Hm Hd. unfold formatDate, dateOfClock.
  pose proof (four_digits_year (getFullYear date) Hy) as Y.
  pose proof (two_digits_below_100 (getMonth date + 1) ltac:(lia)) as M.
  pose proof (two_digits_below_100 (getDate date) ltac:(lia)) as D.
  unfold four_digits in Y. unfold two_digits in M, D.
  destruct (toStr (JNum (getFullYear date)))
    as [|a [|b [|c [|d [|]]]]]; try discriminate Y.
  destruct (padStart2 (toStr (JNum (getMonth date + 1))))
    as [|m1 [|m2 [|]]]; try discriminate M.
  destruct (padStart2 (toStr (JNum (getDate date))))
    as [|d1 [|d2 [|]]]; try discriminate D.
  split_andb Y. split_andb M. split_andb D.
  apply Z.eqb_eq in Hc, Hc3, Hc5.
  cbn [append calendarDate isCanonical].
  repeat match goal with
         | H : is_digit _ = true |- _ => rewrite H; clear H
         end.
  change (is_dash "-") with true. cbn [andb].
  now rewrite Hc, Hc3, Hc5.
Qed.

(** ** The date of a theatre lookup *)

Lemma datedOf_cases newDate (today : jsdate) (releaseDate : jsval) :
  datedOf newDate today releaseDate =
  match convertReleaseDateToAPIFormat newDate releaseDate with
  | Normal releaseDateFormatted =>
      Normal (if truthy releaseDateFormatted
              then if string_gt (formatDate today) releaseDateFormatted
                   then JStr (formatDate today)
                   else releaseDateFormatted
              else JStr (formatDate today))
  | Throw => Throw
  end.
Proof.
  unfold datedOf. destruct (truthy releaseDate) eqn:E; [reflexivity|].
  rewrite convert_cases, E. reflexivity.
Qed.

Lemma calendarDate_truthy (r : string) (dr : Z * Z * Z) :
  calendarDate r = Some dr -> truthy (JStr r) = true.
Proof. destruct r; simpl; [discriminate | reflexivity]. Qed.

Lemma formatDate_truthy (date : jsdate) : truthy (JStr (formatDate date)) = true.
Proof.
  unfold formatDate. cbn [truthy].
  destruct (toStr (JNum (getFullYear date))); reflexivity.
Qed.

(** On a release date that the normaliser gives in the form YYYY-MM-DD, and
    with a clock that shows a year of four digits, the date of a lookup
    follows the calendar: the release date if it is today or later, today's
    date if it is before today; and today's date when no release date was
    given or the normaliser returned [null]. *)
Lemma datedOf_calendar newDate (today : jsdate) (releaseDate : jsval) :
  (1000 <= getFullYear today <= 9999)%Z ->
  (0 <= getMonth today <= 11)%Z ->
  (1 <= getDate today <= 31)%Z ->
  (forall r dr,
      convertReleaseDateToAPIFormat newDate releaseDate = Normal (JStr r) ->
      calendarDate r = Some dr ->
      datedOf newDate today releaseDate
      = Normal (JStr (if date_ltb dr (dateOfClock today)
                      then formatDate today else r)))
  /\ (truthy releaseDate = false
      \/ convertReleaseDateToAPIFormat newDate releaseDate = Normal JNull ->
      datedOf newDate today releaseDate = Normal (JStr (formatDate today))).
Proof.
  intros Hy Hm Hd. rewrite datedOf_cases. split.
  - intros r dr Hconv Hr. rewrite Hconv.
    rewrite (calendarDate_truthy r dr Hr). unfold string_gt.
    rewrite (canonical_ltb r (formatDate today) dr (dateOfClock today) Hr
               (formatDate_calendarDate today Hy Hm Hd)).
    destruct (date_ltb dr (dateOfClock today)); reflexivity.
  - intros [Hfalsy | Hnull].
    + rewrite convert_cases, Hfalsy. reflexivity.
    + rewrite Hnull. reflexivity.
Qed.

(** The date of a lookup is never empty: it is the normalised release date or
    today's date. *)
Lemma datedOf_normal newDate (today : jsdate) (releaseDate : jsval) :
  exists dated,
    datedOf newDate today releaseDate = Normal dated
    /\ truthy dated = true
    /\ (dated = JStr (formatDate today)
        \/ convertReleaseDateToAPIFormat newDate releaseDate = Normal dated).
Proof.
  rewrite datedOf_cases.
  destruct (convertReleaseDateToAPIFormat newDate releaseDate) as [r|] eqn:E;
    [|now apply convert_never_throws in E].
  destruct (truthy r) eqn:Hr.
  - destruct (string_gt (formatDate today) r).
    + eexists. split; [reflexivity|]. split; [apply formatDate_truthy | now left].
    + exists r. auto.
  - eexists. split; [reflexivity|]. split; [apply formatDate_truthy | now left].
Qed.

(** The body of a lookup cannot be built exactly when no body template is
    configured and [API_BODY] is a string on which [JSON.parse(...).city]
    throws. *)
Lemma listingsCity_throws (cfg : config.t) :
  listingsCity cfg = Throw
  <-> bodyTruthy (config.theaterListingsApiBody cfg) = false
      /\ exists s, config.apiBody cfg = BodyString s Throw.
Proof.
  unfold listingsCity.
  destruct (bodyTruthy (config.theaterListingsApiBody cfg)).
  { split; [discriminate | intros [H _]; discriminate H]. }
  destruct (config.apiBody cfg) as [| b | z | s parsed | city]; simpl.
  - split; [discriminate | intros [_ [s' H]]; discriminate H].
  - split; [discriminate | intros [_ [s' H]]; discriminate H].
  - split; [discriminate | intros [_ [s' H]]; discriminate H].
  - destruct parsed as [city|].
    + split; [discriminate | intros [_ [s' H]]; discriminate H].
    + split; [intros _; split; [reflexivity | now exists s] | reflexivity].
  - destruct (truthy city);
      (split; [discriminate | intros [_ [s' H]]; discriminate H]).
Qed.

(** A lookup sends its one request when the body can be built, and sends none
    and fails when it cannot. *)
Lemma fetchTheaterListings_shape newDate (cfg : config.t) (w : world)
      (filmCommonCode releaseDate : jsval) :
  exists dated,
    datedOf newDate (today w) releaseDate = Normal dated
    /\ truthy dated = true
    /\ (dated = JStr (formatDate (today w))
        \/ convertReleaseDateToAPIFormat newDate releaseDate = Normal dated)
    /\ fetchTheaterListings newDate cfg w filmCommonCode releaseDate
       = match listingsCity cfg with
         | Normal _ => ([EvListings filmCommonCode dated],
                        listings w filmCommonCode dated)
         | Throw => ([], ListingsFailure)
         end.
Proof.
  destruct (datedOf_normal newDate (today w) releaseDate)
    as [dated [Hd [Ht Hor]]].
  exists dated. repeat split; try assumption.
  unfold fetchTheaterListings. now rewrite Hd.
Qed.

(** The first character of the decimal rendering of a year. *)
Lemma leadsWith_long (y : Z) :
  (10000 <= y <= 19999)%Z -> leadsWith 1 1 y = true.
Proof.
  intro H.
  apply (all_from_spec (leadsWith 1 1) (Z.to_nat 10000) 10000);
    [vm_compute; reflexivity | lia].
Qed.

Lemma leadsWith_clock (y : Z) :
  (2000 <= y <= 2999)%Z -> leadsWith 2 2 y = true.
Proof.
  intro H.
  apply (all_from_spec (leadsWith 2 2) (Z.to_nat 1000) 2000);
    [vm_compute; reflexivity | lia].
Qed.

Lemma leadsWith_short (y : Z) :
  (300 <= y <= 999)%Z -> leadsWith 3 9 y = true.
Proof.
  intro H.
  apply (all_from_spec (leadsWith 3 9) (Z.to_nat 700) 300);
    [vm_compute; reflexivity | lia].
Qed.

(** Formatted dates whose years begin with different digits are ordered by
    those digits. *)
Lemma formatDate_ltb_leading (a b : jsdate) (lo hi lo' hi' : Z) :
  leadsWith lo hi (getFullYear a) = true ->
  leadsWith lo' hi' (getFullYear b) = true ->
  (hi < lo')%Z ->
  String.ltb (formatDate a) (formatDate b) = true
  /\ String.ltb (formatDate b) (formatDate a) = false.
Proof.
  unfold leadsWith, formatDate. intros Ha Hb Hlt.
  destruct (toStr (JNum (getFullYear a))) as [|ca ra]; [discriminate Ha|].
  destruct (toStr (JNum (getFullYear b))) as [|cb rb]; [discriminate Hb|].
  apply andb_true_iff in Ha, Hb. destruct Ha as [_ Ha], Hb as [Hb _].
  apply Z.leb_le in Ha, Hb.
  unfold String.ltb. cbn [append String.compare].
  rewrite !ascii_compare_digit_val.
  destruct (Z.compare_spec (digit_val ca) (digit_val cb));
    destruct (Z.compare_spec (digit_val cb) (digit_val ca));
    try (split; reflexivity); lia.
Qed.

(** C4. The date of a theatre lookup is chosen by comparing the formatted
    dates as strings, and a year is formatted without padding.  So, with a
    clock in the years 2000 to 2999: a release date that the engine reads in
    a year from 10000 to 19999, which is after today, is replaced by today's
    date; and a release date that the engine reads in a year from 300 to 999,
    which is before today, is sent as it is.  On these release dates the
    lookup does the opposite of what its comments say. *)
Theorem fetchTheaterListings_dated_unpadded_year :
  forall (newDate : jsval -> option jsdate) (cfg : config.t) (w : world)
         (filmCommonCode releaseDate : jsval) (date : jsdate),
    truthy releaseDate = true ->
    isCanonical (toStr releaseDate) = false ->
    newDate releaseDate = Some date ->
    (2000 <= getFullYear (today w) <= 2999)%Z ->
    ((10000 <= getFullYear date <= 19999)%Z ->
     date_ltb (dateOfClock (today w)) (dateOfClock date) = true
     /\ datedOf newDate (today w) releaseDate
        = Normal (JStr (formatDate (today w)))
     /\ forall e,
          In e (fst (fetchTheaterListings newDate cfg w filmCommonCode
                       releaseDate)) ->
          e = EvListings filmCommonCode (JStr (formatDate (today w))))
    /\ ((300 <= getFullYear date <= 999)%Z ->
        date_ltb (dateOfClock date) (dateOfClock (today w)) = true
        /\ datedOf newDate (today w) releaseDate
           = Normal (JStr (formatDate date))
        /\ forall e,
             In e (fst (fetchTheaterListings newDate cfg w filmCommonCode
                          releaseDate)) ->
             e = EvListings filmCommonCode (JStr (formatDate date))).
Proof.
  intros newDate cfg w filmCommonCode releaseDate date Hv Hc Hd Ht.
  assert (Hsent : forall dated,
             datedOf newDate (today w) releaseDate = Normal dated ->
             forall e,
               In e (fst (fetchTheaterListings newDate cfg w filmCommonCode
                            releaseDate)) ->
               e = EvListings filmCommonCode dated).
  { intros dated Hdated e. unfold fetchTheaterListings. rewrite Hdated.
    destruct (listingsCity cfg); simpl; [|tauto].
    intros [<-|[]]. reflexivity. }
  assert (Hdated : datedOf newDate (today w) releaseDate
                   = Normal (if String.ltb (formatDate date)
                                           (formatDate (today w))
                             then JStr (formatDate (today w))
                             else JStr (formatDate date))).
  { rewrite datedOf_cases, convert_cases, Hv, Hc, Hd. simpl negb. cbv iota.
    rewrite formatDate_truthy. reflexivity. }
  pose proof (leadsWith_clock _ Ht) as Lt.
  split; intro Hy.
  - destruct (formatDate_ltb_leading date (today w) 1 1 2 2
                (leadsWith_long _ Hy) Lt ltac:(lia)) as [Hlt _].
    rewrite Hlt in Hdated. split; [|split; [exact Hdated | exact (Hsent _ Hdated)]].
    unfold date_ltb, dateOfClock.
    replace (getFullYear (today w) <? getFullYear date)%Z with true;
      [reflexivity | symmetry; apply Z.ltb_lt; lia].
  - destruct (formatDate_ltb_leading (today w) date 2 2 3 9
                Lt (leadsWith_short _ Hy) ltac:(lia)) as [_ Hlt].
    rewrite Hlt in Hdated. split; [|split; [exact Hdated | exact (Hsent _ Hdated)]].
    unfold date_ltb, dateOfClock.
    replace (getFullYear date <? getFullYear (today w))%Z with true;
      [reflexivity | symmetry; apply Z.ltb_lt; lia].
Qed.

Lemma fetchTheaterListings_dated_unpadded_year_witness :
  datedOf sampleNewDate sampleToday (JStr "+012025-01-01")
  = Normal (JStr "2026-11-01")
  /\ datedOf sampleNewDate sampleToday (JStr "0999-06-01T00:00:00")
     = Normal (JStr "999-06-01").
Proof.
  split.
  - exact (proj1 (proj2 (proj1 (fetchTheaterListings_dated_unpadded_year
                                  sampleNewDate sampleConfig (sampleWorld [])
                                  (JStr "F1") (JStr "+012025-01-01")
                                  {| getFullYear := 12025; getMonth := 0;
                                     getDate := 1 |}
                                  eq_refl eq_refl eq_refl
                                  ltac:(simpl; lia))
                               ltac:(simpl; lia)))).
  - exact (proj1 (proj2 (proj2 (fetchTheaterListings_dated_unpadded_year
                                  sampleNewDate sampleConfig (sampleWorld [])
                                  (JStr "F1") (JStr "0999-06-01T00:00:00")
                                  {| getFullYear := 999; getMonth := 5;
                                     getDate := 1 |}
                                  eq_refl eq_refl eq_refl
                                  ltac:(simpl; lia))
                               ltac:(simpl; lia)))).
Defined.

(** ** Film info resolver *)

Lemma map_get_not_has (m : jsmap) (k : jsval) :
  map_has m k = false -> map_get m k = JNull.
Proof.
  induction m as [|[k' v] m IH]; simpl; [reflexivity|].
  intro H. apply orb_false_iff in H. destruct H as [H1 H2].
  rewrite H1. now apply IH.
Qed.

Lemma map_get_set (m : jsmap) (k v k' : jsval) :
  map_get (map_set m k v) k' = if jsval_eqb k' k then v else map_get m k'.
Proof.
  induction m as [|[k0 v0] m IH]; simpl.
  - reflexivity.
  - destruct (jsval_eqb k k0) eqn:E; simpl.
    + apply jsval_eqb_eq in E. subst k0.
      destruct (jsval_eqb k' k); reflexivity.
    + destruct (jsval_eqb k' k0) eqn:E0.
      * apply jsval_eqb_eq in E0. subst k0.
        rewrite jsval_eqb_sym, E. reflexivity.
      * apply IH.
Qed.

Lemma map_set_keys (m : jsmap) (k v : jsval) :
  map fst (map_set m k v) =
  if map_has m k then map fst m else map fst m ++ [k].
Proof.
  induction m as [|[k0 v0] m IH]; simpl; [reflexivity|].
  destruct (jsval_eqb k k0) eqn:E; simpl; [reflexivity|].
  rewrite IH. destruct (map_has m k); reflexivity.
Qed.

Lemma map_has_In (m : jsmap) (k : jsval) :
  map_has m k = true <-> In k (map fst m).
Proof.
  induction m as [|[k0 v0] m IH]; simpl.
  - split; [discriminate | tauto].
  - rewrite orb_true_iff, IH, jsval_eqb_eq. intuition congruence.
Qed.

(** The value under [k'] after the guarded write of [extractFilmInfo]. *)
Lemma map_get_recordFilm (m : jsmap) (c d k' : jsval) :
  map_get (recordFilm m c d) k' =
  if jsval_eqb k' c
  then (if truthy (map_get m c) then map_get m c else d)
  else map_get m k'.
Proof.
  unfold recordFilm.
  destruct (map_has m c) eqn:Hhas; simpl.
  - destruct (truthy (map_get m c)) eqn:Ht; simpl.
    + destruct (jsval_eqb k' c) eqn:E; [|reflexivity].
      apply jsval_eqb_eq in E. now subst.
    + apply map_get_set.
  - rewrite (map_get_not_has m c Hhas). simpl. apply map_get_set.
Qed.

(** A known date is never overwritten. *)
Lemma recordFilm_keeps_known (m : jsmap) (c d k : jsval) :
  truthy (map_get m k) = true ->
  map_get (recordFilm m c d) k = map_get m k.
Proof.
  intro H. rewrite map_get_recordFilm.
  destruct (jsval_eqb k c) eqn:E; [|reflexivity].
  apply jsval_eqb_eq in E. subst. now rewrite H.
Qed.

Lemma recordFilm_keys (m : jsmap) (c d : jsval) :
  map fst (recordFilm m c d) =
  if map_has m c then map fst m else map fst m ++ [c].
Proof.
  unfold recordFilm. destruct (map_has m c) eqn:Hhas; simpl.
  - destruct (truthy (map_get m c)); simpl; [reflexivity|].
    now rewrite map_set_keys, Hhas.
  - now rewrite map_set_keys, Hhas.
Qed.

Lemma recordFilm_NoDup (m : jsmap) (c d : jsval) :
  NoDup (map fst m) -> NoDup (map fst (recordFilm m c d)).
Proof.
  intro H. rewrite recordFilm_keys.
  destruct (map_has m c) eqn:Hhas; [exact H|].
  apply NoDup_app; [exact H | repeat constructor; simpl; tauto |].
  intros x Hx [<-|[]]. apply map_has_In in Hx. congruence.
Qed.

Lemma fold_left_flat_map {A B C : Type} (f : A -> B -> A) (g : C -> list B)
      (l : list C) (a : A) :
  fold_left f (flat_map g l) a = fold_left (fun a x => fold_left f (g x) a) l a.
Proof.
  revert a. induction l as [|x l IH]; intro a; simpl; [reflexivity|].
  now rewrite fold_left_app, IH.
Qed.

Lemma fold_left_guarded {C : Type} (b : C -> bool) (p : C -> jsval * jsval)
      (l : list C) (m : jsmap) :
  fold_left (fun m x => if b x then recordFilm m (fst (p x)) (snd (p x)) else m)
            l m
  = fold_left recordPair (flat_map (fun x => if b x then [p x] else []) l) m.
Proof.
  revert m. induction l as [|x l IH]; intro m; simpl; [reflexivity|].
  rewrite fold_left_app, IH. destruct (b x); reflexivity.
Qed.

(** [extractFilmInfo] performs the guarded write on the occurrences, in
    order. *)
Lemma extractFilmInfo_movie_occurrences matchingFilms (m : jsmap) (mv : movie) :
  extractFilmInfo_movie matchingFilms m mv
  = fold_left recordPair (occurrences_movie matchingFilms mv) m.
Proof.
  unfold extractFilmInfo_movie, occurrences_movie.
  rewrite fold_left_app.
  destruct (mv_films mv) as [films|]; simpl.
  - rewrite <- (fold_left_guarded
                  (fun film => truthy (fm_filmName film)
                               && existsb (jsval_eqb (fm_filmName film))
                                          matchingFilms
                               && truthy (fm_filmCommonCode film))
                  (fun film => (fm_filmCommonCode film,
                                jsor (jsor (fm_releaseDate film)
                                           (mv_releaseDate mv))
                                     (dateFromParts mv)))).
    simpl. f_equal.
    destruct (existsb _ matchingFilms); [|reflexivity].
    rewrite <- (fold_left_guarded
                  (fun film => truthy (fm_filmCommonCode film))
                  (fun film => (fm_filmCommonCode film,
                                jsor (fm_releaseDate film)
                                     (jsor (mv_releaseDate mv)
                                           (dateFromParts mv))))).
    reflexivity.
  - destruct (existsb _ matchingFilms); reflexivity.
Qed.

Lemma extractFilmInfo_map_occurrences movies matchingFilms :
  extractFilmInfo_map movies matchingFilms
  = fold_left recordPair (occurrences movies matchingFilms) [].
Proof.
  unfold extractFilmInfo_map, occurrences.
  rewrite fold_left_flat_map.
  generalize (@nil (jsval * jsval)) as m.
  induction movies as [|mv movies IH]; intro m; simpl; [reflexivity|].
  now rewrite extractFilmInfo_movie_occurrences, IH.
Qed.

Lemma clean_jsor (a b : jsval) : clean b -> clean (jsor a b).
Proof.
  intro H. unfold jsor. destruct (truthy a) eqn:E; [now right | exact H].
Qed.

Lemma clean_dateFromParts (mv : movie) : clean (dateFromParts mv).
Proof.
  unfold dateFromParts.
  destruct (truthy (mv_year mv) && truthy (mv_month mv) && truthy (mv_day mv));
    [right | now left].
  unfold formatDateFromParts. simpl.
  destruct (toStr (mv_year mv)); reflexivity.
Qed.

Lemma clean_occurrences movies matchingFilms :
  Forall (fun p => clean (snd p)) (occurrences movies matchingFilms).
Proof.
  unfold occurrences. apply Forall_flat_map, Forall_forall. intros mv _.
  unfold occurrences_movie. apply Forall_app. split.
  - destruct (existsb _ matchingFilms); [|constructor].
    apply Forall_flat_map, Forall_forall. intros film _.
    destruct (truthy (fm_filmCommonCode film)); constructor; [|constructor].
    simpl. apply clean_jsor, clean_jsor, clean_dateFromParts.
  - apply Forall_flat_map, Forall_forall. intros film _.
    destruct (truthy (fm_filmName film)
              && existsb (jsval_eqb (fm_filmName film)) matchingFilms
              && truthy (fm_filmCommonCode film)); constructor; [|constructor].
    simpl. apply clean_jsor, clean_dateFromParts.
Qed.

Lemma fold_recordPair_NoDup (occ : list (jsval * jsval)) (m : jsmap) :
  NoDup (map fst m) -> NoDup (map fst (fold_left recordPair occ m)).
Proof.
  revert m. induction occ as [|[c d] occ IH]; intros m H; simpl; [exact H|].
  apply IH. now apply recordFilm_NoDup.
Qed.

Lemma fold_recordPair_keys (occ : list (jsval * jsval)) (m : jsmap) (k : jsval) :
  In k (map fst (fold_left recordPair occ m))
  <-> In k (map fst m) \/ In k (map fst occ).
Proof.
  revert m. induction occ as [|[c d] occ IH]; intro m; simpl; [tauto|].
  rewrite IH. unfold recordPair. simpl. rewrite recordFilm_keys.
  destruct (map_has m c) eqn:Hhas.
  - apply map_has_In in Hhas. intuition congruence.
  - rewrite in_app_iff. simpl. tauto.
Qed.

Lemma fold_recordPair_get (occ : list (jsval * jsval)) (m : jsmap) (k : jsval) :
  Forall (fun p => clean (snd p)) occ ->
  clean (map_get m k) ->
  map_get (fold_left recordPair occ m) k =
  match map_get m k with
  | JNull => firstNonNull k occ
  | known => known
  end.
Proof.
  revert m. induction occ as [|[c d] occ IH]; intros m Hocc Hm; simpl.
  - destruct (map_get m k); reflexivity.
  - inversion Hocc as [|? ? Hd Hrest]; subst. simpl in Hd.
    unfold recordPair at 2. simpl.
    assert (Hstep := map_get_recordFilm m c d k).
    destruct (jsval_eqb k c) eqn:E.
    + apply jsval_eqb_eq in E. subst c.
      destruct (truthy (map_get m k)) eqn:Ht.
      * rewrite IH; [|exact Hrest|rewrite Hstep; now right].
        rewrite Hstep. destruct (map_get m k); try reflexivity. discriminate.
      * destruct Hm as [Hnull|Htrue]; [|congruence].
        rewrite IH; [|exact Hrest|now rewrite Hstep].
        rewrite Hstep, Hnull. destruct d; reflexivity.
    + rewrite IH; [|exact Hrest|now rewrite Hstep].
      now rewrite Hstep.
Qed.

Lemma map_get_In (m : jsmap) (k v : jsval) :
  NoDup (map fst m) -> In (k, v) m -> map_get m k = v.
Proof.
  induction m as [|[k0 v0] m IH]; simpl; [tauto|].
  intros Hnd [Heq|Hin].
  - injection Heq as -> ->. now rewrite jsval_eqb_refl.
  - inversion Hnd as [|? ? Hnotin Hnd']; subst.
    destruct (jsval_eqb k k0) eqn:E.
    + apply jsval_eqb_eq in E. subst k0. elim Hnotin.
      apply in_map_iff. now exists (k, v).
    + now apply IH.
Qed.

(** C7. [extractFilmInfo] returns at most one entry per film code, an entry
    for exactly the codes that occur, and the date of an entry is the first
    date that is not [null] among the occurrences of its code, in the order
    the code meets them ([null] when all are): a later occurrence, with a
    [null] date or any other, does not replace it. *)
Theorem extractFilmInfo_first_date :
  forall (movies : list movie) (matchingFilms : list jsval),
    NoDup (map code (extractFilmInfo movies matchingFilms))
    /\ (forall c,
           In c (map code (extractFilmInfo movies matchingFilms))
           <-> In c (map fst (occurrences movies matchingFilms)))
    /\ (forall fi,
           In fi (extractFilmInfo movies matchingFilms) ->
           releaseDate fi
           = firstNonNull (code fi) (occurrences movies matchingFilms)).
Proof.
  intros movies matchingFilms. unfold extractFilmInfo.
  rewrite map_map. simpl.
  change (fun x : jsval * jsval => fst x) with (@fst jsval jsval).
  rewrite extractFilmInfo_map_occurrences.
  assert (Hnd : NoDup (map fst (fold_left recordPair
                                  (occurrences movies matchingFilms) []))).
  { apply fold_recordPair_NoDup. constructor. }
  split; [exact Hnd|]. split.
  - intro c. rewrite fold_recordPair_keys. simpl. tauto.
  - intros fi Hin. apply in_map_iff in Hin. destruct Hin as [[k v] [<- Hin]].
    simpl. rewrite <- (map_get_In _ k v Hnd Hin).
    rewrite fold_recordPair_get;
      [reflexivity | apply clean_occurrences | now left].
Qed.

(** ** The monitor cycle on a failed fetch *)

(** C9. When the primary fetch fails, the cycle sends one Telegram message,
    the error notification, and ends: the trace holds no theatre lookup and
    no call of [makePhoneCall] or of Twilio, the set [phoneCallMade] is
    unchanged, and nothing of the run depends on the condition evaluator,
    the date parser or the responses of the other collaborators. *)
Theorem monitor_ping_failure :
  forall (newDate : jsval -> option jsdate)
         (evalCondition : string -> responseData -> option bool)
         (cfg : config.t) (w : world) (phoneCallMade : list jsval)
         (status : jsval) (error : string),
    ping w = PingFailure status error ->
    let r := monitor newDate evalCondition cfg w phoneCallMade in
    trace r = [EvPing; EvTelegram (ApiError (config.apiUrl cfg) status error)]
    /\ List.length (filter isTelegram (trace r)) = 1%nat
    /\ filter isListings (trace r) = []
    /\ filter isEscalation (trace r) = []
    /\ phoneCallMade' r = phoneCallMade
    /\ crashed r = false
    /\ (forall newDate' evalCondition' w',
           ping w' = ping w ->
           monitor newDate' evalCondition' cfg w' phoneCallMade = r).
Proof.
  intros newDate evalCondition cfg w phoneCallMade status error Hping r.
  assert (Hr : r = {| trace := [EvPing;
                                EvTelegram (ApiError (config.apiUrl cfg)
                                                     status error)];
                      phoneCallMade' := phoneCallMade;
                      crashed := false |}).
  { unfold r, monitor. now rewrite Hping. }
  rewrite Hr. simpl. repeat split.
  intros newDate' evalCondition' w' Hw'. unfold monitor.
  now rewrite Hw', Hping.
Qed.

Lemma monitor_ping_failure_witness :
  trace (monitor sampleNewDate sampleEval sampleConfig sampleWorldDown
                 [JStr "F1|PVR"])
  = [EvPing;
     EvTelegram (ApiError "https://example.test/movies" (JNum 503)
                          "Request failed with status code 503")]
  /\ phoneCallMade' (monitor sampleNewDate sampleEval sampleConfig
                             sampleWorldDown [JStr "F1|PVR"])
     = [JStr "F1|PVR"].
Proof.
  pose proof (monitor_ping_failure sampleNewDate sampleEval sampleConfig
                sampleWorldDown [JStr "F1|PVR"] (JNum 503)
                "Request failed with status code 503" eq_refl) as H.
  cbv zeta in H. destruct H as [Ht [_ [_ [_ [Hs _]]]]].
  split; [exact Ht | exact Hs].
Defined.

(** ** Phone-call deduplication *)

Lemma set_has_set_add (s : list jsval) (a k : jsval) :
  set_has (set_add a s) k = jsval_eqb k a || set_has s k.
Proof.
  unfold set_add, set_has.
  destruct (existsb (jsval_eqb a) s) eqn:E.
  - destruct (jsval_eqb k a) eqn:Ek; [|reflexivity].
    apply jsval_eqb_eq in Ek. subst. simpl. exact E.
  - rewrite existsb_app. simpl. rewrite orb_false_r. apply orb_comm.
Qed.

(** What [makePhoneCall] returns and leaves behind, in every case. *)
Lemma makePhoneCall_cases (cfg : config.t) (o : twilioOutcome)
      (matchKey : jsval) (seen : list jsval) :
  makePhoneCall cfg o matchKey seen =
  if config.enablePhoneCall cfg && twilioConfigured cfg
     && negb (truthy matchKey && set_has seen matchKey)
  then match o with
       | CallCreated =>
           (true, [EvTwilio CallCreated],
            if truthy matchKey then set_add matchKey seen else seen)
       | CallThrows => (false, [EvTwilio CallThrows], seen)
       end
  else (false, [], seen).
Proof.
  unfold makePhoneCall.
  destruct (config.enablePhoneCall cfg); simpl; [|reflexivity].
  destruct (twilioConfigured cfg); simpl; [|reflexivity].
  destruct (truthy matchKey && set_has seen matchKey); reflexivity.
Qed.

(** C10. When the Twilio call throws, [makePhoneCall] returns [false] and
    leaves the set [phoneCallMade] as it was; so a later call with the same
    key tries Twilio again, and returns [true] and records the key when the
    call is then created.  A key enters the set only in a call of
    [makePhoneCall] with that key in which the Twilio call was created. *)
Theorem makePhoneCall_failure_not_recorded :
  forall (cfg : config.t) (matchKey : jsval) (phoneCallMade : list jsval),
    (fst (fst (makePhoneCall cfg CallThrows matchKey phoneCallMade)) = false
     /\ snd (makePhoneCall cfg CallThrows matchKey phoneCallMade)
        = phoneCallMade)
    /\ (config.enablePhoneCall cfg = true ->
        twilioConfigured cfg = true ->
        truthy matchKey = true ->
        set_has phoneCallMade matchKey = false ->
        makePhoneCall cfg CallThrows matchKey phoneCallMade
        = (false, [EvTwilio CallThrows], phoneCallMade)
        /\ makePhoneCall cfg CallCreated matchKey
             (snd (makePhoneCall cfg CallThrows matchKey phoneCallMade))
           = (true, [EvTwilio CallCreated], phoneCallMade ++ [matchKey]))
    /\ (forall o k,
           set_has phoneCallMade k = false ->
           set_has (snd (makePhoneCall cfg o matchKey phoneCallMade)) k = true ->
           o = CallCreated /\ k = matchKey
           /\ fst (fst (makePhoneCall cfg o matchKey phoneCallMade)) = true).
Proof.
  intros cfg matchKey seen. split; [|split].
  - rewrite makePhoneCall_cases.
    destruct (config.enablePhoneCall cfg && twilioConfigured cfg
              && negb (truthy matchKey && set_has seen matchKey));
      split; reflexivity.
  - intros He Hc Ht Hs. rewrite !makePhoneCall_cases, He, Hc, Ht, Hs. simpl.
    rewrite Hs. simpl. split; [reflexivity|].
    unfold set_add. unfold set_has in Hs. now rewrite Hs.
  - intros o k Hk. rewrite makePhoneCall_cases.
    destruct (config.enablePhoneCall cfg && twilioConfigured cfg
              && negb (truthy matchKey && set_has seen matchKey));
      simpl; [|congruence].
    destruct o; simpl; [|congruence].
    destruct (truthy matchKey); [|congruence].
    rewrite set_has_set_add, Hk, orb_false_r. intro E.
    apply jsval_eqb_eq in E. auto.
Qed.

Lemma makePhoneCall_failure_not_recorded_witness :
  makePhoneCall sampleConfig CallThrows (JStr "F1|PVR") []
  = (false, [EvTwilio CallThrows], [])
  /\ makePhoneCall sampleConfig CallCreated (JStr "F1|PVR")
       (snd (makePhoneCall sampleConfig CallThrows (JStr "F1|PVR") []))
     = (true, [EvTwilio CallCreated], [JStr "F1|PVR"]).
Proof.
  exact (proj1 (proj2 (makePhoneCall_failure_not_recorded
                         sampleConfig (JStr "F1|PVR") []))
               eq_refl eq_refl eq_refl eq_refl).
Defined.

Lemma set_has_after_call (cfg : config.t) (o : twilioOutcome)
      (matchKey k : jsval) (seen : list jsval) :
  set_has (snd (makePhoneCall cfg o matchKey seen)) k =
  set_has seen k
  || (fst (fst (makePhoneCall cfg o matchKey seen))
      && truthy matchKey && jsval_eqb k matchKey).
Proof.
  rewrite makePhoneCall_cases.
  destruct (config.enablePhoneCall cfg && twilioConfigured cfg
            && negb (truthy matchKey && set_has seen matchKey)); simpl;
    [|now rewrite orb_false_r].
  destruct o; simpl; [|now rewrite orb_false_r].
  destruct (truthy matchKey); simpl; [|now rewrite orb_false_r].
  rewrite set_has_set_add. apply orb_comm.
Qed.

(** Over a sequence of calls, the number of calls with key [k] that return
    [true]. *)
Lemma firedCount_closed (cfg : config.t) (k : jsval)
      (calls : list (twilioOutcome * jsval)) (seen : list jsval) :
  truthy k = true ->
  firedCount cfg k calls seen =
  if config.enablePhoneCall cfg && twilioConfigured cfg
     && negb (set_has seen k)
     && existsb (fun c => isCreated (fst c) && jsval_eqb (snd c) k) calls
  then 1%nat else 0%nat.
Proof.
  intro Hk. revert seen.
  induction calls as [|[o matchKey] calls IH]; intro seen.
  - simpl. now rewrite !andb_false_r.
  - cbn [firedCount existsb fst snd].
    pose proof (set_has_after_call cfg o matchKey k seen) as Hafter.
    destruct (makePhoneCall cfg o matchKey seen) as [[callMade called] seen']
      eqn:Hcall.
    rewrite IH. cbn [fst snd] in Hafter. rewrite Hafter.
    assert (Hmade : callMade =
                    config.enablePhoneCall cfg && twilioConfigured cfg
                    && negb (truthy matchKey && set_has seen matchKey)
                    && isCreated o).
    { rewrite makePhoneCall_cases in Hcall.
      destruct (config.enablePhoneCall cfg && twilioConfigured cfg
                && negb (truthy matchKey && set_has seen matchKey));
        destruct o; simpl; congruence. }
    destruct (jsval_eqb matchKey k) eqn:E.
    + apply jsval_eqb_eq in E. subst matchKey.
      rewrite jsval_eqb_refl, Hk in *. rewrite Hmade.
      destruct (config.enablePhoneCall cfg), (twilioConfigured cfg),
        (set_has seen k), o; simpl; try reflexivity;
        destruct (existsb _ calls); reflexivity.
    + rewrite (jsval_eqb_sym k matchKey), E, !andb_false_r, orb_false_r.
      simpl. reflexivity.
Qed.

(** *** Calls that overlap *)

Lemma makePhoneCall_enter_cases (cfg : config.t) (matchKey : jsval)
      (seen : list jsval) :
  makePhoneCall_enter cfg matchKey seen =
  if config.enablePhoneCall cfg && twilioConfigured cfg
     && negb (truthy matchKey && set_has seen matchKey)
  then AwaitsTwilio else Returned false.
Proof.
  unfold makePhoneCall_enter.
  destruct (config.enablePhoneCall cfg); simpl; [|reflexivity].
  destruct (twilioConfigured cfg); simpl; [|reflexivity].
  destruct (truthy matchKey && set_has seen matchKey); reflexivity.
Qed.

(** A call with nothing in between is its two parts, one after the other. *)
Lemma makePhoneCall_phases (cfg : config.t) (o : twilioOutcome)
      (matchKey : jsval) (seen : list jsval) :
  makePhoneCall cfg o matchKey seen =
  match makePhoneCall_enter cfg matchKey seen with
  | Returned callMade => (callMade, [], seen)
  | AwaitsTwilio =>
      (fst (makePhoneCall_resume o matchKey seen), [EvTwilio o],
       snd (makePhoneCall_resume o matchKey seen))
  end.
Proof.
  rewrite makePhoneCall_cases, makePhoneCall_enter_cases.
  destruct (config.enablePhoneCall cfg && twilioConfigured cfg
            && negb (truthy matchKey && set_has seen matchKey));
    [|reflexivity].
  destruct o; reflexivity.
Qed.

Lemma firedFor_returned (k : jsval) (st : callsState) (held' waiting' : list jsval)
      (matchKey : jsval) (callMade : bool) :
  firedFor k {| held := held'; waiting := waiting';
                returned := returned st ++ [(matchKey, callMade)] |}
  = (firedFor k st + if callMade && jsval_eqb matchKey k then 1 else 0)%nat.
Proof.
  unfold firedFor. cbn [returned]. rewrite filter_app, length_app.
  cbn [filter fst snd].
  destruct (callMade && jsval_eqb matchKey k); reflexivity.
Qed.

(** One call with nothing in between, in the event loop. *)
Lemma step_call (cfg : config.t) (o : twilioOutcome) (matchKey : jsval)
      (st : callsState) :
  waiting st = [] ->
  step cfg (step cfg st (Enter matchKey)) (Resume 0 o)
  = {| held := snd (makePhoneCall cfg o matchKey (held st));
       waiting := [];
       returned :=
         returned st
         ++ [(matchKey, fst (fst (makePhoneCall cfg o matchKey (held st))))] |}.
Proof.
  intro Hw. rewrite makePhoneCall_phases. unfold step.
  destruct (makePhoneCall_enter cfg matchKey (held st)) as [callMade|];
    cbn [waiting held returned]; rewrite Hw; cbn [app nth_error fst snd].
  - reflexivity.
  - destruct (makePhoneCall_resume o matchKey (held st)); reflexivity.
Qed.

(** Calls made one after the other are the calls of [callAll]. *)
Lemma runTicks_sequential (cfg : config.t) (k : jsval)
      (calls : list (twilioOutcome * jsval)) :
  forall st,
    waiting st = [] ->
    waiting (runTicks cfg (sequential calls) st) = []
    /\ map snd (returned (runTicks cfg (sequential calls) st))
       = map snd (returned st) ++ callAll cfg calls (held st)
    /\ firedFor k (runTicks cfg (sequential calls) st)
       = (firedFor k st + firedCount cfg k calls (held st))%nat
    /\ noOverlap cfg k (sequential calls) st = true.
Proof.
  induction calls as [|[o matchKey] calls IH]; intros st Hw.
  - simpl. rewrite app_nil_r, Nat.add_0_r. auto.
  - change (sequential ((o, matchKey) :: calls))
      with (Enter matchKey :: Resume 0 o :: sequential calls).
    cbn [runTicks fold_left noOverlap admissible callAll firedCount].
    change (fold_left (step cfg) (sequential calls) ?x)
      with (runTicks cfg (sequential calls) x).
    rewrite (step_call cfg o matchKey st Hw), Hw.
    cbn [set_has existsb]. rewrite andb_false_r. cbn [negb andb].
    destruct (makePhoneCall cfg o matchKey (held st))
      as [[callMade called] seen'].
    cbn [fst snd].
    match goal with
    | |- context [runTicks cfg (sequential calls) ?x] =>
        destruct (IH x eq_refl) as [H1 [H2 [H3 H4]]]
    end.
    rewrite H1, H2, H3, H4.
    rewrite (firedFor_returned k st seen' [] matchKey callMade).
    cbn [returned held]. rewrite map_app, <- app_assoc.
    repeat split; try reflexivity. lia.
Qed.

Lemma set_has_count (k : jsval) (l : list jsval) :
  set_has l k = false -> List.length (filter (jsval_eqb k) l) = 0%nat.
Proof.
  unfold set_has. induction l as [|x l IH]; simpl; [reflexivity|].
  destruct (jsval_eqb k x); simpl; [discriminate | exact IH].
Qed.

Lemma count_remove_nth (k x : jsval) (n : nat) (l : list jsval) :
  nth_error l n = Some x ->
  List.length (filter (jsval_eqb k) l)
  = ((if jsval_eqb k x then 1 else 0)
     + List.length (filter (jsval_eqb k) (remove_nth n l)))%nat.
Proof.
  revert n. induction l as [|y l IH]; intros [|n] H; simpl in H;
    try discriminate H.
  - injection H as ->. simpl. destruct (jsval_eqb k x); reflexivity.
  - cbn [filter remove_nth]. specialize (IH n H).
    destruct (jsval_eqb k y); cbn [List.length]; rewrite IH;
      destruct (jsval_eqb k x); lia.
Qed.

(** While no two calls with the key [k] overlap: at most one of them has
    returned [true] or waits for Twilio, and once one has returned [true] the
    key is in the set. *)
Definition oneAtATime (k : jsval) (st : callsState) : Prop :=
  (waitingFor k st + firedFor k st <= 1)%nat
  /\ (firedFor k st = 1%nat -> set_has (held st) k = true).

Lemma step_oneAtATime (cfg : config.t) (k : jsval) (st : callsState) (t : tick) :
  truthy k = true ->
  oneAtATime k st -> admissible k st t = true ->
  oneAtATime k (step cfg st t).
Proof.
  intros Hk [Hle Hheld] Hadm. destruct t as [matchKey | n o]; unfold step.
  - rewrite makePhoneCall_enter_cases.
    destruct (config.enablePhoneCall cfg && twilioConfigured cfg
              && negb (truthy matchKey && set_has (held st) matchKey)) eqn:E.
    + unfold oneAtATime, waitingFor. cbn [waiting held].
      change (firedFor k {| held := held st;
                            waiting := waiting st ++ [matchKey];
                            returned := returned st |})
        with (firedFor k st).
      rewrite filter_app, length_app. cbn [filter].
      destruct (jsval_eqb k matchKey) eqn:Ek; cbn [List.length].
      * apply jsval_eqb_eq in Ek. subst matchKey.
        cbn [admissible] in Hadm. rewrite jsval_eqb_refl in Hadm.
        cbn [andb] in Hadm. apply negb_true_iff in Hadm.
        unfold waitingFor in Hle. rewrite (set_has_count k _ Hadm) in *.
        apply andb_true_iff in E. destruct E as [_ E].
        rewrite Hk in E. cbn [andb] in E. apply negb_true_iff in E.
        assert (firedFor k st = 0)%nat.
        { destruct (firedFor k st) as [|[|m]] eqn:F; [reflexivity| |simpl in Hle; lia].
          rewrite (Hheld eq_refl) in E. discriminate E. }
        split; [lia | intro F; lia].
      * unfold waitingFor in Hle. split; [lia | exact Hheld].
    + unfold oneAtATime, waitingFor. rewrite firedFor_returned.
      cbn [waiting held andb]. unfold waitingFor in Hle.
      split; [lia | rewrite Nat.add_0_r; exact Hheld].
  - destruct (nth_error (waiting st) n) as [matchKey|] eqn:En;
      [|split; assumption].
    pose proof (count_remove_nth k matchKey n (waiting st) En) as Hcount.
    unfold waitingFor in Hle.
    destruct o; cbn [makePhoneCall_resume]; unfold oneAtATime, waitingFor;
      rewrite firedFor_returned; cbn [waiting held andb].
    + destruct (jsval_eqb k matchKey) eqn:Ek.
      * apply jsval_eqb_eq in Ek. subst matchKey.
        rewrite jsval_eqb_refl, Hk. split; [lia|].
        intros _. rewrite set_has_set_add, jsval_eqb_refl. reflexivity.
      * rewrite (jsval_eqb_sym matchKey k), Ek. split; [lia|].
        rewrite Nat.add_0_r. intro F.
        destruct (truthy matchKey); [|exact (Hheld F)].
        rewrite set_has_set_add, (Hheld F). apply orb_true_r.
    + split; [destruct (jsval_eqb k matchKey); lia|].
      rewrite Nat.add_0_r. exact Hheld.
Qed.

Lemma runTicks_oneAtATime (cfg : config.t) (k : jsval) (ticks : list tick) :
  truthy k = true ->
  forall st,
    oneAtATime k st -> noOverlap cfg k ticks st = true ->
    oneAtATime k (runTicks cfg ticks st).
Proof.
  intro Hk. induction ticks as [|t ticks IH]; intros st Hinv Hno;
    [exact Hinv|].
  cbn [noOverlap] in Hno. apply andb_true_iff in Hno. destruct Hno as [Ht Hno].
  cbn [runTicks fold_left]. apply IH; [|exact Hno].
  now apply step_oneAtATime.
Qed.

(** C1. For a key that is not empty: [makePhoneCall] returns [true] exactly
    when phone calls are enabled, Twilio is configured, the key is not yet in
    the set and the Twilio call is created; it then records the key, and any
    call with a recorded key returns [false] without calling Twilio.  So,
    whenever no two calls with the key overlap (none starts while another
    waits for Twilio), at most one of them returns [true]; and over calls made
    one after the other exactly one does when calls are enabled and
    configured and some call with the key is created, and none otherwise. *)
Theorem makePhoneCall_true_once :
  forall (cfg : config.t) (k : jsval),
    truthy k = true ->
    (forall o seen,
        fst (fst (makePhoneCall cfg o k seen)) = true
        <-> (config.enablePhoneCall cfg = true /\ twilioConfigured cfg = true
             /\ set_has seen k = false /\ o = CallCreated))
    /\ (forall o seen,
           fst (fst (makePhoneCall cfg o k seen)) = true ->
           set_has (snd (makePhoneCall cfg o k seen)) k = true)
    /\ (forall o seen,
           set_has seen k = true ->
           makePhoneCall cfg o k seen = (false, [], seen))
    /\ (forall ticks,
           noOverlap cfg k ticks (idle []) = true ->
           (firedFor k (runTicks cfg ticks (idle [])) <= 1)%nat)
    /\ (forall calls,
           noOverlap cfg k (sequential calls) (idle []) = true
           /\ map snd (returned (runTicks cfg (sequential calls) (idle [])))
              = callAll cfg calls []
           /\ firedFor k (runTicks cfg (sequential calls) (idle []))
              = firedCount cfg k calls []
           /\ firedCount cfg k calls [] =
              if config.enablePhoneCall cfg && twilioConfigured cfg
                 && existsb (fun c => isCreated (fst c) && jsval_eqb (snd c) k)
                            calls
              then 1%nat else 0%nat).
Proof.
  intros cfg k Hk. repeat split.
  - rewrite makePhoneCall_cases, Hk in H.
    destruct (config.enablePhoneCall cfg); [reflexivity | discriminate H].
  - rewrite makePhoneCall_cases, Hk in H.
    destruct (config.enablePhoneCall cfg), (twilioConfigured cfg);
      try reflexivity; discriminate H.
  - rewrite makePhoneCall_cases, Hk in H.
    destruct (config.enablePhoneCall cfg), (twilioConfigured cfg),
      (set_has seen k); try reflexivity; discriminate H.
  - rewrite makePhoneCall_cases, Hk in H.
    destruct (config.enablePhoneCall cfg), (twilioConfigured cfg),
      (set_has seen k), o; try reflexivity; discriminate H.
  - intros [He [Hc [Hs Ho]]]. subst o.
    now rewrite makePhoneCall_cases, Hk, He, Hc, Hs.
  - intros o seen H. rewrite set_has_after_call, H, Hk, jsval_eqb_refl.
    apply orb_true_r.
  - intros o seen Hs. rewrite makePhoneCall_cases, Hk, Hs. simpl.
    now rewrite andb_false_r.
  - intros ticks Hno.
    assert (Hidle : oneAtATime k (idle [])).
    { split; [cbv; lia | intro F; cbv in F; discriminate F]. }
    destruct (runTicks_oneAtATime cfg k ticks Hk (idle []) Hidle Hno)
      as [Hle _]. lia.
  - apply (runTicks_sequential cfg k calls (idle []) eq_refl).
  - apply (runTicks_sequential cfg k calls (idle []) eq_refl).
  - apply (runTicks_sequential cfg k calls (idle []) eq_refl).
  - rewrite (firedCount_closed cfg k calls [] Hk). simpl.
    now rewrite andb_true_r.
Qed.

Lemma makePhoneCall_true_once_witness :
  firedFor (JStr "F1|PVR")
    (runTicks sampleConfig
       (sequential
          [(CallThrows, JStr "F1|PVR"); (CallCreated, JStr "F1|PVR");
           (CallCreated, JStr "F2|all"); (CallCreated, JStr "F1|PVR")])
       (idle []))
  = 1%nat.
Proof.
  pose (calls := [(CallThrows, JStr "F1|PVR"); (CallCreated, JStr "F1|PVR");
                  (CallCreated, JStr "F2|all"); (CallCreated, JStr "F1|PVR")]).
  destruct (proj2 (proj2 (proj2 (proj2 (makePhoneCall_true_once
                                          sampleConfig (JStr "F1|PVR")
                                          eq_refl)))) calls)
    as [_ [_ [Hfired Hcount]]].
  exact (eq_trans Hfired Hcount).
Defined.

(** At the first observation of a key [makePhoneCall] may return [false] and
    leave the key unrecorded, and return [true] at a later observation. *)
Lemma first_observation_not_recorded :
  makePhoneCall sampleConfig CallThrows (JStr "F1|PVR") []
  = (false, [EvTwilio CallThrows], [])
  /\ callAll sampleConfig
       [(CallThrows, JStr "F1|PVR"); (CallCreated, JStr "F1|PVR")] []
     = [false; true].
Proof. split; reflexivity. Qed.

(** ** Cinema matcher *)

Lemma checkCinemaKeywords_sets_spec (th : theater) :
  forall (keywordSets : list keywordSet) (index : nat)
         (matches : list setMatch) (theaters : list theater)
         (r : list setMatch * list theater),
    checkCinemaKeywords_sets th index keywordSets (matches, theaters) = Normal r ->
    snd r = (if satisfiesSome keywordSets th
             then if existsb (fun t => jsval_eqb (name t) (name th)) theaters
                  then theaters else theaters ++ [th]
             else theaters)
    /\ (fst r = [] <-> matches = [] /\ satisfiesSome keywordSets th = false).
Proof.
  induction keywordSets as [|[keywords|] rest IH];
    intros index matches theaters r H; simpl in H.
  - injection H as <-. simpl. tauto.
  - cbn [satisfiesSome existsb].
    fold (satisfiesSome rest th).
    destruct (allKeywordsFound keywords (name th)) eqn:Hfound.
    + apply IH in H. destruct H as [Hsnd Hfst]. cbn [orb]. split.
      * rewrite Hsnd.
        destruct (existsb (fun t => jsval_eqb (name t) (name th)) theaters)
          eqn:Hin.
        -- rewrite Hin. now destruct (satisfiesSome rest th).
        -- rewrite existsb_app. simpl. rewrite jsval_eqb_refl, orb_true_r.
           now destruct (satisfiesSome rest th).
      * rewrite Hfst. split; [|intros [_ ?]; discriminate].
        intros [Hm _].
        destruct (existsb (fun m => (smSetIndex m =? index)%nat) matches) eqn:Hi.
        -- subst matches. discriminate Hi.
        -- now destruct matches.
    + apply IH in H. exact H.
  - discriminate H.
Qed.

Lemma checkCinemaKeywords_theaters_spec (keywordSets : list keywordSet) :
  forall (theaterNames : list theater) (matches : list setMatch)
         (theaters : list theater) (r : list setMatch * list theater),
    checkCinemaKeywords_theaters keywordSets theaterNames (matches, theaters)
    = Normal r ->
    (forall n, In n (map name (snd r))
               <-> In n (map name theaters)
                   \/ exists th, In th theaterNames /\ name th = n
                                 /\ satisfiesSome keywordSets th = true)
    /\ (fst r = [] <-> matches = []
                       /\ forall th, In th theaterNames ->
                                     satisfiesSome keywordSets th = false).
Proof.
  induction theaterNames as [|th rest IH]; intros matches theaters r H;
    simpl in H.
  - injection H as <-. simpl. split.
    + intro n. split; [tauto | intros [?|[? [[] _]]]; assumption].
    + split; [intro; split; [assumption | intros ? []] | tauto].
  - destruct (checkCinemaKeywords_sets th 0 keywordSets (matches, theaters))
      as [[matches' theaters']|] eqn:Hsets; [|discriminate H].
    apply checkCinemaKeywords_sets_spec in Hsets. simpl in Hsets.
    destruct Hsets as [Hsnd Hfst].
    apply IH in H. destruct H as [Hnames Hempty]. split.
    + intro n. rewrite Hnames, Hsnd. clear Hnames Hempty IH.
      destruct (satisfiesSome keywordSets th) eqn:Hsat.
      * destruct (existsb (fun t => jsval_eqb (name t) (name th)) theaters)
          eqn:Hin.
        -- apply existsb_exists in Hin. destruct Hin as [t [Ht Heq]].
           apply jsval_eqb_eq in Heq. split.
           ++ intros [?|[t' [? ?]]]; [now left|].
              right. exists t'. simpl. tauto.
           ++ intros [?|[t' [[<-|?] [Hn ?]]]]; [now left | | ].
              ** left. subst n. rewrite <- Heq. now apply in_map.
              ** right. now exists t'.
        -- rewrite map_app, in_app_iff. simpl. split.
           ++ intros [[?|[<-|[]]]|[t' [? ?]]].
              ** now left.
              ** right. exists th. simpl. tauto.
              ** right. exists t'. simpl. tauto.
           ++ intros [?|[t' [[<-|?] [Hn ?]]]].
              ** tauto.
              ** left. right. left. exact Hn.
              ** right. now exists t'.
      * split.
        -- intros [?|[t' [? ?]]]; [now left|]. right. exists t'. simpl. tauto.
        -- intros [?|[t' [[<-|?] [Hn ?]]]]; [now left | congruence |].
           right. now exists t'.
    + rewrite Hempty, Hfst. simpl. split.
      * intros [[Hm Hs] Hall]. split; [exact Hm|].
        intros t [<-|Ht]; [exact Hs | now apply Hall].
      * intros [Hm Hall]. split; [split|]; auto.
Qed.

Lemma find_satisfying {A : Type} (f : A -> bool) (l : list A) :
  (exists x, In x l /\ f x = true) \/ (forall x, In x l -> f x = false).
Proof.
  destruct (existsb f l) eqn:E.
  - left. now apply existsb_exists.
  - right. intros x Hin. destruct (f x) eqn:Ef; [|reflexivity].
    assert (existsb f l = true) by (apply existsb_exists; eauto).
    congruence.
Qed.

(** When it matches something, the cinema matcher names a theatre. *)
Lemma checkCinemaKeywords_matched_nonempty (cfg : config.t)
      (theaterNames : list theater) (r : cinemaMatchResult) :
  keywordsSet (config.cinemaKeywords cfg) = true ->
  checkCinemaKeywords cfg theaterNames = Normal r ->
  matched r = true ->
  matchingTheaters r <> [].
Proof.
  unfold checkCinemaKeywords.
  destruct (config.cinemaKeywords cfg) as [[|set sets]|]; try discriminate.
  intros _ H Hm.
  destruct (checkCinemaKeywords_theaters (set :: sets) theaterNames ([], []))
    as [[matches theaters]|] eqn:E; [|discriminate H].
  injection H as <-. simpl in *.
  apply checkCinemaKeywords_theaters_spec in E. simpl in E.
  destruct E as [Hnames Hempty].
  destruct matches as [|m matches]; [discriminate Hm|].
  destruct (find_satisfying (satisfiesSome (set :: sets)) theaterNames)
    as [Hex | Hall];
    [|discriminate (proj2 Hempty (conj eq_refl Hall))].
  destruct Hex as [th [Hin Hsat]].
  intro Hnil. specialize (Hnames (name th)). rewrite Hnil in Hnames.
  apply (proj2 Hnames). right. exists th. auto.
Qed.

Lemma checkCinemaKeywords_unset (cfg : config.t) (theaterNames : list theater) :
  keywordsSet (config.cinemaKeywords cfg) = false ->
  checkCinemaKeywords cfg theaterNames
  = Normal {| matched := true;
              matchingTheaters := theaterNames;
              matchedSets := [] |}.
Proof.
  unfold checkCinemaKeywords.
  now destruct (config.cinemaKeywords cfg) as [[|set sets]|].
Qed.

(** On a well-formed keyword set the loop's test is the film matcher's. *)
Lemma satisfiesSome_someSetMatches (keywordSets : list keywordSet) (th : theater) :
  forallb wellFormedSet keywordSets = true ->
  satisfiesSome keywordSets th = someSetMatches keywordSets (name th).
Proof.
  unfold satisfiesSome, someSetMatches.
  induction keywordSets as [|[[|k ks]|] rest IH]; simpl; try discriminate.
  - reflexivity.
  - intro H. rewrite (IH H). f_equal.
    match goal with
    | |- context [if ?c then _ else _] => destruct c
    end; reflexivity.
Qed.

Lemma wellFormed_never_throws (keywordSets : list keywordSet) :
  forallb wellFormedSet keywordSets = true ->
  forall theaterNames acc,
    checkCinemaKeywords_theaters keywordSets theaterNames acc <> Throw.
Proof.
  intro Hwf.
  assert (Hsets : forall th sets index acc,
             forallb wellFormedSet sets = true ->
             checkCinemaKeywords_sets th index sets acc <> Throw).
  { intros th sets. induction sets as [|[ks|] rest IH]; intros index acc H;
      simpl in *; try discriminate.
    destruct acc as [matches theaters].
    apply andb_true_iff in H. destruct H as [_ H]. now apply IH. }
  induction theaterNames as [|th rest IH]; intro acc; simpl; [discriminate|].
  destruct (checkCinemaKeywords_sets th 0 keywordSets acc) eqn:E.
  - apply IH.
  - now apply Hsets in E.
Qed.

(** With well-formed cinema keyword sets, [checkCinemaKeywords] is the film
    matcher [checkKeywordSet] applied to each theatre name: a name is among
    the matching theatres exactly when it is the name of a theatre that some
    set matches, and [matched] says whether there is such a theatre. *)
Lemma checkCinemaKeywords_wellFormed (cfg : config.t) (set : keywordSet)
      (sets : list keywordSet) (theaterNames : list theater) :
  config.cinemaKeywords cfg = Some (set :: sets) ->
  forallb wellFormedSet (set :: sets) = true ->
  exists r,
    checkCinemaKeywords cfg theaterNames = Normal r
    /\ (forall n, In n (map name (matchingTheaters r))
                  <-> exists th, In th theaterNames /\ name th = n
                                 /\ someSetMatches (set :: sets) n = true)
    /\ (matched r = true
        <-> exists th, In th theaterNames
                       /\ someSetMatches (set :: sets) (name th) = true).
Proof.
  intros Hcfg Hwf. unfold checkCinemaKeywords. rewrite Hcfg.
  destruct (checkCinemaKeywords_theaters (set :: sets) theaterNames ([], []))
    as [[matches theaters]|] eqn:E;
    [|now apply wellFormed_never_throws in E].
  eexists. split; [reflexivity|]. cbn [matchingTheaters matched].
  apply checkCinemaKeywords_theaters_spec in E. cbn [fst snd map In] in E.
  destruct E as [Hnames Hempty]. split.
  - intro n. rewrite Hnames. split.
    + intros [[]|[th [Hin [Hn Hs]]]]. exists th.
      rewrite (satisfiesSome_someSetMatches _ th Hwf), Hn in Hs. auto.
    + intros [th [Hin [Hn Hs]]]. right. exists th.
      rewrite (satisfiesSome_someSetMatches _ th Hwf), Hn. auto.
  - destruct matches as [|m matches]; cbn [List.length Nat.ltb Nat.leb].
    + split; [discriminate|]. intros [th [Hin Hs]].
      rewrite <- (satisfiesSome_someSetMatches _ th Hwf) in Hs.
      destruct (proj1 Hempty eq_refl) as [_ Hall].
      rewrite (Hall th Hin) in Hs. discriminate.
    + split; [intros _ | reflexivity].
      destruct (find_satisfying (satisfiesSome (set :: sets)) theaterNames)
        as [[th [Hin Hs]] | Hall].
      * exists th. now rewrite <- (satisfiesSome_someSetMatches _ th Hwf).
      * discriminate (proj2 Hempty (conj eq_refl Hall)).
Qed.

(** C3. The cinema matcher is not the film matcher on every configuration:
    [checkKeywordSet] lets an empty keyword set, and a set that is not a
    list, match no name, while [checkCinemaKeywords] lets the empty set match
    every theatre and throws on a set that is not a list. *)
Theorem checkCinemaKeywords_empty_set :
  checkCinemaKeywords (sampleConfigCinema [Some []]) [samplePVR]
  = Normal {| matched := true;
              matchingTheaters := [samplePVR];
              matchedSets := [{| smKeywordSet := []; smSetIndex := 0 |}] |}
  /\ checkKeywordSet (Some []) [name samplePVR] = []
  /\ checkCinemaKeywords (sampleConfigCinema [None]) [samplePVR] = Throw
  /\ checkKeywordSet None [name samplePVR] = [].
Proof. repeat split. Qed.

(** ** Sorting *)

Lemma sort_insert_perm (x : jsval) (l : list jsval) :
  Permutation (x :: l) (sort_insert x l).
Proof.
  induction l as [|y l IH]; simpl; [reflexivity|].
  destruct (sort_le y x); [|reflexivity].
  rewrite perm_swap. now constructor.
Qed.

Lemma sort_insert_sorted (x : jsval) (l : list jsval) :
  Sorted (fun a b => sort_le a b = true) l ->
  Sorted (fun a b => sort_le a b = true) (sort_insert x l).
Proof.
  induction l as [|y l IH]; simpl; intro H.
  - repeat constructor.
  - destruct (sort_le y x) eqn:E.
    + inversion H as [|? ? Hl Hhd]; subst. constructor; [now apply IH|].
      destruct l as [|z l]; simpl.
      * now constructor.
      * destruct (sort_le z x); constructor; [|exact E].
        now inversion Hhd.
    + constructor; [exact H|]. constructor. unfold sort_le in *.
      destruct (String.leb_total (toStr x) (toStr y)); congruence.
Qed.

Lemma sort_fold (l acc : list jsval) :
  Sorted (fun a b => sort_le a b = true) acc ->
  Sorted (fun a b => sort_le a b = true)
         (fold_left (fun acc x => sort_insert x acc) l acc)
  /\ Permutation (l ++ acc) (fold_left (fun acc x => sort_insert x acc) l acc).
Proof.
  revert acc. induction l as [|x l IH]; intros acc H; simpl.
  - split; [exact H | reflexivity].
  - destruct (IH (sort_insert x acc) (sort_insert_sorted x acc H)) as [Hs Hp].
    split; [exact Hs|]. rewrite <- Hp.
    rewrite <- sort_insert_perm. apply Permutation_middle.
Qed.

(** [sort] returns its argument rearranged in the order of [sort_le]. *)
Lemma sort_sorted_perm (l : list jsval) :
  Sorted (fun a b => sort_le a b = true) (sort l) /\ Permutation l (sort l).
Proof.
  destruct (sort_fold l [] (Sorted_nil _)) as [Hs Hp].
  split; [exact Hs|]. now rewrite app_nil_r in Hp.
Qed.

(** ** The match key of a cycle *)

Lemma fetchAllListings_events newDate (cfg : config.t) (w : world)
      (filmInfo : list filmInfo) :
  filter isMakePhoneCall (fst (fetchAllListings newDate cfg w filmInfo)) = [].
Proof.
  unfold fetchAllListings.
  assert (H : forall acc : list event * list theater,
             filter isMakePhoneCall (fst acc) = [] ->
             filter isMakePhoneCall
               (fst (fold_left
                       (fun (acc : list event * list theater) filmInfoItem =>
                          let (events, allTheaterNames) := acc in
                          let (sent, listingsResult) :=
                            fetchTheaterListings newDate cfg w (code filmInfoItem)
                              (releaseDate filmInfoItem) in
                          (events ++ sent,
                           match listingsResult with
                           | ListingsSuccess data =>
                               allTheaterNames ++ getTheaterNames data
                           | ListingsFailure => allTheaterNames
                           end))
                       filmInfo acc)) = []).
  { induction filmInfo as [|item rest IH]; intros [events all] Hacc; simpl.
    - exact Hacc.
    - apply IH. unfold fetchTheaterListings.
      destruct (datedOf newDate (today w) (releaseDate item)); simpl;
        try destruct (listingsCity cfg); simpl;
        rewrite filter_app; simpl in *; now rewrite Hacc. }
  now apply H.
Qed.

Lemma makePhoneCall_events (cfg : config.t) (o : twilioOutcome)
      (matchKey : jsval) (seen : list jsval) :
  filter isMakePhoneCall (snd (fst (makePhoneCall cfg o matchKey seen))) = [].
Proof.
  rewrite makePhoneCall_cases.
  destruct (config.enablePhoneCall cfg && twilioConfigured cfg
            && negb (truthy matchKey && set_has seen matchKey));
    [destruct o|]; reflexivity.
Qed.

(** The trace of a cycle that notifies. *)
Lemma monitor_notifies newDate evalCondition (cfg : config.t) (w : world)
      (seen : list jsval) (status : Z) (data : responseData)
      (events : list event) (d : decision) :
  ping w = PingSuccess status data ->
  checkCondition evalCondition cfg data = true ->
  correlate newDate cfg w (getMovies data) (getAllFilmNames (getMovies data))
            (getMatchingKeywordSets cfg data)
            (truthy (config.targetMovie cfg)
             && hasFilm (getAllFilmNames (getMovies data))
                        (config.targetMovie cfg))
  = (events, Normal d) ->
  shouldNotify d = true ->
  filter isMakePhoneCall
         (trace (monitor newDate evalCondition cfg w seen))
  = filter isMakePhoneCall events
    ++ [EvMakePhoneCall
          (matchKeyOf cfg (getMatchingKeywordSets cfg data)
             (filmCommonCodes d) (cinemaMatch d)
             (truthy (config.targetMovie cfg)
              && hasFilm (getAllFilmNames (getMovies data))
                         (config.targetMovie cfg)))].
Proof.
  intros Hping Hcond Hcor Hnotify. unfold monitor.
  rewrite Hping, Hcond, Hcor, Hnotify.
  match goal with
  | |- context [makePhoneCall cfg ?o ?k seen] =>
      pose proof (makePhoneCall_events cfg o k seen) as Hcalled;
      destruct (makePhoneCall cfg o k seen) as [[callMade called] seen']
  end.
  simpl in *. rewrite filter_app. simpl. now rewrite Hcalled.
Qed.

Lemma length_pos_nonempty {A : Type} (l : list A) :
  l <> [] -> (0 <? List.length l)%nat = true.
Proof. destruct l; [congruence | reflexivity]. Qed.

(** What lines 598-666 leave behind on a keyword-set match. *)
Lemma correlate_keywordMatch newDate (cfg : config.t) (w : world)
      (movies : list movie) (filmNames : list jsval)
      (keywordMatches : list filmMatch) (targetMovieFound : bool)
      (m : cinemaMatchResult) :
  keywordMatches <> [] ->
  checkCinemaKeywords cfg
    (uniqueTheatersOf
       (snd (fetchAllListings newDate cfg w
               (extractFilmInfo movies
                  (flat_map matchingFilms keywordMatches)))))
  = Normal m ->
  correlate newDate cfg w movies filmNames keywordMatches targetMovieFound
  = (fst (fetchAllListings newDate cfg w
            (extractFilmInfo movies (flat_map matchingFilms keywordMatches))),
     Normal {| shouldNotify := matched m;
               cinemaMatch := Some m;
               allMatchingFilms := flat_map matchingFilms keywordMatches;
               filmCommonCodes :=
                 map code (extractFilmInfo movies
                             (flat_map matchingFilms keywordMatches)) |}).
Proof.
  intros Hkm Hcin. unfold correlate.
  rewrite (length_pos_nonempty keywordMatches Hkm).
  destruct (fetchAllListings newDate cfg w
              (extractFilmInfo movies (flat_map matchingFilms keywordMatches)))
    as [events allTheaterNames].
  simpl in Hcin. rewrite Hcin. simpl.
  destruct (keywordsSet (config.cinemaKeywords cfg)) eqn:Hset; [reflexivity|].
  rewrite (checkCinemaKeywords_unset cfg _ Hset) in Hcin.
  injection Hcin as <-. reflexivity.
Qed.

(** C2. In a cycle with a keyword-set film match, at least one film code and
    a notification, [makePhoneCall] is called once, with the key made of the
    sorted film codes joined by commas, then "|", then the sorted names of the
    matching theatres joined by commas, or "all" when there is no matching
    theatre.  Without cinema keywords the matching theatres are all the
    theatres of the cycle, so "all" stands only for a cycle that found no
    theatre.  In the legacy path the key is "legacy|" and the target name. *)
Theorem monitor_matchKey :
  forall (newDate : jsval -> option jsdate)
         (evalCondition : string -> responseData -> option bool)
         (cfg : config.t) (w : world) (phoneCallMade : list jsval)
         (status : Z) (data : responseData),
    ping w = PingSuccess status data ->
    checkCondition evalCondition cfg data = true ->
    let movies := getMovies data in
    let keywordMatches := getMatchingKeywordSets cfg data in
    let filmInfo :=
      extractFilmInfo movies (flat_map matchingFilms keywordMatches) in
    let uniqueTheaters :=
      uniqueTheatersOf (snd (fetchAllListings newDate cfg w filmInfo)) in
    let r := monitor newDate evalCondition cfg w phoneCallMade in
    (keywordMatches <> [] ->
     filmInfo <> [] ->
     forall m,
       checkCinemaKeywords cfg uniqueTheaters = Normal m ->
       matched m = true ->
       filter isMakePhoneCall (trace r)
       = [EvMakePhoneCall
            (JStr (join "," (sort (map code filmInfo)) ++ "|"
                   ++ match matchingTheaters m with
                      | [] => "all"
                      | _ => join "," (sort (map name (matchingTheaters m)))
                      end))]
       /\ (keywordsSet (config.cinemaKeywords cfg) = false ->
           matchingTheaters m = uniqueTheaters)
       /\ (matchingTheaters m = []
           <-> keywordsSet (config.cinemaKeywords cfg) = false
               /\ uniqueTheaters = []))
    /\ (keywordMatches = [] ->
        truthy (config.targetMovie cfg)
        && hasFilm (getAllFilmNames movies) (config.targetMovie cfg) = true ->
        filter isMakePhoneCall (trace r)
        = [EvMakePhoneCall
             (JStr ("legacy|" ++ toStr (config.targetMovie cfg)))])
    /\ (forall l, Sorted (fun a b => sort_le a b = true) (sort l)
                  /\ Permutation l (sort l)).
Proof.
  intros newDate evalCondition cfg w seen status data Hping Hcond
         movies keywordMatches filmInfo uniqueTheaters r.
  split; [|split; [|exact sort_sorted_perm]].
  - intros Hkm Hfi m Hcin Hmatched.
    pose proof (correlate_keywordMatch newDate cfg w movies
                  (getAllFilmNames movies) keywordMatches
                  (truthy (config.targetMovie cfg)
                   && hasFilm (getAllFilmNames movies) (config.targetMovie cfg))
                  m Hkm Hcin) as Hcor.
    split; [|split].
    + unfold r.
      rewrite (monitor_notifies newDate evalCondition cfg w seen status data
                 _ _ Hping Hcond Hcor Hmatched).
      rewrite fetchAllListings_events. simpl. unfold matchKeyOf.
      fold keywordMatches. fold movies. fold filmInfo.
      rewrite (length_pos_nonempty keywordMatches Hkm).
      rewrite length_map, (length_pos_nonempty filmInfo Hfi). simpl.
      now destruct (matchingTheaters m).
    + intro Hset. unfold uniqueTheaters in *.
      rewrite (checkCinemaKeywords_unset cfg _ Hset) in Hcin.
      now injection Hcin as <-.
    + destruct (keywordsSet (config.cinemaKeywords cfg)) eqn:Hset.
      * split; [|intros [? _]; discriminate].
        intro Hnil. exfalso.
        now apply (checkCinemaKeywords_matched_nonempty
                     cfg uniqueTheaters m Hset Hcin Hmatched).
      * rewrite (checkCinemaKeywords_unset cfg _ Hset) in Hcin.
        injection Hcin as <-. simpl. tauto.
  - intros Hkm Htarget. unfold r.
    assert (Hcor : correlate newDate cfg w movies (getAllFilmNames movies)
                     keywordMatches
                     (truthy (config.targetMovie cfg)
                      && hasFilm (getAllFilmNames movies)
                                 (config.targetMovie cfg))
                   = ([], Normal
                            {| shouldNotify := true;
                               cinemaMatch := None;
                               allMatchingFilms :=
                                 filter
                                   (fun name =>
                                      includes (toLowerCase (toStr name))
                                        (toLowerCase
                                           (toStr (config.targetMovie cfg))))
                                   (getAllFilmNames movies);
                               filmCommonCodes := [] |})).
    { unfold correlate. rewrite Hkm, Htarget. reflexivity. }
    rewrite (monitor_notifies newDate evalCondition cfg w seen status data
               _ _ Hping Hcond Hcor eq_refl).
    simpl. unfold matchKeyOf. fold movies. fold keywordMatches.
    rewrite Hkm, Htarget. reflexivity.
Qed.

Lemma monitor_matchKey_witness :
  filter isMakePhoneCall
    (trace (monitor sampleNewDate sampleEval
              (sampleConfigCinema [Some [JStr "orion"]])
              (sampleWorld ["PVR Orion Mall"; "INOX Garuda"]) []))
  = [EvMakePhoneCall (JStr "F1|PVR Orion Mall")].
Proof.
  exact (proj1 (proj1 (monitor_matchKey sampleNewDate sampleEval
                         (sampleConfigCinema [Some [JStr "orion"]])
                         (sampleWorld ["PVR Orion Mall"; "INOX Garuda"]) []
                         200%Z {| output_mv := Some sampleMovies |}
                         eq_refl eq_refl)
                      ltac:(discriminate) ltac:(discriminate)
                      {| matched := true;
                         matchingTheaters :=
                           [{| name := JStr "PVR Orion Mall";
                               theatreId := JNum 1; showCount := JNum 3;
                               cityName := JStr "Bengaluru";
                               address1 := JNull |}];
                         matchedSets :=
                           [{| smKeywordSet := [JStr "orion"];
                               smSetIndex := 0 |}] |}
                      eq_refl eq_refl)).
Defined.

(** Without cinema keywords the key names the theatres that were found, not
    "all". *)
Lemma matchKey_names_theaters_without_cinema_keywords :
  config.cinemaKeywords sampleConfig = None
  /\ filter isMakePhoneCall
       (trace (monitor sampleNewDate sampleEval sampleConfig
                 (sampleWorld ["PVR Orion Mall"]) []))
     = [EvMakePhoneCall (JStr "F1|PVR Orion Mall")]
  /\ JStr "F1|PVR Orion Mall" <> JStr "F1|all".
Proof. split; [reflexivity|]. split; [reflexivity | discriminate]. Qed.

(** ** Scenarios *)

Example toStr_numbers :
  toStr (JNum 11) = "11" /\ toStr (JNum 0) = "0" /\ toStr (JNum (-3)) = "-3".
Proof. repeat split. Qed.

Example keyword_set_matches_case_insensitively :
  checkKeywordSets (Some [Some [JStr "spider"; JStr "NO WAY HOME"]; Some [JStr "Dune"]])
    [JStr "Spider-Man: No Way Home"; JStr "Avatar"]
  = [{| fmKeywordSet := Some [JStr "spider"; JStr "NO WAY HOME"];
        matchingFilms := [JStr "Spider-Man: No Way Home"];
        fmSetIndex := 0 |}].
Proof. reflexivity. Qed.

Example sort_orders_by_character_code :
  join "," (sort [JStr "b"; JStr "a"; JNum 10; JStr "B"]) = "10,B,a,b".
Proof. reflexivity. Qed.

Example manual_parsing_of_a_month_name :
  manualParse (JStr "Released Nov 14, 2025") = Normal (JStr "2025-11-14").
Proof. reflexivity. Qed.

(** "Nov 14, 2025" normalises to "2025-11-14"; on 1 November 2026 the lookup
    sends today's date. *)
Example past_release_date_uses_today :
  convertReleaseDateToAPIFormat sampleNewDate (JStr "Nov 14, 2025")
  = Normal (JStr "2025-11-14")
  /\ datedOf sampleNewDate sampleToday (JStr "Nov 14, 2025")
     = Normal (JStr "2026-11-01").
Proof. split; reflexivity. Qed.

(** A date known for a code is kept when the code comes again without one. *)
Example known_date_is_kept :
  extractFilmInfo
    [{| mv_filmName := JStr "Dune"; mv_releaseDate := JNull;
        mv_year := JNum 2027; mv_month := JNum 3; mv_day := JNum 9;
        mv_films := Some [{| fm_filmName := JStr "Dune";
                             fm_filmCommonCode := JStr "D1";
                             fm_releaseDate := JNull |}] |};
     {| mv_filmName := JStr "Dune"; mv_releaseDate := JNull;
        mv_year := JNull; mv_month := JNull; mv_day := JNull;
        mv_films := Some [{| fm_filmName := JStr "Dune";
                             fm_filmCommonCode := JStr "D1";
                             fm_releaseDate := JNull |}] |}]
    [JStr "Dune"]
  = [{| code := JStr "D1"; releaseDate := JStr "2027-03-09" |}].
Proof. reflexivity. Qed.

(** With the cinema keyword set ["IMAX"], only the IMAX theatre matches and
    the key names only it. *)
Example imax_only :
  filter isMakePhoneCall
    (trace (monitor sampleNewDate sampleEval
              (sampleConfigCinema [Some [JStr "IMAX"]])
              (sampleWorld ["City Mall - Digital"; "City Mall - IMAX"]) []))
  = [EvMakePhoneCall (JStr "F1|City Mall - IMAX")].
Proof. reflexivity. Qed.

(** Two identical polls: both notify, the first places the call, the second
    finds the key recorded and does not. *)
Example second_poll_is_not_escalated :
  map (fun r => (List.length (filter isTelegram (trace r)),
                 filter isEscalation (trace r)))
      (monitorAll sampleNewDate sampleEval sampleConfig
                  [sampleWorld ["PVR"]; sampleWorld ["PVR"]] [])
  = [(1%nat, [EvMakePhoneCall (JStr "F1|PVR"); EvTwilio CallCreated]);
     (1%nat, [EvMakePhoneCall (JStr "F1|PVR")])].
Proof. reflexivity. Qed.

(** Cinema keywords that match no theatre: the lookups are made and nothing
    else. *)
Example no_cinema_match_no_notification :
  trace (monitor sampleNewDate sampleEval
           (sampleConfigCinema [Some [JStr "IMAX"]])
           (sampleWorld ["City Mall - Digital"]) [])
  = [EvPing; EvListings (JStr "F1") (JStr "2027-12-25")].
Proof. reflexivity. Qed.

(** * Further properties of the monitor's functions *)

(** ** Strings *)

Lemma prefix_app (sub s : string) :
  String.prefix sub s = true <-> exists post, s = (sub ++ post)%string.
Proof.
  revert s. induction sub as [|c sub IH]; intro s.
  - split; [intros _; now exists s | now destruct s].
  - destruct s as [|c' s]; simpl.
    + split; [discriminate | intros [post H]; discriminate H].
    + destruct (ascii_dec c c') as [->|Hne].
      * rewrite IH. split; intros [post H]; exists post.
        -- now rewrite H.
        -- now injection H.
      * split; [discriminate|]. intros [post H]. injection H as H1 H2.
        congruence.
Qed.

(** [includes] is the substring test. *)
Lemma includes_substring (s sub : string) :
  includes s sub = true <-> exists pre post, s = (pre ++ sub ++ post)%string.
Proof.
  induction s as [|c s IH]; cbn [includes].
  - rewrite orb_false_r, prefix_app. split.
    + intros [post H]. now exists "", post.
    + intros [[|c pre] [post H]]; [now exists post | discriminate H].
  - rewrite orb_true_iff, prefix_app, IH. split.
    + intros [[post H] | [pre [post H]]].
      * now exists "", post.
      * exists (String c pre), post. simpl. now rewrite H.
    + intros [[|c' pre] [post H]].
      * left. now exists post.
      * right. injection H as _ H. now exists pre, post.
Qed.

Lemma lower_ascii_idempotent (c : ascii) :
  lower_ascii (lower_ascii c) = lower_ascii c.
Proof.
  unfold lower_ascii. destruct (is_upper c) eqn:E; [|now rewrite E].
  unfold is_upper in *. apply andb_true_iff in E. destruct E as [E1 E2].
  apply Nat.leb_le in E1, E2.
  rewrite nat_ascii_embedding by lia.
  destruct (Nat.leb_spec (nat_of_ascii c + 32) 90); [lia|].
  now rewrite andb_false_r.
Qed.

Lemma toLowerCase_idempotent (s : string) :
  toLowerCase (toLowerCase s) = toLowerCase s.
Proof.
  induction s as [|c s IH]; simpl; [reflexivity|].
  now rewrite lower_ascii_idempotent, IH.
Qed.

(** ** Film names *)

Lemma set_add_In (v x : jsval) (s : list jsval) :
  In x (set_add v s) <-> x = v \/ In x s.
Proof.
  unfold set_add. destruct (existsb (jsval_eqb v) s) eqn:E.
  - apply existsb_exists in E. destruct E as [y [Hy Heq]].
    apply jsval_eqb_eq in Heq. subst y. intuition congruence.
  - rewrite in_app_iff. simpl. intuition congruence.
Qed.

Lemma set_add_NoDup (v : jsval) (s : list jsval) :
  NoDup s -> NoDup (set_add v s).
Proof.
  intro H. unfold set_add. destruct (existsb (jsval_eqb v) s) eqn:E; [exact H|].
  apply NoDup_app; [exact H | repeat constructor; simpl; tauto |].
  intros x Hx [Hxv|[]]. subst x.
  assert (existsb (jsval_eqb v) s = true); [|congruence].
  apply existsb_exists. exists v. split; [exact Hx | apply jsval_eqb_refl].
Qed.

Lemma filmNames_of_films (films : list film) (filmNames : list jsval) :
  let r := fold_left
             (fun filmNames film =>
                if truthy (fm_filmName film)
                then set_add (fm_filmName film) filmNames else filmNames)
             films filmNames in
  (NoDup filmNames -> NoDup r)
  /\ (forall n, In n r <-> In n filmNames
                          \/ (truthy n = true
                              /\ exists film, In film films
                                              /\ fm_filmName film = n)).
Proof.
  revert filmNames. induction films as [|film films IH]; intro filmNames; simpl.
  - split; [tauto|]. intro n. split; [tauto|].
    intros [H|[_ [? [[] _]]]]. exact H.
  - destruct (IH (if truthy (fm_filmName film)
                  then set_add (fm_filmName film) filmNames else filmNames))
      as [Hnd Hin].
    split.
    + intro H. apply Hnd.
      destruct (truthy (fm_filmName film)); [now apply set_add_NoDup | exact H].
    + intro n. rewrite Hin. clear Hnd Hin IH.
      destruct (truthy (fm_filmName film)) eqn:Ht.
      * rewrite set_add_In. split.
        -- intros [[->|H]|[Hn [f [Hf Hname]]]].
           ++ right. split; [exact Ht|]. exists film. auto.
           ++ now left.
           ++ right. split; [exact Hn|]. exists f. auto.
        -- intros [H|[Hn [f [[<-|Hf] Hname]]]].
           ++ left. now right.
           ++ left. left. now symmetry.
           ++ right. split; [exact Hn|]. now exists f.
      * split.
        -- intros [H|[Hn [f [Hf Hname]]]]; [now left|].
           right. split; [exact Hn|]. exists f. auto.
        -- intros [H|[Hn [f [[<-|Hf] Hname]]]]; [now left | congruence |].
           right. split; [exact Hn|]. now exists f.
Qed.

Lemma getAllFilmNames_In (movies : list movie) :
  NoDup (getAllFilmNames movies)
  /\ (forall n, In n (getAllFilmNames movies)
                <-> truthy n = true
                    /\ exists movie, In movie movies /\ namedIn n movie).
Proof.
  unfold getAllFilmNames.
  assert (H : forall filmNames,
             let r := fold_left
                        (fun filmNames movie =>
                           let filmNames :=
                             if truthy (mv_filmName movie)
                             then set_add (mv_filmName movie) filmNames
                             else filmNames in
                           match mv_films movie with
                           | Some films =>
                               fold_left
                                 (fun filmNames film =>
                                    if truthy (fm_filmName film)
                                    then set_add (fm_filmName film) filmNames
                                    else filmNames)
                                 films filmNames
                           | None => filmNames
                           end)
                        movies filmNames in
             (NoDup filmNames -> NoDup r)
             /\ (forall n, In n r <-> In n filmNames
                                     \/ (truthy n = true
                                         /\ exists movie, In movie movies
                                                          /\ namedIn n movie))).
  { induction movies as [|movie movies IH]; intro filmNames; simpl.
    - split; [tauto|]. intro n. split; [tauto|].
      intros [H|[_ [? [[] _]]]]. exact H.
    - set (own := if truthy (mv_filmName movie)
                  then set_add (mv_filmName movie) filmNames else filmNames).
      assert (Hown_nd : NoDup filmNames -> NoDup own).
      { intro H. unfold own. destruct (truthy (mv_filmName movie));
          [now apply set_add_NoDup | exact H]. }
      assert (Hown_in : forall n, In n own
                                  <-> In n filmNames
                                      \/ (truthy n = true
                                          /\ mv_filmName movie = n)).
      { intro n. unfold own. destruct (truthy (mv_filmName movie)) eqn:Ht.
        - rewrite set_add_In. split.
          + intros [->|H]; [right; auto | now left].
          + intros [H|[_ H]]; [now right | left; now symmetry].
        - split; [now left|]. intros [H|[Hn H]]; [exact H | congruence]. }
      unfold namedIn.
      destruct (mv_films movie) as [films|] eqn:Hfilms.
      + destruct (filmNames_of_films films own) as [Hnd Hin]. cbv zeta in *.
        destruct (IH (fold_left
                        (fun filmNames film =>
                           if truthy (fm_filmName film)
                           then set_add (fm_filmName film) filmNames
                           else filmNames) films own)) as [IHnd IHin].
        split; [auto|]. intro n. rewrite IHin, Hin, Hown_in. split.
        * intros [[[H|[Hn H]]|[Hn [f [Hf H]]]]|[Hn [m [Hm H]]]].
          -- now left.
          -- right. split; [exact Hn|]. exists movie. auto.
          -- right. split; [exact Hn|]. exists movie. split; [now left|].
             right. rewrite Hfilms. now exists films, f.
          -- right. split; [exact Hn|]. exists m. auto.
        * intros [H|[Hn [m [[<-|Hm] H]]]].
          -- left. left. now left.
          -- left. destruct H as [H|[fs [f [Hfs [Hf H]]]]].
             ++ left. right. auto.
             ++ right. split; [exact Hn|]. rewrite Hfilms in Hfs.
                injection Hfs as <-. now exists f.
          -- right. split; [exact Hn|]. now exists m.
      + destruct (IH own) as [IHnd IHin].
        split; [auto|]. intro n. rewrite IHin, Hown_in. split.
        * intros [[H|[Hn H]]|[Hn [m [Hm H]]]].
          -- now left.
          -- right. split; [exact Hn|]. exists movie. auto.
          -- right. split; [exact Hn|]. exists m. auto.
        * intros [H|[Hn [m [[<-|Hm] H]]]].
          -- left. now left.
          -- destruct H as [H|[fs [f [Hfs _]]]]; [|congruence].
             left. right. auto.
          -- right. split; [exact Hn|]. now exists m. }
  destruct (H []) as [Hnd Hin]. cbv zeta in *. split.
  - apply Hnd. constructor.
  - intro n. rewrite Hin. simpl. tauto.
Qed.

(** X1. [getAllFilmNames] returns each name once, and returns exactly the
    truthy values that are the name of a movie or of one of its films. *)
Theorem getAllFilmNames_spec :
  forall (movies : list movie),
    NoDup (getAllFilmNames movies)
    /\ (forall n, In n (getAllFilmNames movies)
                  <-> truthy n = true
                      /\ exists movie, In movie movies /\ namedIn n movie).
Proof. exact getAllFilmNames_In. Qed.

(** ** Keyword matcher *)

Lemma fold_left_push_filter {A : Type} (p : A -> bool) (l acc : list A) :
  fold_left (fun acc x => if p x then acc ++ [x] else acc) l acc
  = acc ++ filter p l.
Proof.
  revert acc. induction l as [|x l IH]; intro acc; simpl.
  - now rewrite app_nil_r.
  - rewrite IH. destruct (p x); [|reflexivity].
    now rewrite <- app_assoc.
Qed.

Lemma checkKeywordSet_filter (keyword : jsval) (keywords filmNames : list jsval) :
  checkKeywordSet (Some (keyword :: keywords)) filmNames
  = filter (allKeywordsFound (keyword :: keywords)) filmNames.
Proof. unfold checkKeywordSet. now rewrite fold_left_push_filter. Qed.

Lemma allKeywordsFound_substrings (keywords : list jsval) (n : jsval) :
  allKeywordsFound keywords n = true
  <-> forall kw, In kw keywords ->
                 exists pre post,
                   toLowerCase (toStr n)
                   = (pre ++ toLowerCase (toStr kw) ++ post)%string.
Proof.
  unfold allKeywordsFound. rewrite forallb_forall.
  split; intros H kw Hkw; apply includes_substring; auto.
Qed.

(** X2. For a non-empty keyword set, [checkKeywordSet] returns the film
    names, in the order given, whose lower-cased text contains the
    lower-cased text of every keyword as a substring. *)
Theorem checkKeywordSet_spec :
  forall (keyword : jsval) (keywords filmNames : list jsval),
    checkKeywordSet (Some (keyword :: keywords)) filmNames
    = filter (allKeywordsFound (keyword :: keywords)) filmNames
    /\ (forall n,
           In n (checkKeywordSet (Some (keyword :: keywords)) filmNames)
           <-> In n filmNames
               /\ forall kw, In kw (keyword :: keywords) ->
                             exists pre post,
                               toLowerCase (toStr n)
                               = (pre ++ toLowerCase (toStr kw) ++ post)%string).
Proof.
  intros keyword keywords filmNames.
  split; [apply checkKeywordSet_filter|].
  intro n. rewrite checkKeywordSet_filter, filter_In.
  now rewrite allKeywordsFound_substrings.
Qed.

Lemma allKeywordsFound_lower (keywords keywords' : list jsval) (n n' : jsval) :
  map (fun k => toLowerCase (toStr k)) keywords
  = map (fun k => toLowerCase (toStr k)) keywords' ->
  toLowerCase (toStr n) = toLowerCase (toStr n') ->
  allKeywordsFound keywords n = allKeywordsFound keywords' n'.
Proof.
  unfold allKeywordsFound. intros Hk Hn. rewrite Hn. clear Hn.
  revert keywords' Hk.
  induction keywords as [|k ks IH]; intros [|k' ks'] Hk; simpl in *;
    try discriminate; [reflexivity|].
  injection Hk as Hk Hks. now rewrite Hk, (IH ks' Hks).
Qed.

(** X3. Keyword matching ignores case: keyword sets that differ only in the
    case of their keywords select the same film names, and a keyword set
    matches a name exactly when it matches the name in another case. *)
Theorem checkKeywordSet_ignores_case :
  forall (keywords keywords' : list jsval),
    map (fun k => toLowerCase (toStr k)) keywords
    = map (fun k => toLowerCase (toStr k)) keywords' ->
    (forall filmNames,
        checkKeywordSet (Some keywords) filmNames
        = checkKeywordSet (Some keywords') filmNames)
    /\ (forall n n',
           toLowerCase (toStr n) = toLowerCase (toStr n') ->
           checkKeywordSet (Some keywords) [n] = []
           <-> checkKeywordSet (Some keywords') [n'] = []).
Proof.
  intros keywords keywords' Hk. split.
  - intro filmNames.
    destruct keywords as [|k ks], keywords' as [|k' ks']; try discriminate Hk;
      [reflexivity|].
    rewrite !checkKeywordSet_filter. apply filter_ext. intro n.
    now apply allKeywordsFound_lower.
  - intros n n' Hn.
    destruct keywords as [|k ks], keywords' as [|k' ks']; try discriminate Hk;
      [tauto|].
    rewrite !checkKeywordSet_filter. cbn [filter].
    rewrite (allKeywordsFound_lower (k :: ks) (k' :: ks') n n' Hk Hn).
    destruct (allKeywordsFound (k' :: ks') n'); split; congruence.
Qed.

Lemma checkKeywordSet_ignores_case_witness :
  checkKeywordSet (Some [JStr "SPIDER"; JStr "no way HOME"])
    [JStr "Spider-Man: No Way Home"; JStr "Dune"]
  = checkKeywordSet (Some [JStr "spider"; JStr "No Way Home"])
      [JStr "Spider-Man: No Way Home"; JStr "Dune"].
Proof.
  exact (proj1 (checkKeywordSet_ignores_case
                  [JStr "SPIDER"; JStr "no way HOME"]
                  [JStr "spider"; JStr "No Way Home"] eq_refl)
               [JStr "Spider-Man: No Way Home"; JStr "Dune"]).
Defined.

Lemma StronglySorted_snoc (l : list nat) (x : nat) :
  StronglySorted lt l -> Forall (fun i => i < x)%nat l ->
  StronglySorted lt (l ++ [x]).
Proof.
  induction l as [|y l IH]; simpl; intros Hs Hall.
  - repeat constructor.
  - inversion Hs; subst. inversion Hall; subst.
    constructor; [now apply IH|].
    apply Forall_app. split; [assumption | now repeat constructor].
Qed.

Lemma checkKeywordSets_from_spec (filmNames : list jsval) :
  forall (keywordSets : list keywordSet) (index : nat)
         (matches : list filmMatch),
    let r := checkKeywordSets_from index keywordSets filmNames matches in
    (forall m, In m r
               <-> In m matches
                   \/ ((index <= fmSetIndex m)%nat
                       /\ nth_error keywordSets (fmSetIndex m - index)
                          = Some (fmKeywordSet m)
                       /\ matchingFilms m
                          = checkKeywordSet (fmKeywordSet m) filmNames
                       /\ matchingFilms m <> []))
    /\ (StronglySorted lt (map fmSetIndex matches) ->
        Forall (fun i => i < index)%nat (map fmSetIndex matches) ->
        StronglySorted lt (map fmSetIndex r)).
Proof.
  induction keywordSets as [|keywordSet rest IH]; intros index matches; simpl.
  - split; [|tauto]. intro m. split; [tauto|].
    intros [H|[_ [H _]]]; [exact H|]. now destruct (fmSetIndex m - index)%nat.
  - set (found := checkKeywordSet keywordSet filmNames).
    set (matches' := if (0 <? List.length found)%nat
                     then matches ++ [{| fmKeywordSet := keywordSet;
                                         matchingFilms := found;
                                         fmSetIndex := index |}]
                     else matches).
    destruct (IH (S index) matches') as [Hin Hsorted]. cbv zeta in *. split.
    + intro m. rewrite Hin. clear Hin Hsorted IH. unfold matches'. split.
      * intros [H|[Hle [Hnth [Hm Hne]]]].
        -- destruct found as [|x found'] eqn:Hfound; simpl in H; [now left|].
           apply in_app_iff in H. destruct H as [H|[<-|[]]]; [now left|].
           right. simpl. rewrite Nat.sub_diag. simpl. fold found.
           rewrite Hfound. repeat split; [lia | discriminate].
        -- right. split; [lia|].
           replace (fmSetIndex m - index)%nat
             with (S (fmSetIndex m - S index)) by lia.
           simpl. auto.
      * intros [H|[Hle [Hnth [Hm Hne]]]].
        -- left. destruct (0 <? List.length found)%nat; [|exact H].
           apply in_app_iff. now left.
        -- destruct (Nat.eq_dec (fmSetIndex m) index) as [Heq|Hneq].
           ++ left. rewrite Heq, Nat.sub_diag in Hnth. simpl in Hnth.
              injection Hnth as Hks. rewrite <- Hks in Hm. fold found in Hm.
              rewrite Hm in Hne.
              destruct found as [|x found'] eqn:Hfound; [now elim Hne|].
              simpl. apply in_app_iff. right. left.
              destruct m as [ks mf i]. simpl in *. now subst.
           ++ right. split; [lia|].
              replace (fmSetIndex m - index)%nat
                with (S (fmSetIndex m - S index)) in Hnth by lia.
              simpl in Hnth. auto.
    + intros Hs Hall. apply Hsorted; unfold matches'.
      * destruct (0 <? List.length found)%nat; [|exact Hs].
        rewrite map_app. simpl. now apply StronglySorted_snoc.
      * destruct (0 <? List.length found)%nat.
        -- rewrite map_app. apply Forall_app. split.
           ++ eapply Forall_impl; [|exact Hall]. simpl. lia.
           ++ repeat constructor.
        -- eapply Forall_impl; [|exact Hall]. simpl. lia.
Qed.

(** X4. [checkKeywordSets] reports a configured keyword set exactly when it
    matches some film name: the entry carries the set, its position in the
    configuration as [setIndex] and its matching films, and the entries come
    in the order of the configuration, each set at most once. *)
Theorem checkKeywordSets_spec :
  forall (keywordSets : list keywordSet) (filmNames : list jsval),
    (forall m,
        In m (checkKeywordSets (Some keywordSets) filmNames)
        <-> nth_error keywordSets (fmSetIndex m) = Some (fmKeywordSet m)
            /\ matchingFilms m = checkKeywordSet (fmKeywordSet m) filmNames
            /\ matchingFilms m <> [])
    /\ StronglySorted lt
         (map fmSetIndex (checkKeywordSets (Some keywordSets) filmNames)).
Proof.
  intros keywordSets filmNames.
  destruct (checkKeywordSets_from_spec filmNames keywordSets 0 [])
    as [Hin Hsorted]. cbv zeta in *.
  assert (Heq : checkKeywordSets (Some keywordSets) filmNames
                = checkKeywordSets_from 0 keywordSets filmNames []).
  { now destruct keywordSets. }
  rewrite Heq. split.
  - intro m. rewrite Hin, Nat.sub_0_r. simpl. split.
    + intros [[]|[_ H]]. exact H.
    + intro H. right. split; [lia | exact H].
  - apply Hsorted; constructor.
Qed.

(** ** Theatres *)

(** X5. [getTheaterNames] never returns a theatre without a name, gives a
    show count that is missing or falsy the value 0, returns at most one
    theatre per session, and returns nothing when the response has no array of
    sessions. *)
Theorem getTheaterNames_spec :
  forall (data : listingsData),
    Forall (fun t => truthy (name t) = true
                     /\ (truthy (showCount t) = true \/ showCount t = JNum 0))
           (getTheaterNames data)
    /\ (forall sessions,
           movieCinemaSessions data = Some sessions ->
           (List.length (getTheaterNames data) <= List.length sessions)%nat)
    /\ (movieCinemaSessions data = None -> getTheaterNames data = []).
Proof.
  intro data. unfold getTheaterNames.
  destruct (movieCinemaSessions data) as [sessions|];
    [|split; [constructor | split; [discriminate | reflexivity]]].
  assert (H : forall acc : list theater,
             let r := fold_left
                        (fun theaterNames session =>
                           match ss_cinema session with
                           | Some cinema =>
                               if truthy (cn_name cinema)
                               then theaterNames ++
                                    [{| name := cn_name cinema;
                                        theatreId := cn_theatreId cinema;
                                        showCount :=
                                          jsor (ss_showCount session) (JNum 0);
                                        cityName := cn_cityName cinema;
                                        address1 := cn_address1 cinema |}]
                               else theaterNames
                           | None => theaterNames
                           end)
                        sessions acc in
             (Forall (fun t => truthy (name t) = true
                               /\ (truthy (showCount t) = true
                                   \/ showCount t = JNum 0)) acc ->
              Forall (fun t => truthy (name t) = true
                               /\ (truthy (showCount t) = true
                                   \/ showCount t = JNum 0)) r)
             /\ (List.length r <= List.length acc + List.length sessions)%nat).
  { induction sessions as [|session sessions IH]; intro acc; simpl.
    - split; [tauto | lia].
    - destruct (ss_cinema session) as [cinema|].
      + destruct (truthy (cn_name cinema)) eqn:Hn.
        * match goal with
          | |- context [fold_left _ sessions ?a] => destruct (IH a) as [IH1 IH2]
          end.
          cbv zeta in *. split.
          -- intro Hacc. apply IH1. apply Forall_app. split; [exact Hacc|].
             constructor; [|constructor]. simpl. split; [exact Hn|].
             unfold jsor. destruct (truthy (ss_showCount session)) eqn:Hs; auto.
          -- rewrite length_app in IH2. simpl in IH2. lia.
        * destruct (IH acc) as [IH1 IH2]. cbv zeta in *. split; [exact IH1 | lia].
      + destruct (IH acc) as [IH1 IH2]. cbv zeta in *. split; [exact IH1 | lia]. }
  destruct (H []) as [H1 H2]. cbv zeta in *.
  split; [apply H1; constructor|]. split; [|discriminate].
  intros sessions' Heq. injection Heq as <-. exact H2.
Qed.

Lemma theaters_set_names (m : list theater) (t : theater) :
  map name (theaters_set m t)
  = if existsb (fun t' => jsval_eqb (name t) (name t')) m
    then map name m else map name m ++ [name t].
Proof.
  induction m as [|t' m IH]; simpl; [reflexivity|].
  destruct (jsval_eqb (name t) (name t')) eqn:E; simpl.
  - apply jsval_eqb_eq in E. now rewrite E.
  - rewrite IH. now destruct (existsb _ m).
Qed.

Lemma theaters_set_find (m : list theater) (t : theater) (n : jsval) :
  findByName n (theaters_set m t)
  = if jsval_eqb (name t) n then Some t else findByName n m.
Proof.
  unfold findByName. induction m as [|t' m IH]; simpl.
  - now destruct (jsval_eqb (name t) n).
  - destruct (jsval_eqb (name t) (name t')) eqn:E; simpl.
    + apply jsval_eqb_eq in E. rewrite <- E.
      now destruct (jsval_eqb (name t) n).
    + destruct (jsval_eqb (name t') n) eqn:E'.
      * apply jsval_eqb_eq in E'. subst n. now rewrite E.
      * exact IH.
Qed.

Lemma existsb_name_In (m : list theater) (n : jsval) :
  existsb (fun t' => jsval_eqb n (name t')) m = true <-> In n (map name m).
Proof.
  rewrite existsb_exists, in_map_iff. split.
  - intros [t [Ht E]]. apply jsval_eqb_eq in E. now exists t.
  - intros [t [E Ht]]. exists t. split; [exact Ht|]. now apply jsval_eqb_eq.
Qed.

Lemma theaters_set_NoDup (m : list theater) (t : theater) :
  NoDup (map name m) -> NoDup (map name (theaters_set m t)).
Proof.
  intro H. rewrite theaters_set_names.
  destruct (existsb (fun t' => jsval_eqb (name t) (name t')) m) eqn:E;
    [exact H|].
  apply NoDup_app; [exact H | repeat constructor; simpl; tauto |].
  intros x Hx [Hxt|[]]. subst x. apply existsb_name_In in Hx. congruence.
Qed.

Lemma uniqueTheaters_fold (l m : list theater) :
  let r := fold_left theaters_set l m in
  (NoDup (map name m) -> NoDup (map name r))
  /\ (forall n, In n (map name r) <-> In n (map name m) \/ In n (map name l))
  /\ (forall n, findByName n r
                = match lastWithName n l with
                  | Some t => Some t
                  | None => findByName n m
                  end).
Proof.
  revert m. induction l as [|t l IH]; intro m; simpl.
  - repeat split; tauto.
  - destruct (IH (theaters_set m t)) as [Hnd [Hin Hfind]]. cbv zeta in *.
    split; [|split].
    + intro H. now apply Hnd, theaters_set_NoDup.
    + intro n. rewrite Hin, theaters_set_names.
      destruct (existsb (fun t' => jsval_eqb (name t) (name t')) m) eqn:E.
      * apply existsb_name_In in E. intuition congruence.
      * rewrite in_app_iff. simpl. tauto.
    + intro n. rewrite Hfind, theaters_set_find.
      destruct (lastWithName n l); [reflexivity|].
      now destruct (jsval_eqb (name t) n).
Qed.

Lemma findByName_In (m : list theater) (t : theater) :
  NoDup (map name m) -> (In t m <-> findByName (name t) m = Some t).
Proof.
  unfold findByName. induction m as [|t' m IH]; simpl; intro Hnd.
  - split; [tauto | discriminate].
  - inversion Hnd as [|? ? Hnotin Hnd']; subst.
    destruct (jsval_eqb (name t') (name t)) eqn:E.
    + apply jsval_eqb_eq in E. split.
      * intros [->|Hin]; [reflexivity|].
        elim Hnotin. rewrite E. now apply in_map.
      * intro H. injection H as ->. now left.
    + rewrite <- (IH Hnd'). split; [|tauto].
      intros [->|Hin]; [|exact Hin]. now rewrite jsval_eqb_refl in E.
Qed.

(** X6. The theatres of a cycle, made unique through a [Map] keyed by name:
    no two have the same name, the names are those of the theatres found, and
    for each name the theatre kept is the last one found with that name. *)
Theorem uniqueTheatersOf_spec :
  forall (allTheaterNames : list theater),
    NoDup (map name (uniqueTheatersOf allTheaterNames))
    /\ (forall n, In n (map name (uniqueTheatersOf allTheaterNames))
                  <-> In n (map name allTheaterNames))
    /\ (forall t, In t (uniqueTheatersOf allTheaterNames)
                  <-> lastWithName (name t) allTheaterNames = Some t).
Proof.
  intro l. unfold uniqueTheatersOf.
  destruct (uniqueTheaters_fold l []) as [Hnd [Hin Hfind]]. cbv zeta in *.
  assert (Hnd' := Hnd (NoDup_nil _)).
  split; [exact Hnd'|]. split.
  - intro n. rewrite Hin. simpl. tauto.
  - intro t. rewrite (findByName_In _ t Hnd'), Hfind.
    destruct (lastWithName (name t) l); [tauto|].
    split; discriminate.
Qed.

(** ** Cinema matcher *)

Lemma existsb_name_sym (m : list theater) (th : theater) :
  existsb (fun t => jsval_eqb (name t) (name th)) m
  = existsb (fun t' => jsval_eqb (name th) (name t')) m.
Proof.
  induction m as [|t m IH]; simpl; [reflexivity|].
  now rewrite IH, jsval_eqb_sym.
Qed.

Lemma checkCinemaKeywords_theaters_filter (keywordSets : list keywordSet) :
  forall (theaterNames : list theater) (matches : list setMatch)
         (acc : list theater) (r : list setMatch * list theater),
    NoDup (map name (acc ++ theaterNames)) ->
    checkCinemaKeywords_theaters keywordSets theaterNames (matches, acc)
    = Normal r ->
    snd r = acc ++ filter (satisfiesSome keywordSets) theaterNames.
Proof.
  induction theaterNames as [|th rest IH]; intros matches acc r Hnd H;
    simpl in H.
  - injection H as <-. simpl. now rewrite app_nil_r.
  - destruct (checkCinemaKeywords_sets th 0 keywordSets (matches, acc))
      as [[matches' acc']|] eqn:Hsets; [|discriminate H].
    apply checkCinemaKeywords_sets_spec in Hsets. cbn [fst snd] in Hsets.
    destruct Hsets as [Hacc' _].
    assert (Hfresh : existsb (fun t => jsval_eqb (name t) (name th)) acc
                     = false).
    { rewrite existsb_name_sym.
      destruct (existsb (fun t' => jsval_eqb (name th) (name t')) acc) eqn:E;
        [|reflexivity].
      apply existsb_name_In in E. rewrite map_app in Hnd. simpl in Hnd.
      apply NoDup_remove_2 in Hnd. elim Hnd. apply in_app_iff. now left. }
    rewrite Hfresh in Hacc'. cbn [filter].
    destruct (satisfiesSome keywordSets th).
    + subst acc'. rewrite (IH matches' (acc ++ [th]) r); [|  | exact H].
      * now rewrite <- app_assoc.
      * now rewrite <- app_assoc.
    + subst acc'. apply (IH matches' acc r); [|exact H].
      rewrite map_app in *. simpl in Hnd. now apply NoDup_remove_1 in Hnd.
Qed.

(** X7. With cinema keywords configured and theatres of distinct names, the
    matching theatres of [checkCinemaKeywords] are the theatres, in the order
    given, whose name contains every keyword of some set, and [matched] says
    whether there is one. *)
Theorem checkCinemaKeywords_filter :
  forall (cfg : config.t) (set : keywordSet) (sets : list keywordSet)
         (theaterNames : list theater) (r : cinemaMatchResult),
    config.cinemaKeywords cfg = Some (set :: sets) ->
    NoDup (map name theaterNames) ->
    checkCinemaKeywords cfg theaterNames = Normal r ->
    matchingTheaters r = filter (satisfiesSome (set :: sets)) theaterNames
    /\ matched r = existsb (satisfiesSome (set :: sets)) theaterNames.
Proof.
  intros cfg set sets theaterNames r Hcfg Hnd H.
  unfold checkCinemaKeywords in H. rewrite Hcfg in H.
  destruct (checkCinemaKeywords_theaters (set :: sets) theaterNames ([], []))
    as [[matches theaters]|] eqn:E; [|discriminate H].
  injection H as <-. cbn [matchingTheaters matched]. split.
  - exact (checkCinemaKeywords_theaters_filter
             (set :: sets) theaterNames [] [] (matches, theaters) Hnd E).
  - apply checkCinemaKeywords_theaters_spec in E. cbn [fst snd] in E.
    destruct E as [_ Hempty].
    destruct (existsb (satisfiesSome (set :: sets)) theaterNames) eqn:Hex.
    + destruct matches; [|reflexivity].
      apply existsb_exists in Hex. destruct Hex as [th [Hin Hs]].
      destruct (proj1 Hempty eq_refl) as [_ Hall].
      rewrite (Hall th Hin) in Hs. discriminate.
    + destruct matches as [|m matches]; [reflexivity|].
      assert (Hall : forall th, In th theaterNames ->
                                satisfiesSome (set :: sets) th = false).
      { intros th Hin. destruct (satisfiesSome (set :: sets) th) eqn:Hs;
          [|reflexivity].
        assert (existsb (satisfiesSome (set :: sets)) theaterNames = true)
          by (apply existsb_exists; eauto).
        congruence. }
      discriminate (proj2 Hempty (conj eq_refl Hall)).
Qed.

Lemma checkCinemaKeywords_filter_witness :
  NoDup (map name [samplePVR; sampleIMAX])
  /\ [sampleIMAX]
     = filter (satisfiesSome [Some [JStr "imax"]]) [samplePVR; sampleIMAX].
Proof.
  assert (Hnd : NoDup (map name [samplePVR; sampleIMAX])).
  { repeat constructor; simpl; intuition discriminate. }
  split; [exact Hnd|].
  exact (proj1 (checkCinemaKeywords_filter
                  (sampleConfigCinema [Some [JStr "imax"]])
                  (Some [JStr "imax"]) [] [samplePVR; sampleIMAX]
                  {| matched := true;
                     matchingTheaters := [sampleIMAX];
                     matchedSets := [{| smKeywordSet := [JStr "imax"];
                                        smSetIndex := 0 |}] |}
                  eq_refl Hnd eq_refl)).
Defined.






(** ** Dates *)

Lemma calendarDate_canonical (r : string) (dr : Z * Z * Z) :
  calendarDate r = Some dr -> isCanonical r = true.
Proof.
  intro H.
  do 10 (destruct r as [|? r]; [discriminate H|]).
  destruct r; [|discriminate H].
  unfold calendarDate in H.
  match type of H with
  | (if ?c then _ else _) = _ => destruct c eqn:E
  end; [reflexivity | discriminate H].
Qed.

Lemma formatDateFromParts_formatDate (y m d : Z) :
  formatDateFromParts (JNum y) (JNum m) (JNum d)
  = formatDate {| getFullYear := y; getMonth := m - 1; getDate := d |}.
Proof.
  unfold formatDateFromParts, formatDate. simpl getMonth.
  now replace (m - 1 + 1)%Z with m by lia.
Qed.

(** X9. A release date assembled from a numeric year of four digits, a month
    and a day is in the form YYYY-MM-DD and denotes that day, so the
    normaliser returns it unchanged. *)
Theorem formatDateFromParts_canonical :
  forall (newDate : jsval -> option jsdate) (y m d : Z),
    (1000 <= y <= 9999)%Z -> (1 <= m <= 12)%Z -> (1 <= d <= 31)%Z ->
    calendarDate (formatDateFromParts (JNum y) (JNum m) (JNum d))
    = Some (y, m, d)
    /\ convertReleaseDateToAPIFormat
         newDate (JStr (formatDateFromParts (JNum y) (JNum m) (JNum d)))
       = Normal (JStr (formatDateFromParts (JNum y) (JNum m) (JNum d))).
Proof.
  intros newDate y m d Hy Hm Hd.
  assert (H : calendarDate (formatDateFromParts (JNum y) (JNum m) (JNum d))
              = Some (y, m, d)).
  { rewrite formatDateFromParts_formatDate.
    rewrite formatDate_calendarDate by (simpl; lia).
    unfold dateOfClock. simpl. now replace (m - 1 + 1)%Z with m by lia. }
  split; [exact H|].
  apply convert_canonical. exact (calendarDate_canonical _ _ H).
Qed.

Lemma formatDateFromParts_canonical_witness :
  formatDateFromParts (JNum 2027) (JNum 3) (JNum 9) = "2027-03-09"
  /\ calendarDate (formatDateFromParts (JNum 2027) (JNum 3) (JNum 9))
     = Some (2027, 3, 9)%Z.
Proof.
  split; [reflexivity|].
  exact (proj1 (formatDateFromParts_canonical sampleNewDate 2027 3 9
                  ltac:(lia) ltac:(lia) ltac:(lia))).
Defined.

(** X10. When the engine reads a release date as a day of a year of four
    digits, the normaliser returns that day in the form YYYY-MM-DD, and
    normalising its result again changes nothing. *)
Theorem convert_parsed_canonical :
  forall (newDate : jsval -> option jsdate) (v : jsval) (date : jsdate),
    truthy v = true ->
    isCanonical (toStr v) = false ->
    newDate v = Some date ->
    (1000 <= getFullYear date <= 9999)%Z ->
    (0 <= getMonth date <= 11)%Z ->
    (1 <= getDate date <= 31)%Z ->
    convertReleaseDateToAPIFormat newDate v = Normal (JStr (formatDate date))
    /\ calendarDate (formatDate date) = Some (dateOfClock date)
    /\ convertReleaseDateToAPIFormat newDate (JStr (formatDate date))
       = Normal (JStr (formatDate date)).
Proof.
  intros newDate v date Hv Hc Hd Hy Hm Hday.
  assert (H := formatDate_calendarDate date Hy Hm Hday).
  split; [|split; [exact H|]].
  - now rewrite convert_cases, Hv, Hc, Hd.
  - apply convert_canonical. exact (calendarDate_canonical _ _ H).
Qed.

Lemma convert_parsed_canonical_witness :
  convertReleaseDateToAPIFormat sampleNewDate (JStr "Nov 14, 2025")
  = Normal (JStr "2025-11-14")
  /\ convertReleaseDateToAPIFormat sampleNewDate (JStr "2025-11-14")
     = Normal (JStr "2025-11-14").
Proof.
  pose proof (convert_parsed_canonical sampleNewDate (JStr "Nov 14, 2025")
                {| getFullYear := 2025; getMonth := 10; getDate := 14 |}
                eq_refl eq_refl eq_refl
                ltac:(simpl; lia) ltac:(simpl; lia) ltac:(simpl; lia)) as H.
  exact (conj (proj1 H) (proj2 (proj2 H))).
Defined.

(** What the normaliser returns is [null] or truthy. *)
Lemma convert_clean newDate (v r : jsval) :
  convertReleaseDateToAPIFormat newDate v = Normal r -> clean r.
Proof.
  rewrite convert_cases. intro H. injection H as <-.
  destruct (truthy v) eqn:Hv; simpl; [|now left].
  destruct (isCanonical (toStr v)); [now right|].
  destruct (newDate v); [right; apply formatDate_truthy | now left].
Qed.

(** X11. A call of [fetchTheaterListings], on a film code and a release date
    that are scalars, sends at most one request.  When the body of the
    request can be built it sends exactly one, for the film code it is given
    and with a date that is never empty (the normalised release date or
    today's date), and returns the answer to it.  When no body
    template is configured and [API_BODY] is a string on which
    [JSON.parse(...).city] throws, it sends nothing and returns a failure. *)
Theorem fetchTheaterListings_one_request :
  forall (newDate : jsval -> option jsdate) (cfg : config.t) (w : world)
         (filmCommonCode releaseDate : jsval),
    exists dated,
      truthy dated = true
      /\ (dated = JStr (formatDate (today w))
          \/ convertReleaseDateToAPIFormat newDate releaseDate = Normal dated)
      /\ ((bodyTruthy (config.theaterListingsApiBody cfg) = true
           \/ forall s, config.apiBody cfg <> BodyString s Throw) ->
          fetchTheaterListings newDate cfg w filmCommonCode releaseDate
          = ([EvListings filmCommonCode dated],
             listings w filmCommonCode dated))
      /\ (bodyTruthy (config.theaterListingsApiBody cfg) = false ->
          (exists s, config.apiBody cfg = BodyString s Throw) ->
          fetchTheaterListings newDate cfg w filmCommonCode releaseDate
          = ([], ListingsFailure)).
Proof.
  intros newDate cfg w filmCommonCode releaseDate.
  destruct (fetchTheaterListings_shape newDate cfg w filmCommonCode releaseDate)
    as [dated [_ [Ht [Hor Heq]]]].
  exists dated. split; [exact Ht|]. split; [exact Hor|].
  rewrite Heq. pose proof (listingsCity_throws cfg) as Hthrow.
  destruct (listingsCity cfg) as [city|]; split.
  - reflexivity.
  - intros Hb Hs.
    discriminate (proj2 Hthrow (conj Hb Hs)).
  - destruct (proj1 Hthrow eq_refl) as [Hb [s Hs]].
    intros [Hb' | Hs']; [congruence | elim (Hs' s Hs)].
  - reflexivity.
Qed.

(** ** Film info resolver, further *)

Lemma firstNonNull_clean (c : jsval) (occ : list (jsval * jsval)) :
  Forall (fun p => clean (snd p)) occ -> clean (firstNonNull c occ).
Proof.
  induction occ as [|[c' d] occ IH]; simpl; intro H; [now left|].
  inversion H as [|? ? Hd Hrest]; subst. simpl in Hd.
  destruct (jsval_eqb c c'); [|now apply IH].
  destruct d; try exact Hd. now apply IH.
Qed.

Lemma occurrences_codes (movies : list movie) (matchingFilms : list jsval) :
  Forall (fun p => truthy (fst p) = true
                   /\ codeOfMatch movies matchingFilms (fst p))
         (occurrences movies matchingFilms).
Proof.
  unfold occurrences. apply Forall_flat_map, Forall_forall. intros mv Hmv.
  unfold occurrences_movie.
  destruct (mv_films mv) as [films|] eqn:Hfilms;
    [|destruct (existsb _ matchingFilms); constructor].
  apply Forall_app. split.
  - destruct (existsb (fun mf => truthy (mv_filmName mv)
                                 && jsval_eqb (mv_filmName mv) mf)
                      matchingFilms) eqn:Hex; [|constructor].
    apply existsb_exists in Hex. destruct Hex as [mf [Hmf Heq]].
    apply andb_true_iff in Heq. destruct Heq as [_ Heq].
    apply jsval_eqb_eq in Heq. subst mf.
    apply Forall_flat_map, Forall_forall. intros film Hfilm.
    destruct (truthy (fm_filmCommonCode film)) eqn:Hc; constructor;
      [|constructor].
    simpl. split; [exact Hc|]. exists mv, films, film. auto 6.
  - apply Forall_flat_map, Forall_forall. intros film Hfilm.
    destruct (truthy (fm_filmName film)
              && existsb (jsval_eqb (fm_filmName film)) matchingFilms
              && truthy (fm_filmCommonCode film)) eqn:Hc; constructor;
      [|constructor].
    apply andb_true_iff in Hc. destruct Hc as [Hc Hcode].
    apply andb_true_iff in Hc. destruct Hc as [_ Hex].
    apply existsb_exists in Hex. destruct Hex as [mf [Hmf Heq]].
    apply jsval_eqb_eq in Heq. subst mf.
    simpl. split; [exact Hcode|]. exists mv, films, film. auto 6.
Qed.

(** X12. Every entry of [extractFilmInfo] has a truthy code, which is the
    code of a film that matched by its own name or by the name of its movie,
    and a release date that is [null] or truthy; with no matching film name
    there is no entry. *)
Theorem extractFilmInfo_entries :
  forall (movies : list movie) (matchingFilms : list jsval),
    Forall (fun fi => truthy (code fi) = true
                      /\ codeOfMatch movies matchingFilms (code fi)
                      /\ (releaseDate fi = JNull
                          \/ truthy (releaseDate fi) = true))
           (extractFilmInfo movies matchingFilms)
    /\ extractFilmInfo movies [] = [].
Proof.
  intros movies matchingFilms.
  assert (Hall : forall mf,
             Forall (fun fi => truthy (code fi) = true
                               /\ codeOfMatch movies mf (code fi)
                               /\ (releaseDate fi = JNull
                                   \/ truthy (releaseDate fi) = true))
                    (extractFilmInfo movies mf)).
  { intro mf. unfold extractFilmInfo.
    rewrite extractFilmInfo_map_occurrences.
    assert (Hnd : NoDup (map fst (fold_left recordPair (occurrences movies mf)
                                            [])))
      by (apply fold_recordPair_NoDup; constructor).
    apply Forall_forall. intros fi Hin.
    apply in_map_iff in Hin. destruct Hin as [[k v] [<- Hin]]. simpl.
    assert (Hk : In k (map fst (occurrences movies mf))).
    { assert (Hk : In k (map fst (fold_left recordPair
                                            (occurrences movies mf) [])))
        by (apply in_map_iff; now exists (k, v)).
      apply fold_recordPair_keys in Hk. destruct Hk as [[]|Hk]. exact Hk. }
    apply in_map_iff in Hk. destruct Hk as [[k' d] [Hfst Hocc]].
    simpl in Hfst. subst k'.
    pose proof (occurrences_codes movies mf) as Hcodes.
    rewrite Forall_forall in Hcodes. destruct (Hcodes _ Hocc) as [Ht Hc].
    split; [exact Ht|]. split; [exact Hc|].
    rewrite <- (map_get_In _ k v Hnd Hin).
    rewrite fold_recordPair_get; [|apply clean_occurrences | now left].
    apply firstNonNull_clean, clean_occurrences. }
  split; [apply Hall|].
  specialize (Hall []).
  destruct (extractFilmInfo movies []) as [|fi rest]; [reflexivity|].
  inversion Hall as [|? ? [_ [Hc _]] _]; subst.
  destruct Hc as [mv [films [film [_ [_ [_ [_ [[]|[]]]]]]]]].
Qed.

(** ** The lookups of a cycle *)

Lemma fetchAllListings_fold newDate (cfg : config.t) (w : world)
      (filmInfo : list filmInfo) (events : list event) (all : list theater) :
  fold_left
    (fun (acc : list event * list theater) filmInfoItem =>
       let (events, allTheaterNames) := acc in
       let (sent, listingsResult) :=
         fetchTheaterListings newDate cfg w (code filmInfoItem)
                              (releaseDate filmInfoItem) in
       (events ++ sent,
        match listingsResult with
        | ListingsSuccess data => allTheaterNames ++ getTheaterNames data
        | ListingsFailure => allTheaterNames
        end))
    filmInfo (events, all)
  = (events ++ flat_map (fun fi => fst (fetchTheaterListings
                                          newDate cfg w (code fi)
                                          (releaseDate fi)))
                        filmInfo,
     all ++ flat_map (fun fi => theatersOf
                                  (snd (fetchTheaterListings
                                          newDate cfg w (code fi)
                                          (releaseDate fi))))
                     filmInfo).
Proof.
  revert events all. induction filmInfo as [|fi rest IH]; intros events all;
    simpl.
  - now rewrite !app_nil_r.
  - destruct (fetchTheaterListings newDate cfg w (code fi) (releaseDate fi))
      as [sent result].
    destruct result; rewrite IH; simpl; now rewrite <- ?app_assoc.
Qed.

Lemma fetchAllListings_flat newDate (cfg : config.t) (w : world)
      (filmInfo : list filmInfo) :
  fetchAllListings newDate cfg w filmInfo
  = (flat_map (fun fi => fst (fetchTheaterListings
                                newDate cfg w (code fi) (releaseDate fi)))
              filmInfo,
     flat_map (fun fi => theatersOf
                           (snd (fetchTheaterListings
                                   newDate cfg w (code fi) (releaseDate fi))))
              filmInfo).
Proof. unfold fetchAllListings. now rewrite fetchAllListings_fold. Qed.

(** The events of the loop are lookups: one per film code, in order, when the
    body of the requests can be built, and none when it cannot. *)
Lemma fetchAllListings_codes newDate (cfg : config.t) (w : world)
      (filmInfo : list filmInfo) :
  map lookupCode (fst (fetchAllListings newDate cfg w filmInfo))
  = match listingsCity cfg with
    | Normal _ => map (fun fi => Some (code fi)) filmInfo
    | Throw => []
    end
  /\ Forall (fun e => isListings e = true)
            (fst (fetchAllListings newDate cfg w filmInfo)).
Proof.
  rewrite fetchAllListings_flat. simpl.
  induction filmInfo as [|fi rest [IH1 IH2]]; simpl.
  - split; [now destruct (listingsCity cfg) | constructor].
  - destruct (fetchTheaterListings_shape newDate cfg w (code fi)
                (releaseDate fi)) as [dated [_ [_ [_ Heq]]]].
    rewrite Heq. destruct (listingsCity cfg); simpl.
    + rewrite IH1. split; [reflexivity|]. now constructor.
    + split; assumption.
Qed.

(** X13. The loop over the film codes, on codes and release dates that are
    scalars, gathers the theatres of the lookups that succeed: a lookup that
    fails contributes no theatre and does not stop the others.  When the body of the requests can be built, one lookup
    is sent per entry of the film info, in order; when it cannot, no lookup is
    sent and no theatre is found. *)
Theorem fetchAllListings_spec :
  forall (newDate : jsval -> option jsdate) (cfg : config.t) (w : world)
         (filmInfo : list filmInfo),
    snd (fetchAllListings newDate cfg w filmInfo)
    = flat_map (fun fi => theatersOf
                            (snd (fetchTheaterListings
                                    newDate cfg w (code fi) (releaseDate fi))))
               filmInfo
    /\ (listingsCity cfg <> Throw ->
        map lookupCode (fst (fetchAllListings newDate cfg w filmInfo))
        = map (fun fi => Some (code fi)) filmInfo)
    /\ (listingsCity cfg = Throw ->
        fetchAllListings newDate cfg w filmInfo = ([], [])).
Proof.
  intros newDate cfg w filmInfo.
  split; [now rewrite fetchAllListings_flat|].
  destruct (fetchAllListings_codes newDate cfg w filmInfo) as [Hcodes _].
  split.
  - intro Hn. destruct (listingsCity cfg); [exact Hcodes | now elim Hn].
  - intro Hthrow. rewrite fetchAllListings_flat.
    assert (H : forall fi,
               fetchTheaterListings newDate cfg w (code fi) (releaseDate fi)
               = ([], ListingsFailure)).
    { intro fi.
      destruct (fetchTheaterListings_shape newDate cfg w (code fi)
                  (releaseDate fi)) as [dated [_ [_ [_ Heq]]]].
      now rewrite Heq, Hthrow. }
    clear Hcodes. induction filmInfo as [|fi rest IH]; [reflexivity|].
    simpl. rewrite H. simpl. exact IH.
Qed.

(** ** The set of keys *)

Lemma makePhoneCall_set (cfg : config.t) (o : twilioOutcome)
      (matchKey : jsval) (seen : list jsval) :
  snd (makePhoneCall cfg o matchKey seen) = seen
  \/ (snd (makePhoneCall cfg o matchKey seen) = seen ++ [matchKey]
      /\ truthy matchKey = true /\ set_has seen matchKey = false
      /\ makePhoneCall cfg o matchKey seen
         = (true, [EvTwilio CallCreated], seen ++ [matchKey])).
Proof.
  rewrite makePhoneCall_cases.
  destruct (config.enablePhoneCall cfg && twilioConfigured cfg); simpl;
    [|now left].
  destruct (truthy matchKey) eqn:Ht; simpl.
  - destruct (set_has seen matchKey) eqn:Hs; simpl; [now left|].
    destruct o; [|now left]. right. unfold set_add. unfold set_has in Hs.
    rewrite Hs. simpl. auto.
  - destruct o; now left.
Qed.

(** X14. [makePhoneCall] only ever adds to the set [phoneCallMade]: a key in
    the set stays in it, the set keeps holding each key once, and it never
    holds [null] or the empty string. *)
Theorem makePhoneCall_set_grows :
  forall (cfg : config.t) (o : twilioOutcome) (matchKey : jsval)
         (phoneCallMade : list jsval),
    (forall k, set_has phoneCallMade k = true ->
               set_has (snd (makePhoneCall cfg o matchKey phoneCallMade)) k
               = true)
    /\ (NoDup phoneCallMade ->
        NoDup (snd (makePhoneCall cfg o matchKey phoneCallMade)))
    /\ (Forall (fun k => truthy k = true) phoneCallMade ->
        Forall (fun k => truthy k = true)
               (snd (makePhoneCall cfg o matchKey phoneCallMade))).
Proof.
  intros cfg o matchKey seen.
  destruct (makePhoneCall_set cfg o matchKey seen) as [->|[-> [Ht [Hs _]]]].
  - tauto.
  - split; [|split].
    + intros k Hk. unfold set_has in *. rewrite existsb_app, Hk. reflexivity.
    + intro Hnd. apply NoDup_app; [exact Hnd | repeat constructor; simpl; tauto |].
      intros x Hx [Hxk|[]]. subst x.
      assert (set_has seen matchKey = true); [|congruence].
      apply existsb_exists. exists matchKey.
      split; [exact Hx | apply jsval_eqb_refl].
    + intro Hall. apply Forall_app. split; [exact Hall | now repeat constructor].
Qed.

(** X15. A key that is [null] or empty is not deduplicated: [makePhoneCall]
    never records it, and with calls enabled and Twilio configured it places
    the call whatever the set holds. *)
Theorem makePhoneCall_without_key :
  forall (cfg : config.t) (matchKey : jsval) (phoneCallMade : list jsval),
    truthy matchKey = false ->
    (forall o, snd (makePhoneCall cfg o matchKey phoneCallMade) = phoneCallMade)
    /\ (config.enablePhoneCall cfg = true ->
        twilioConfigured cfg = true ->
        makePhoneCall cfg CallCreated matchKey phoneCallMade
        = (true, [EvTwilio CallCreated], phoneCallMade)).
Proof.
  intros cfg matchKey seen Ht. split.
  - intro o. rewrite makePhoneCall_cases, Ht.
    destruct (config.enablePhoneCall cfg && twilioConfigured cfg); [|reflexivity].
    now destruct o.
  - intros He Hc. now rewrite makePhoneCall_cases, Ht, He, Hc.
Qed.

Lemma makePhoneCall_without_key_witness :
  makePhoneCall sampleConfig CallCreated JNull [JStr "F1|PVR"]
  = (true, [EvTwilio CallCreated], [JStr "F1|PVR"]).
Proof.
  exact (proj2 (makePhoneCall_without_key sampleConfig JNull [JStr "F1|PVR"]
                  eq_refl) eq_refl eq_refl).
Defined.

(** ** The shape of a cycle *)

Lemma listings_only (l : list event) :
  Forall (fun e => isListings e = true) l ->
  filter isTelegram l = [] /\ filter isEscalation l = []
  /\ filter isMakePhoneCall l = [] /\ filter isTwilio l = [].
Proof.
  induction l as [|e l IH]; intro H; [repeat split|].
  inversion H as [|? ? He Hl]; subst. destruct (IH Hl) as [H1 [H2 [H3 H4]]].
  destruct e; try discriminate He. simpl. auto.
Qed.

Lemma correlate_events newDate (cfg : config.t) (w : world)
      (movies : list movie) (filmNames : list jsval)
      (keywordMatches : list filmMatch) (targetMovieFound : bool) :
  Forall (fun e => isListings e = true)
         (fst (correlate newDate cfg w movies filmNames keywordMatches
                         targetMovieFound)).
Proof.
  unfold correlate.
  destruct (0 <? List.length keywordMatches)%nat.
  - pose proof (fetchAllListings_codes newDate cfg w
                  (extractFilmInfo movies
                     (flat_map matchingFilms keywordMatches))) as [_ H].
    destruct (fetchAllListings newDate cfg w _) as [events all]. simpl in H.
    destruct (checkCinemaKeywords cfg (uniqueTheatersOf all)); exact H.
  - destruct targetMovieFound; constructor.
Qed.

Lemma correlate_throw newDate (cfg : config.t) (w : world)
      (movies : list movie) (filmNames : list jsval)
      (keywordMatches : list filmMatch) (targetMovieFound : bool) :
  snd (correlate newDate cfg w movies filmNames keywordMatches targetMovieFound)
  = Throw ->
  exists theaterNames, checkCinemaKeywords cfg theaterNames = Throw.
Proof.
  unfold correlate.
  destruct (0 <? List.length keywordMatches)%nat.
  - destruct (fetchAllListings newDate cfg w _) as [events all].
    destruct (checkCinemaKeywords cfg (uniqueTheatersOf all)) eqn:E;
      [discriminate|].
    intros _. now exists (uniqueTheatersOf all).
  - destruct targetMovieFound; discriminate.
Qed.

Lemma makePhoneCall_called (cfg : config.t) (o : twilioOutcome)
      (matchKey : jsval) (seen : list jsval) :
  (snd (fst (makePhoneCall cfg o matchKey seen)) = []
   /\ fst (fst (makePhoneCall cfg o matchKey seen)) = false)
  \/ (snd (fst (makePhoneCall cfg o matchKey seen)) = [EvTwilio o]
      /\ fst (fst (makePhoneCall cfg o matchKey seen)) = isCreated o).
Proof.
  rewrite makePhoneCall_cases.
  destruct (config.enablePhoneCall cfg && twilioConfigured cfg
            && negb (truthy matchKey && set_has seen matchKey));
    [right; now destruct o | now left].
Qed.

(** A run of [monitor] is quiet (the fetch and lookups only), or reports a
    failed fetch, or notifies and then calls [makePhoneCall]. *)
Lemma monitor_shape newDate evalCondition (cfg : config.t) (w : world)
      (seen : list jsval) :
  let r := monitor newDate evalCondition cfg w seen in
  (exists lookups,
      trace r = EvPing :: lookups
      /\ Forall (fun e => isListings e = true) lookups
      /\ phoneCallMade' r = seen
      /\ (crashed r = true ->
          exists theaterNames, checkCinemaKeywords cfg theaterNames = Throw))
  \/ (exists status error,
         ping w = PingFailure status error
         /\ trace r = [EvPing;
                       EvTelegram (ApiError (config.apiUrl cfg) status error)]
         /\ phoneCallMade' r = seen /\ crashed r = false)
  \/ (exists lookups msg matchKey,
         trace r = EvPing :: lookups
                   ++ [EvTelegram msg; EvMakePhoneCall matchKey]
                   ++ snd (fst (makePhoneCall cfg (twilio w) matchKey seen))
         /\ Forall (fun e => isListings e = true) lookups
         /\ phoneCallMade' r = snd (makePhoneCall cfg (twilio w) matchKey seen)
         /\ crashed r = false).
Proof.
  unfold monitor.
  destruct (ping w) as [status data|status error].
  - destruct (checkCondition evalCondition cfg data).
    + match goal with
      | |- context [correlate newDate cfg w ?a ?b ?c ?d] =>
          pose proof (correlate_events newDate cfg w a b c d) as Hev;
          pose proof (correlate_throw newDate cfg w a b c d) as Hth;
          destruct (correlate newDate cfg w a b c d) as [events [d'|]]
      end; simpl in Hev, Hth.
      * destruct (shouldNotify d').
        -- right. right.
           match goal with
           | |- context [makePhoneCall cfg ?o ?k seen] =>
               destruct (makePhoneCall cfg o k seen)
                 as [[callMade called] seen'] eqn:E;
               eexists events, _, k; rewrite E
           end.
           simpl. auto.
        -- left. exists events. simpl. repeat split; [exact Hev | discriminate].
      * left. exists events. simpl. repeat split; [exact Hev|]. auto.
    + left. exists []. simpl. repeat split; [constructor | discriminate].
  - right. left. exists status, error. simpl. auto.
Qed.

(** X16. In every run of [monitor] the fetch comes first, at most one
    Telegram message is sent, [makePhoneCall] is called at most once and only
    after a message was sent, Twilio is contacted only in that call, and no
    key leaves the set [phoneCallMade]. *)
Theorem monitor_trace_discipline :
  forall (newDate : jsval -> option jsdate)
         (evalCondition : string -> responseData -> option bool)
         (cfg : config.t) (w : world) (phoneCallMade : list jsval),
    let r := monitor newDate evalCondition cfg w phoneCallMade in
    hd_error (trace r) = Some EvPing
    /\ (List.length (filter isTelegram (trace r)) <= 1)%nat
    /\ (List.length (filter isMakePhoneCall (trace r))
        <= List.length (filter isTelegram (trace r)))%nat
    /\ (List.length (filter isTwilio (trace r))
        <= List.length (filter isMakePhoneCall (trace r)))%nat
    /\ (forall k, set_has phoneCallMade k = true ->
                  set_has (phoneCallMade' r) k = true).
Proof.
  intros newDate evalCondition cfg w seen r. subst r.
  destruct (monitor_shape newDate evalCondition cfg w seen)
    as [[lookups [Ht [Hl [Hs _]]]]
       | [[status [error [_ [Ht [Hs _]]]]]
         | [lookups [msg [key [Ht [Hl [Hs _]]]]]]]];
    rewrite Ht, Hs.
  - destruct (listings_only lookups Hl) as [H1 [_ [H3 H4]]].
    simpl. rewrite H1, H3, H4. simpl. repeat split; auto.
  - simpl. repeat split; auto.
  - destruct (listings_only lookups Hl) as [H1 [_ [H3 H4]]].
    simpl. rewrite !filter_app, H1, H3, H4. simpl.
    split; [reflexivity|].
    destruct (makePhoneCall_called cfg (twilio w) key seen) as [[-> _]|[-> _]];
      simpl; repeat split; auto;
      intros k Hk;
      destruct (makePhoneCall_set cfg (twilio w) key seen) as [->|[-> _]];
      try exact Hk; unfold set_has in *; rewrite existsb_app, Hk; reflexivity.
Qed.




(** ** The condition of a cycle *)

Lemma length_pos_iff {A : Type} (l : list A) :
  (0 <? List.length l)%nat = true <-> l <> [].
Proof.
  destruct l; simpl; split; try discriminate; try reflexivity.
  intro H. now elim H.
Qed.

Lemma checkKeywordSet_nonempty (keywordSet : keywordSet) (filmNames : list jsval) :
  checkKeywordSet keywordSet filmNames <> []
  <-> exists keyword keywords n,
        keywordSet = Some (keyword :: keywords) /\ In n filmNames
        /\ allKeywordsFound (keyword :: keywords) n = true.
Proof.
  destruct keywordSet as [[|keyword keywords]|].
  - split; [intro H; now elim H | intros [? [? [? [H _]]]]; discriminate H].
  - rewrite checkKeywordSet_filter. split.
    + intro H.
      destruct (filter (allKeywordsFound (keyword :: keywords)) filmNames)
        as [|n rest] eqn:E; [now elim H|].
      assert (Hin : In n (filter (allKeywordsFound (keyword :: keywords))
                                 filmNames)) by (rewrite E; now left).
      apply filter_In in Hin. exists keyword, keywords, n. tauto.
    + intros [k [ks [n [Heq [Hin Hfound]]]]] Hnil. injection Heq as <- <-.
      assert (Hn : In n (filter (allKeywordsFound (keyword :: keywords))
                                filmNames)) by (apply filter_In; auto).
      rewrite Hnil in Hn. destruct Hn.
  - split; [intro H; now elim H | intros [? [? [? [H _]]]]; discriminate H].
Qed.

Lemma checkKeywordSets_nonempty (keywordSets : list keywordSet)
      (filmNames : list jsval) :
  checkKeywordSets (Some keywordSets) filmNames <> []
  <-> exists keyword keywords n,
        In (Some (keyword :: keywords)) keywordSets /\ In n filmNames
        /\ allKeywordsFound (keyword :: keywords) n = true.
Proof.
  assert (Heq : checkKeywordSets (Some keywordSets) filmNames
                = checkKeywordSets_from 0 keywordSets filmNames [])
    by now destruct keywordSets.
  rewrite Heq.
  destruct (checkKeywordSets_from_spec filmNames keywordSets 0 []) as [Hin _].
  cbv zeta in Hin. split.
  - intro H.
    destruct (checkKeywordSets_from 0 keywordSets filmNames []) as [|m rest]
      eqn:E; [now elim H|].
    destruct (proj1 (Hin m) (or_introl eq_refl))
      as [[]|[_ [Hnth [Hm Hne]]]].
    rewrite Hm in Hne. apply checkKeywordSet_nonempty in Hne.
    destruct Hne as [k [ks [n [Hks [Hn Hfound]]]]].
    exists k, ks, n. rewrite <- Hks. split; [|auto].
    eapply nth_error_In, Hnth.
  - intros [k [ks [n [Hks [Hn Hfound]]]]] Hnil.
    apply In_nth_error in Hks. destruct Hks as [i Hi].
    assert (Hm : In {| fmKeywordSet := Some (k :: ks);
                       matchingFilms :=
                         checkKeywordSet (Some (k :: ks)) filmNames;
                       fmSetIndex := i |}
                    (checkKeywordSets_from 0 keywordSets filmNames [])).
    { apply Hin. right. cbn [fmSetIndex fmKeywordSet matchingFilms].
      rewrite Nat.sub_0_r. split; [lia|]. split; [exact Hi|].
      split; [reflexivity|].
      apply checkKeywordSet_nonempty. now exists k, ks, n. }
    rewrite Hnil in Hm. destruct Hm.
Qed.

(** X18. Without a user-supplied condition, the condition of a cycle is met
    only on evidence in the response.  With film keyword sets it is met
    exactly when [getMatchingKeywordSets] finds a match, and then the name of
    some movie or film of the response contains every keyword of some
    non-empty configured set; with only a target name it is met only when
    some name contains the target name; with neither, only when the response
    has a movie. *)
Theorem checkCondition_default :
  forall (evalCondition : string -> responseData -> option bool)
         (cfg : config.t) (data : responseData),
    truthy (config.checkCondition cfg) = false ->
    (forall sets,
        config.movieKeywords cfg = Some sets -> sets <> [] ->
        (checkCondition evalCondition cfg data = true
         <-> getMatchingKeywordSets cfg data <> [])
        /\ (checkCondition evalCondition cfg data = true ->
            exists keyword keywords n movie,
              In (Some (keyword :: keywords)) sets
              /\ In movie (getMovies data) /\ namedIn n movie
              /\ truthy n = true
              /\ allKeywordsFound (keyword :: keywords) n = true))
    /\ (keywordsSet (config.movieKeywords cfg) = false ->
        truthy (config.targetMovie cfg) = true ->
        checkCondition evalCondition cfg data = true ->
        exists n movie,
          In movie (getMovies data) /\ namedIn n movie
          /\ truthy n = true
          /\ includes (toLowerCase (toStr n))
                      (toLowerCase (toStr (config.targetMovie cfg)))
             = true)
    /\ (keywordsSet (config.movieKeywords cfg) = false ->
        truthy (config.targetMovie cfg) = false ->
        checkCondition evalCondition cfg data = true ->
        getMovies data <> []).
Proof.
  intros evalCondition cfg data Hcond. unfold checkCondition. rewrite Hcond.
  destruct (getAllFilmNames_In (getMovies data)) as [_ Hnames].
  split; [|split].
  - intros sets Hsets Hne. unfold getMatchingKeywordSets. rewrite Hsets.
    assert (Hset : keywordsSet (Some sets) = true) by now destruct sets.
    rewrite Hset, length_pos_iff, checkKeywordSets_nonempty.
    split; [reflexivity|].
    intros [k [ks [n [Hks [Hn Hfound]]]]].
    apply Hnames in Hn. destruct Hn as [Ht [movie [Hmovie Hnamed]]].
    exists k, ks, n, movie. auto.
  - intros Hkw Htarget. rewrite Hkw, Htarget. unfold hasFilm.
    rewrite existsb_exists.
    intros [n [Hn Hinc]].
    apply Hnames in Hn. destruct Hn as [Ht [movie [Hmovie Hnamed]]].
    exists n, movie. auto.
  - intros Hkw Htarget. rewrite Hkw, Htarget. apply length_pos_iff.
Qed.

Lemma checkCondition_default_witness :
  checkCondition sampleEval sampleConfig {| output_mv := Some sampleMovies |}
  = true
  <-> getMatchingKeywordSets sampleConfig {| output_mv := Some sampleMovies |}
      <> [].
Proof.
  exact (proj1 (proj1 (checkCondition_default
                         sampleEval sampleConfig
                         {| output_mv := Some sampleMovies |} eq_refl)
                      [Some [JStr "Spider"; JStr "No Way Home"]] eq_refl
                      ltac:(discriminate))).
Defined.

(** ** Quiet cycles *)

Lemma monitor_skips newDate evalCondition (cfg : config.t) (w : world)
      (seen : list jsval) (status : Z) (data : responseData)
      (events : list event) (d : decision) :
  ping w = PingSuccess status data ->
  checkCondition evalCondition cfg data = true ->
  correlate newDate cfg w (getMovies data) (getAllFilmNames (getMovies data))
            (getMatchingKeywordSets cfg data)
            (truthy (config.targetMovie cfg)
             && hasFilm (getAllFilmNames (getMovies data))
                        (config.targetMovie cfg))
  = (events, Normal d) ->
  shouldNotify d = false ->
  monitor newDate evalCondition cfg w seen
  = {| trace := EvPing :: events; phoneCallMade' := seen; crashed := false |}.
Proof.
  intros Hping Hcond Hcor Hnotify. unfold monitor.
  now rewrite Hping, Hcond, Hcor, Hnotify.
Qed.

(** X19. When a film keyword set matches and cinema keywords are configured
    but match no theatre of the cycle, the run makes the lookups and nothing
    else: no Telegram message, no call of [makePhoneCall], the set
    unchanged. *)
Theorem monitor_cinema_no_match :
  forall (newDate : jsval -> option jsdate)
         (evalCondition : string -> responseData -> option bool)
         (cfg : config.t) (w : world) (phoneCallMade : list jsval)
         (status : Z) (data : responseData) (m : cinemaMatchResult),
    ping w = PingSuccess status data ->
    checkCondition evalCondition cfg data = true ->
    getMatchingKeywordSets cfg data <> [] ->
    checkCinemaKeywords cfg
      (uniqueTheatersOf
         (snd (fetchAllListings newDate cfg w
                 (extractFilmInfo (getMovies data)
                    (flat_map matchingFilms
                              (getMatchingKeywordSets cfg data))))))
    = Normal m ->
    matched m = false ->
    let r := monitor newDate evalCondition cfg w phoneCallMade in
    trace r = EvPing :: fst (fetchAllListings newDate cfg w
                               (extractFilmInfo (getMovies data)
                                  (flat_map matchingFilms
                                     (getMatchingKeywordSets cfg data))))
    /\ filter isTelegram (trace r) = []
    /\ filter isEscalation (trace r) = []
    /\ phoneCallMade' r = phoneCallMade
    /\ crashed r = false.
Proof.
  intros newDate evalCondition cfg w seen status data m Hping Hcond Hkm Hcin
         Hmatched r. subst r.
  pose proof (correlate_keywordMatch newDate cfg w (getMovies data)
                (getAllFilmNames (getMovies data))
                (getMatchingKeywordSets cfg data)
                (truthy (config.targetMovie cfg)
                 && hasFilm (getAllFilmNames (getMovies data))
                            (config.targetMovie cfg))
                m Hkm Hcin) as Hcor.
  rewrite (monitor_skips newDate evalCondition cfg w seen status data
             _ _ Hping Hcond Hcor Hmatched).
  cbn [trace phoneCallMade' crashed].
  destruct (fetchAllListings_codes newDate cfg w
              (extractFilmInfo (getMovies data)
                 (flat_map matchingFilms (getMatchingKeywordSets cfg data))))
    as [_ Hl].
  destruct (listings_only _ Hl) as [H1 [H2 _]].
  simpl. rewrite H1, H2. auto.
Qed.

Lemma monitor_cinema_no_match_witness :
  trace (monitor sampleNewDate sampleEval
           (sampleConfigCinema [Some [JStr "IMAX"]])
           (sampleWorld ["City Mall - Digital"]) [])
  = [EvPing; EvListings (JStr "F1") (JStr "2027-12-25")].
Proof.
  exact (proj1 (monitor_cinema_no_match
                  sampleNewDate sampleEval
                  (sampleConfigCinema [Some [JStr "IMAX"]])
                  (sampleWorld ["City Mall - Digital"]) []
                  200%Z {| output_mv := Some sampleMovies |}
                  {| matched := false; matchingTheaters := [];
                     matchedSets := [] |}
                  eq_refl eq_refl ltac:(discriminate) eq_refl eq_refl)).
Defined.

(** X20. When the fetch succeeds and the condition is not met, the run does
    nothing more; a user-supplied condition whose evaluation throws counts as
    not met. *)
Theorem monitor_condition_not_met :
  forall (newDate : jsval -> option jsdate)
         (evalCondition : string -> responseData -> option bool)
         (cfg : config.t) (w : world) (phoneCallMade : list jsval)
         (status : Z) (data : responseData),
    ping w = PingSuccess status data ->
    checkCondition evalCondition cfg data = false
    \/ (truthy (config.checkCondition cfg) = true
        /\ evalCondition (toStr (config.checkCondition cfg)) data = None) ->
    monitor newDate evalCondition cfg w phoneCallMade
    = {| trace := [EvPing];
         phoneCallMade' := phoneCallMade;
         crashed := false |}.
Proof.
  intros newDate evalCondition cfg w seen status data Hping H.
  assert (Hcond : checkCondition evalCondition cfg data = false).
  { destruct H as [H|[Ht He]]; [exact H|].
    unfold checkCondition. now rewrite Ht, He. }
  unfold monitor. now rewrite Hping, Hcond.
Qed.

Lemma monitor_condition_not_met_witness :
  monitor sampleNewDate sampleEval sampleConfigCondition (sampleWorld []) []
  = {| trace := [EvPing]; phoneCallMade' := []; crashed := false |}.
Proof.
  exact (monitor_condition_not_met
           sampleNewDate sampleEval sampleConfigCondition
           (sampleWorld []) [] 200%Z {| output_mv := Some sampleMovies |}
           eq_refl (or_intror (conj eq_refl eq_refl))).
Defined.

(** ** Cycles without film keywords *)





(** ** One call per key over cycles that do not overlap *)

Lemma listings_not_escalation (k : jsval) (l : list event) :
  Forall (fun e => isListings e = true) l ->
  existsb (isMakePhoneCallWith k) l = false /\ existsb isCallCreated l = false.
Proof.
  induction l as [|e l IH]; intro H; [split; reflexivity|].
  inversion H as [|? ? He Hl]; subst. destruct (IH Hl) as [H1 H2].
  destruct e; try discriminate He. simpl. auto.
Qed.

(** A run that places the call for [k] finds [k] outside the set and leaves
    it inside; no run takes a key out of the set. *)
Lemma monitor_placed newDate evalCondition (cfg : config.t) (w : world)
      (seen : list jsval) (k : jsval) :
  truthy k = true ->
  let r := monitor newDate evalCondition cfg w seen in
  (callPlacedFor k r = true ->
   set_has seen k = false /\ set_has (phoneCallMade' r) k = true)
  /\ (set_has seen k = true -> set_has (phoneCallMade' r) k = true).
Proof.
  intros Hk r. subst r. unfold callPlacedFor.
  destruct (monitor_shape newDate evalCondition cfg w seen)
    as [[lookups [Ht [Hl [Hs _]]]]
       | [[status [error [_ [Ht [Hs _]]]]]
         | [lookups [msg [key [Ht [Hl [Hs _]]]]]]]];
    rewrite Ht, Hs.
  - destruct (listings_not_escalation k lookups Hl) as [H1 H2].
    simpl. rewrite H1. split; [discriminate | tauto].
  - simpl. split; [discriminate | tauto].
  - destruct (listings_not_escalation k lookups Hl) as [H1 H2].
    simpl. rewrite !existsb_app, H1, H2. simpl.
    rewrite makePhoneCall_cases.
    destruct (config.enablePhoneCall cfg && twilioConfigured cfg);
      destruct (truthy key) eqn:Hkey;
      destruct (set_has seen key) eqn:Hseen;
      destruct (twilio w);
      destruct (jsval_eqb key k) eqn:Ekey;
      try (apply jsval_eqb_eq in Ekey; subst key);
      simpl;
      (split;
       [ intro Hp; try discriminate Hp; try congruence;
         (split; [congruence|];
          rewrite set_has_set_add, jsval_eqb_refl; reflexivity)
       | intro Hin; try exact Hin; try congruence;
         (rewrite set_has_set_add, Hin; apply orb_true_r) ]).
Qed.

Lemma monitorAll_placed newDate evalCondition (cfg : config.t) (k : jsval) :
  truthy k = true ->
  forall (ws : list world) (seen : list jsval),
    (List.length (filter (callPlacedFor k)
                         (monitorAll newDate evalCondition cfg ws seen))
     <= if set_has seen k then 0 else 1)%nat.
Proof.
  intros Hk ws. induction ws as [|w ws IH]; intro seen; simpl.
  - destruct (set_has seen k); lia.
  - destruct (monitor_placed newDate evalCondition cfg w seen k Hk)
      as [Hplaced Hkeep]. cbv zeta in *.
    specialize (IH (phoneCallMade' (monitor newDate evalCondition cfg w seen))).
    destruct (callPlacedFor k (monitor newDate evalCondition cfg w seen)).
    + destruct (Hplaced eq_refl) as [Hout Hin]. rewrite Hin in IH.
      rewrite Hout. simpl. lia.
    + destruct (set_has seen k).
      * now rewrite (Hkeep eq_refl) in IH.
      * destruct (set_has (phoneCallMade'
                             (monitor newDate evalCondition cfg w seen)) k);
          lia.
Qed.

(** X22. Over cycles that run one after the other, each finished before the
    next starts, and that start with an empty set, at most one cycle calls
    [makePhoneCall] with a given non-empty key and has the Twilio call
    created.  (The timer does not wait for a cycle to finish; cycles that
    overlap are outside [monitorAll].) *)
Theorem monitorAll_one_call_per_key :
  forall (newDate : jsval -> option jsdate)
         (evalCondition : string -> responseData -> option bool)
         (cfg : config.t) (ws : list world) (k : jsval),
    truthy k = true ->
    (List.length (filter (callPlacedFor k)
                         (monitorAll newDate evalCondition cfg ws []))
     <= 1)%nat.
Proof.
  intros newDate evalCondition cfg ws k Hk.
  exact (monitorAll_placed newDate evalCondition cfg k Hk ws []).
Qed.

Lemma monitorAll_one_call_per_key_witness :
  List.length
    (filter (callPlacedFor (JStr "F1|PVR"))
            (monitorAll sampleNewDate sampleEval sampleConfig
                        [sampleWorld ["PVR"]; sampleWorld ["PVR"];
                         sampleWorld ["PVR"]] []))
  = 1%nat
  /\ (List.length
        (filter (callPlacedFor (JStr "F1|PVR"))
                (monitorAll sampleNewDate sampleEval sampleConfig
                            [sampleWorld ["PVR"]; sampleWorld ["PVR"];
                             sampleWorld ["PVR"]] []))
      <= 1)%nat.
Proof.
  split; [reflexivity|].
  exact (monitorAll_one_call_per_key
           sampleNewDate sampleEval sampleConfig
           [sampleWorld ["PVR"]; sampleWorld ["PVR"]; sampleWorld ["PVR"]]
           (JStr "F1|PVR") eq_refl).
Defined.

(** ** Calls that overlap *)

(** X26. The set [phoneCallMade] is consulted before
    [await client.calls.create(...)] and written after it.  So when a second
    call of [makePhoneCall] with the same new key starts while the first
    waits for Twilio, both calls place the call and both return [true]; the
    key is recorded once. *)
Theorem overlapping_calls_both_fire :
  forall (cfg : config.t) (k : jsval) (phoneCallMade : list jsval),
    config.enablePhoneCall cfg = true ->
    twilioConfigured cfg = true ->
    truthy k = true ->
    set_has phoneCallMade k = false ->
    let ticks := [Enter k; Enter k; Resume 0 CallCreated; Resume 0 CallCreated] in
    returned (runTicks cfg ticks (idle phoneCallMade)) = [(k, true); (k, true)]
    /\ firedFor k (runTicks cfg ticks (idle phoneCallMade)) = 2%nat
    /\ held (runTicks cfg ticks (idle phoneCallMade)) = phoneCallMade ++ [k]
    /\ noOverlap cfg k ticks (idle phoneCallMade) = false.
Proof.
  intros cfg k seen He Hc Hk Hs ticks. subst ticks.
  assert (Henter : makePhoneCall_enter cfg k seen = AwaitsTwilio).
  { now rewrite makePhoneCall_enter_cases, He, Hc, Hk, Hs. }
  assert (Hadd : set_add k seen = seen ++ [k]).
  { unfold set_add. unfold set_has in Hs. now rewrite Hs. }
  assert (Hadd' : set_add k (seen ++ [k]) = seen ++ [k]).
  { unfold set_add. rewrite existsb_app. simpl.
    now rewrite jsval_eqb_refl, orb_true_r. }
  assert (Hrun : runTicks cfg
                   [Enter k; Enter k; Resume 0 CallCreated; Resume 0 CallCreated]
                   (idle seen)
                 = {| held := seen ++ [k]; waiting := [];
                      returned := [(k, true); (k, true)] |}).
  { unfold runTicks, idle. cbn [fold_left step held waiting returned].
    rewrite Henter. cbn [held waiting returned app].
    rewrite Henter. cbn [held waiting returned app nth_error remove_nth
                         makePhoneCall_resume].
    rewrite ?Hk, ?Hadd. cbn [held waiting returned app nth_error remove_nth
                             makePhoneCall_resume].
    now rewrite ?Hk, ?Hadd'. }
  rewrite Hrun. cbn [returned held]. repeat split.
  - unfold firedFor. cbn [returned filter fst snd andb].
    now rewrite jsval_eqb_refl.
  - unfold idle. cbn [noOverlap admissible step held waiting returned].
    rewrite Henter. cbn [waiting app set_has existsb].
    now rewrite jsval_eqb_refl.
Qed.

Lemma overlapping_calls_both_fire_witness :
  returned (runTicks sampleConfig
              [Enter (JStr "F1|PVR"); Enter (JStr "F1|PVR");
               Resume 0 CallCreated; Resume 0 CallCreated]
              (idle []))
  = [(JStr "F1|PVR", true); (JStr "F1|PVR", true)].
Proof.
  exact (proj1 (overlapping_calls_both_fire
                  sampleConfig (JStr "F1|PVR") []
                  eq_refl eq_refl eq_refl eq_refl)).
Defined.

(** ** The match key does not depend on the order of the responses *)

Lemma string_leb_trans (a b c : string) :
  String.leb a b = true -> String.leb b c = true -> String.leb a c = true.
Proof.
  unfold String.leb. revert b c.
  induction a as [|ca a IH]; intros [|cb b] [|cc c]; simpl;
    try reflexivity; try discriminate.
  unfold Ascii.compare.
  destruct (N.compare_spec (N_of_ascii ca) (N_of_ascii cb)) as [Hab|Hab|Hab];
    destruct (N.compare_spec (N_of_ascii cb) (N_of_ascii cc)) as [Hbc|Hbc|Hbc];
    destruct (N.compare_spec (N_of_ascii ca) (N_of_ascii cc)) as [Hac|Hac|Hac];
    try lia; try reflexivity; try discriminate.
  apply IH.
Qed.

Lemma sorted_strings_unique (l l' : list string) :
  Sorted (fun a b => String.leb a b = true) l ->
  Sorted (fun a b => String.leb a b = true) l' ->
  Permutation l l' -> l = l'.
Proof.
  intros Hl Hl' Hp.
  assert (Htrans : Relations_1.Transitive (fun a b => String.leb a b = true)).
  { intros x y z. apply string_leb_trans. }
  apply Sorted_StronglySorted in Hl; [|exact Htrans].
  apply Sorted_StronglySorted in Hl'; [|exact Htrans].
  clear Htrans. revert l' Hl' Hp.
  induction l as [|x l IH]; intros l' Hl' Hp.
  - apply Permutation_nil in Hp. now subst.
  - destruct l' as [|y l'];
      [apply Permutation_sym, Permutation_nil in Hp; discriminate|].
    inversion Hl as [|? ? Hsl Hx]; subst.
    inversion Hl' as [|? ? Hsl' Hy]; subst.
    assert (Hxy : x = y).
    { assert (Hin : In x (y :: l'))
        by (apply (Permutation_in _ Hp); now left).
      assert (Hin' : In y (x :: l))
        by (apply (Permutation_in _ (Permutation_sym Hp)); now left).
      destruct Hin as [Heq|Hin]; [now symmetry|].
      destruct Hin' as [Heq|Hin']; [exact Heq|].
      rewrite Forall_forall in Hx, Hy.
      apply String.leb_antisym; auto. }
    subst y. f_equal. apply IH; [exact Hsl | exact Hsl' |].
    now apply Permutation_cons_inv in Hp.
Qed.

Lemma sort_strings (l : list jsval) :
  Sorted (fun a b => String.leb a b = true) (map toStr (sort l)).
Proof.
  destruct (sort_sorted_perm l) as [Hs _].
  induction Hs as [|x l' Hs' IH Hhd]; simpl; constructor; [exact IH|].
  destruct Hhd; simpl; constructor. assumption.
Qed.

Lemma sort_permutation_strings (l l' : list jsval) :
  Permutation l l' -> map toStr (sort l) = map toStr (sort l').
Proof.
  intro Hp. apply sorted_strings_unique; try apply sort_strings.
  apply Permutation_map.
  destruct (sort_sorted_perm l) as [_ H1].
  destruct (sort_sorted_perm l') as [_ H2].
  rewrite <- H1, <- H2. exact Hp.
Qed.

Lemma join_strings (sep : string) (l l' : list jsval) :
  map toStr l = map toStr l' -> join sep l = join sep l'.
Proof.
  revert l'. induction l as [|x l IH]; intros [|y l'] H; simpl in H;
    try discriminate; [reflexivity|].
  injection H as Hx Hl. specialize (IH l' Hl).
  destruct l as [|x' l], l' as [|y' l'']; try discriminate Hl.
  - simpl. exact Hx.
  - change (join sep (x :: x' :: l))
      with (toStr x ++ sep ++ join sep (x' :: l))%string.
    change (join sep (y :: y' :: l''))
      with (toStr y ++ sep ++ join sep (y' :: l''))%string.
    now rewrite Hx, IH.
Qed.

(** X23. The match key depends on the film codes and on the matching
    theatres as sets, not on their order: responses that list the same codes
    and the same theatres in another order give the same key. *)
Theorem matchKeyOf_order_independent :
  forall (cfg : config.t) (keywordMatches : list filmMatch)
         (filmCommonCodes filmCommonCodes' : list jsval)
         (m m' : cinemaMatchResult) (targetMovieFound : bool),
    Permutation filmCommonCodes filmCommonCodes' ->
    Permutation (matchingTheaters m) (matchingTheaters m') ->
    matchKeyOf cfg keywordMatches filmCommonCodes (Some m) targetMovieFound
    = matchKeyOf cfg keywordMatches filmCommonCodes' (Some m') targetMovieFound.
Proof.
  intros cfg keywordMatches codes codes' m m' target Hcodes Hth.
  unfold matchKeyOf.
  rewrite (Permutation_length Hcodes), (Permutation_length Hth).
  rewrite (join_strings "," _ _ (sort_permutation_strings _ _ Hcodes)).
  rewrite (join_strings "," _ _
             (sort_permutation_strings _ _ (Permutation_map name Hth))).
  reflexivity.
Qed.

Lemma matchKeyOf_order_independent_witness :
  matchKeyOf sampleConfig
    [{| fmKeywordSet := Some [JStr "Spider"]; matchingFilms := [JStr "Spider"];
        fmSetIndex := 0 |}]
    [JStr "F2"; JStr "F1"]
    (Some {| matched := true; matchingTheaters := [samplePVR; sampleIMAX];
             matchedSets := [] |}) false
  = JStr "F1,F2|City Mall - IMAX,PVR Orion Mall"
  /\ matchKeyOf sampleConfig
       [{| fmKeywordSet := Some [JStr "Spider"];
           matchingFilms := [JStr "Spider"]; fmSetIndex := 0 |}]
       [JStr "F2"; JStr "F1"]
       (Some {| matched := true; matchingTheaters := [samplePVR; sampleIMAX];
                matchedSets := [] |}) false
     = matchKeyOf sampleConfig
         [{| fmKeywordSet := Some [JStr "Spider"];
             matchingFilms := [JStr "Spider"]; fmSetIndex := 0 |}]
         [JStr "F1"; JStr "F2"]
         (Some {| matched := true; matchingTheaters := [sampleIMAX; samplePVR];
                  matchedSets := [] |}) false.
Proof.
  split; [reflexivity|].
  exact (matchKeyOf_order_independent
           sampleConfig _ [JStr "F2"; JStr "F1"] [JStr "F1"; JStr "F2"]
           {| matched := true; matchingTheaters := [samplePVR; sampleIMAX];
              matchedSets := [] |}
           {| matched := true; matchingTheaters := [sampleIMAX; samplePVR];
              matchedSets := [] |}
           false (perm_swap _ _ _) (perm_swap _ _ _)).
Defined.

(** ** Startup *)

Lemma describeSets_from_throw (keywordSets : list keywordSet) (index : nat) :
  describeSets_from index keywordSets = Throw <-> In None keywordSets.
Proof.
  revert index. induction keywordSets as [|[keywords|] rest IH]; intro index;
    cbn [describeSets_from In].
  - split; [discriminate | tauto].
  - specialize (IH (S index)).
    destruct (describeSets_from (S index) rest).
    + split; [discriminate|]. intros [H|H]; [discriminate H|].
      apply IH in H. discriminate H.
    + split; [intros _; right; now apply IH | reflexivity].
  - split; [intros _; now left | reflexivity].
Qed.

Lemma describeSets_throw (keywordSets : list keywordSet) :
  describeSets keywordSets = Throw <-> In None keywordSets.
Proof.
  unfold describeSets. rewrite <- (describeSets_from_throw keywordSets 0).
  destruct (describeSets_from 0 keywordSets); split; congruence.
Qed.

(** Whether a keyword-set configuration that is in use has an entry that is
    not an array. *)
Lemma startup_cases (telegramToken telegramChatId : jsval) (cfg : config.t) :
  config.apiUrl cfg <> "" ->
  truthy telegramToken = true -> truthy telegramChatId = true ->
  (startup (Normal cfg) telegramToken telegramChatId = StartupThrows
   /\ exists sets, (config.movieKeywords cfg = Some sets
                    \/ config.cinemaKeywords cfg = Some sets)
                   /\ In None sets)
  \/ ((exists trackingInfo cinemaInfo,
          startup (Normal cfg) telegramToken telegramChatId
          = Started trackingInfo cinemaInfo)
      /\ (forall sets, config.movieKeywords cfg = Some sets -> ~ In None sets)
      /\ (forall sets, config.cinemaKeywords cfg = Some sets -> ~ In None sets)).
Proof.
  intros Hurl Htok Hchat. unfold startup.
  apply String.eqb_neq in Hurl. rewrite Hurl, Htok, Hchat. simpl.
  assert (Hm : forall o : option (list keywordSet),
             (exists sets, o = Some sets /\ In None sets
                           /\ match o with
                              | Some (set :: sets) => describeSets (set :: sets)
                              | _ => Normal ""
                              end = Throw)
             \/ ((forall sets, o = Some sets -> ~ In None sets)
                 /\ match o with
                    | Some (set :: sets) => describeSets (set :: sets)
                    | _ => Normal ""
                    end <> Throw)).
  { intros [[|set sets]|].
    - right. split; [|discriminate]. intros s H. injection H as <-. tauto.
    - destruct (describeSets (set :: sets)) eqn:E.
      + right. split; [|discriminate]. intros s H Hn. injection H as <-.
        apply describeSets_throw in Hn. congruence.
      + left. exists (set :: sets). apply describeSets_throw in E. auto.
    - right. split; discriminate. }
  destruct (Hm (config.movieKeywords cfg)) as [[ms [Hms [Hmn Hmt]]]|[Hmok Hmt]].
  - left. split; [|exists ms; auto].
    rewrite Hms in *. destruct ms as [|set sets]; [destruct Hmn|].
    now rewrite Hmt.
  - destruct (Hm (config.cinemaKeywords cfg))
      as [[cs [Hcs [Hcn Hct]]]|[Hcok Hct]].
    + left. split; [|exists cs; auto].
      rewrite Hcs in *. destruct cs as [|set sets]; [destruct Hcn|].
      rewrite Hct.
      destruct (config.movieKeywords cfg) as [[|mset msets]|]; try reflexivity.
      now destruct (describeSets (mset :: msets)).
    + right. split; [|auto].
      destruct (config.movieKeywords cfg) as [[|mset msets]|];
        destruct (config.cinemaKeywords cfg) as [[|cset csets]|];
        try (destruct (describeSets (mset :: msets)); [|now elim Hmt]);
        try (destruct (describeSets (cset :: csets)); [|now elim Hct]);
        eauto.
Qed.

Lemma startup_invalid (telegramToken telegramChatId : jsval) (cfg : config.t) :
  config.apiUrl cfg = ""
  \/ truthy telegramToken = false \/ truthy telegramChatId = false ->
  startup (Normal cfg) telegramToken telegramChatId = ConfigError.
Proof.
  unfold startup. intros [H|[H|H]].
  - now rewrite H.
  - rewrite H. now destruct (config.apiUrl cfg =? "")%string.
  - rewrite H, orb_true_r. now destruct (config.apiUrl cfg =? "")%string.
Qed.

(** X24. The start of the program.  When reading the settings throws, the
    program throws.  With the settings read: without [API_URL], the Telegram
    token or the chat id, it exits and reaches neither the startup message
    nor the monitoring; with them, an entry of the film keyword sets or of the
    cinema keyword sets that is not an array makes the startup log throw
    ([set.join] is not a function), so the monitoring begins only with
    keyword sets whose entries are all arrays. *)
Theorem startup_throws :
  forall (telegramToken telegramChatId : jsval) (cfg : config.t),
    startup Throw telegramToken telegramChatId = StartupThrows
    /\ (config.apiUrl cfg = ""
        \/ truthy telegramToken = false \/ truthy telegramChatId = false ->
        startup (Normal cfg) telegramToken telegramChatId = ConfigError)
    /\ (config.apiUrl cfg <> "" ->
        truthy telegramToken = true -> truthy telegramChatId = true ->
        (exists sets, (config.movieKeywords cfg = Some sets
                       \/ config.cinemaKeywords cfg = Some sets)
                      /\ In None sets) ->
        startup (Normal cfg) telegramToken telegramChatId = StartupThrows)
    /\ (forall trackingInfo cinemaInfo,
           startup (Normal cfg) telegramToken telegramChatId
           = Started trackingInfo cinemaInfo ->
           config.apiUrl cfg <> ""
           /\ truthy telegramToken = true /\ truthy telegramChatId = true
           /\ (forall sets, config.movieKeywords cfg = Some sets ->
                            ~ In None sets)
           /\ (forall sets, config.cinemaKeywords cfg = Some sets ->
                            ~ In None sets)).
Proof.
  intros tok chat cfg. split; [reflexivity|].
  split; [apply startup_invalid|]. split.
  - intros Hurl Htok Hchat [sets [Hsets Hnone]].
    destruct (startup_cases tok chat cfg Hurl Htok Hchat)
      as [[Hthrow _]|[_ [Hm Hc]]]; [exact Hthrow|].
    destruct Hsets as [H|H]; [elim (Hm sets H Hnone) | elim (Hc sets H Hnone)].
  - intros t c Hstart.
    destruct (String.eqb_spec (config.apiUrl cfg) "") as [Hurl|Hurl].
    { rewrite (startup_invalid tok chat cfg (or_introl Hurl)) in Hstart.
      discriminate Hstart. }
    destruct (truthy tok) eqn:Htok.
    2:{ rewrite (startup_invalid tok chat cfg (or_intror (or_introl Htok)))
          in Hstart. discriminate Hstart. }
    destruct (truthy chat) eqn:Hchat.
    2:{ rewrite (startup_invalid tok chat cfg (or_intror (or_intror Hchat)))
          in Hstart. discriminate Hstart. }
    destruct (startup_cases tok chat cfg Hurl Htok Hchat)
      as [[Hthrow _]|[_ [Hm Hc]]]; [congruence|].
    repeat split; assumption.
Qed.

(** An empty keyword set passes the startup log; an entry that is not an
    array does not. *)
Example startup_empty_set_starts :
  startup (Normal (sampleConfigCinema [Some []])) (JStr "token") (JStr "chat")
  = Started "Set 1: (Spider AND No Way Home)" (Some "Set 1: ()")
  /\ startup (Normal (sampleConfigCinema [None])) (JStr "token") (JStr "chat")
     = StartupThrows.
Proof. split; reflexivity. Qed.

(** With a string [API_BODY] that is not JSON and no body template, a lookup
    sends no request and fails; the cycle still notifies, with no theatre. *)
Example lookup_without_body :
  fetchTheaterListings sampleNewDate sampleConfigBody (sampleWorld ["PVR"])
                       (JStr "F1") (JStr "Dec 25, 2027")
  = ([], ListingsFailure)
  /\ filter isMakePhoneCall
       (trace (monitor sampleNewDate sampleEval sampleConfigBody
                       (sampleWorld ["PVR"]) []))
     = [EvMakePhoneCall (JStr "F1|all")].
Proof. split; reflexivity. Qed.
